(** * fire.hpp: command-line argument matching and coercion

    A shallow embedding of [src/fire.hpp] (namespace [fire]): the
    [identifier] class, the [_first] slot, the [_matcher] pipeline
    ([parse], [separate_named_positional], [split_equations],
    [assign_named_values], [get_and_mark_as_queried], [check],
    [deferred_assert]) and the integral branch of the coercion code
    ([arg::_get<long long>], [arg::_get_with_precision<T>],
    [arg::_convert<T>]), followed by the properties of the specification
    that are about them.

    Conventions of the embedding:
    - [std::string] is [string]; [std::vector] is [list], [push_back] and
      [emplace_back] append at the end;
    - [fire::optional<T>] is [option T];
    - the singleton [_::matcher] is threaded explicitly: a member function
      is a computation [M A] that takes the matcher and either returns a
      value with the new matcher or terminates the process ([exit]) with a
      status and what was written to [std::cerr];
    - [int] and [long long] values are [Z]; the conversions the code
      performs ([int] to [size_t], [long long] to [T]) are written out;
      [_main_argc] is a plain countdown, far from the limits of [int];
    - [_help_logger] only matters through [print_help], which is an event
      of the output; the floating-point coercions are left out.

    The last part of the file, "Further properties of the code", goes
    beyond the specification: it adds the other conversions of [arg]
    (string, flag, optional, vector, the initializer-list constructor) and
    the pure functions of [_help_logger] ([log], [_make_printable],
    [_add_to_help], the comparator and the margin of [print_help]), and
    proves what the code shows of itself: the shape of Identifiers, the
    final validation, the stages of the classifier, the decimal forms and
    whole runs from the command line to the value of an argument. *)

From Stdlib Require Import ZArith List String Ascii Bool Lia Arith.
From Stdlib Require Import Numbers.DecimalString Numbers.DecimalPos Sorting.Permutation.
Import ListNotations.

Open Scope string_scope.
Open Scope Z_scope.

(** ** Characters and strings of the C and C++ libraries *)

Definition char_code (c : ascii) : Z := Z.of_N (N_of_ascii c).

(** [isdigit] in the C locale. *)
Definition isdigit (c : ascii) : bool :=
  (48 <=? char_code c) && (char_code c <=? 57).

(** [isspace] in the C locale: space, \t, \n, \v, \f, \r. *)
Definition isspace (c : ascii) : bool :=
  (char_code c =? 32) || ((9 <=? char_code c) && (char_code c <=? 13)).

(** [(char) tolower(c)] in the C locale. *)
Definition tolower (c : ascii) : ascii :=
  if (65 <=? char_code c) && (char_code c <=? 90)
  then ascii_of_N (N_of_ascii c + 32)
  else c.

(** [std::transform(s.begin(), s.end(), s.begin(), f)]. *)
Fixpoint transform (f : ascii -> ascii) (s : string) : string :=
  match s with
  | EmptyString => EmptyString
  | String c s' => String (f c) (transform f s')
  end.

(** [s[i]]; for [i = s.size()] the C++ operator yields the null character,
    and no call site of the source goes further. *)
Definition char_at (s : string) (i : nat) : ascii :=
  match String.get i s with
  | Some c => c
  | None => Ascii.zero
  end.

(** [s.find(c)]: index of the first occurrence, [None] for [npos]. *)
Fixpoint find (c : ascii) (s : string) : option nat :=
  match s with
  | EmptyString => None
  | String d s' =>
      if Ascii.eqb d c then Some O
      else match find c s' with
           | Some n => Some (S n)
           | None => None
           end
  end.

(** [s.substr(pos)] and [s.substr(pos, len)]; every call site of the
    source has [pos <= s.size()], where no exception is thrown. *)
Definition substr_from (pos : nat) (s : string) : string :=
  substring pos (String.length s - pos) s.

Definition substr (pos len : nat) (s : string) : string :=
  substring pos len s.

(** [std::string(1, c)]. *)
Definition string1 (c : ascii) : string := String c EmptyString.

(** [std::to_string] on an integer. *)
Definition to_string (z : Z) : string := NilZero.string_of_int (Z.to_int z).

(** [operator<] of [std::string]: lexicographic on unsigned characters. *)
Definition string_lt (a b : string) : bool := String.ltb a b.

Definition size (s : string) : Z := Z.of_nat (String.length s).

(** [fire::optional<T>::value_or]. *)
Definition value_or {T : Type} (o : option T) (def : T) : T :=
  match o with
  | Some v => v
  | None => def
  end.

Definition has_value {T : Type} (o : option T) : bool :=
  match o with
  | Some _ => true
  | None => false
  end.

(** ** [count_hyphens] *)

Fixpoint count_hyphens_nat (s : string) : nat :=
  match s with
  | String c s' => if Ascii.eqb c "-" then S (count_hyphens_nat s') else O
  | EmptyString => O
  end.

Definition count_hyphens (s : string) : Z := Z.of_nat (count_hyphens_nat s).

(** ** [class identifier] *)

Record identifier : Type := mk_identifier {
  _short_name : option string;
  _long_name : option string;
  _pos : option Z;
  _vector : bool;
  _help : string;
  _longer : string
}.

(** [identifier::prepend_hyphens]. *)
Definition prepend_hyphens (name : string) : string :=
  if size name =? 1 then "-" ++ name
  else if 2 <=? size name then "--" ++ name
  else name.

(** [identifier::operator<]. *)
Definition identifier_lt (a b : identifier) : bool :=
  let name := value_or (_long_name a) (value_or (_short_name a) "") in
  let other_name := value_or (_long_name b) (value_or (_short_name b) "") in
  let name := transform tolower name in
  let other_name := transform tolower other_name in
  if negb (String.eqb name other_name)
  then string_lt name other_name
  else value_or (_pos a) 1000000 <? value_or (_pos b) 1000000.

(** [identifier::overlaps]. *)
Definition overlaps (a b : identifier) : bool :=
  match _long_name a, _long_name b with
  | Some x, Some y => String.eqb x y
  | _, _ => false
  end
  ||
  match _short_name a, _short_name b with
  | Some x, Some y => String.eqb x y
  | _, _ => false
  end
  ||
  match _pos a, _pos b with
  | Some x, Some y => x =? y
  | _, _ => false
  end.

(** [identifier::contains(name)]. *)
Definition contains (id : identifier) (name : string) : bool :=
  match _short_name id with
  | Some s => String.eqb name s
  | None => false
  end
  ||
  match _long_name id with
  | Some l => String.eqb name l
  | None => false
  end.

(** [identifier::contains(int)]. *)
Definition contains_pos (id : identifier) (pos : Z) : bool :=
  match _pos id with
  | Some p => pos =? p
  | None => false
  end.

(** ** [class _first<identifier, std::string>] *)

Record _first : Type := mk_first {
  _order : identifier;
  _value : string;
  _empty : bool
}.

(** [_first::set]. *)
Definition _first_set (order : identifier) (value : string) (f : _first) : _first :=
  if _empty f || identifier_lt order (_order f)
  then {| _order := order; _value := value; _empty := false |}
  else f.

(** [_first::get]. *)
Definition _first_get (f : _first) : string := _value f.

(** ** [class _matcher]: state and termination *)

Inductive arg_type : Type := string_t | bool_t | none_t.

Definition arg_type_eqb (a b : arg_type) : bool :=
  match a, b with
  | string_t, string_t | bool_t, bool_t | none_t, none_t => true
  | _, _ => false
  end.

Record _matcher : Type := mk_matcher {
  _executable : string;
  _positional : list string;
  _named : list (string * option string);
  _queried : list identifier;
  _deferred_error : _first;
  _main_argc : Z;
  _space_assignment : bool;
  _strict : bool;
  _help_flag : bool
}.

(** What the process wrote before it terminated: lines on [std::cerr], or
    the help page of [_help_logger::print_help] (its layout is outside
    this development). *)
Inductive event : Type :=
| Cerr (line : string)
| PrintHelp.

Inductive outcome (A : Type) : Type :=
| Ret (a : A) (m : _matcher)
| Exit (code : Z) (out : list event).

Arguments Ret {A} a m.
Arguments Exit {A} code out.

Definition M (A : Type) : Type := _matcher -> outcome A.

Definition ret {A : Type} (a : A) : M A := fun m => Ret a m.

Definition bind {A B : Type} (c : M A) (k : A -> M B) : M B :=
  fun m =>
    match c m with
    | Ret a m' => k a m'
    | Exit code out => Exit code out
    end.

Definition gets {A : Type} (f : _matcher -> A) : M A := fun m => Ret (f m) m.

Definition modify (f : _matcher -> _matcher) : M unit := fun m => Ret tt (f m).

Definition exit {A : Type} (code : Z) (out : list event) : M A :=
  fun _ => Exit code out.

Declare Scope fire_scope.
Delimit Scope fire_scope with fire.
Notation "x <- c ;; k" := (bind c (fun x => k))
  (at level 61, c at next level, right associativity) : fire_scope.
Notation "c ;; k" := (bind c (fun _ => k))
  (at level 61, right associativity) : fire_scope.
Open Scope fire_scope.

Definition _failure_code : Z := 1.

Definition endl : string := String (ascii_of_nat 10) EmptyString.

(** [_instant_assert]. *)
Definition _instant_assert (pass : bool) (msg : string) (programmer_side : bool) : M unit :=
  if pass then ret tt
  else
    exit _failure_code
      (if String.eqb msg "" then []
       else [Cerr ("Error" ++ (if programmer_side then " (programmer side)" else "")
                   ++ ": " ++ msg ++ endl)]).

Definition set_queried (q : list identifier) (m : _matcher) : _matcher :=
  {| _executable := _executable m; _positional := _positional m; _named := _named m;
     _queried := q; _deferred_error := _deferred_error m; _main_argc := _main_argc m;
     _space_assignment := _space_assignment m; _strict := _strict m;
     _help_flag := _help_flag m |}.

Definition set_deferred_error (f : _first) (m : _matcher) : _matcher :=
  {| _executable := _executable m; _positional := _positional m; _named := _named m;
     _queried := _queried m; _deferred_error := f; _main_argc := _main_argc m;
     _space_assignment := _space_assignment m; _strict := _strict m;
     _help_flag := _help_flag m |}.

Definition set_main_argc (n : Z) (m : _matcher) : _matcher :=
  {| _executable := _executable m; _positional := _positional m; _named := _named m;
     _queried := _queried m; _deferred_error := _deferred_error m; _main_argc := n;
     _space_assignment := _space_assignment m; _strict := _strict m;
     _help_flag := _help_flag m |}.

Definition set_help_flag (b : bool) (m : _matcher) : _matcher :=
  {| _executable := _executable m; _positional := _positional m; _named := _named m;
     _queried := _queried m; _deferred_error := _deferred_error m;
     _main_argc := _main_argc m;
     _space_assignment := _space_assignment m; _strict := _strict m;
     _help_flag := b |}.

Definition set_tables (exe : string) (positional : list string)
    (named : list (string * option string)) (m : _matcher) : _matcher :=
  {| _executable := exe; _positional := positional; _named := named;
     _queried := _queried m; _deferred_error := _deferred_error m;
     _main_argc := _main_argc m;
     _space_assignment := _space_assignment m; _strict := _strict m;
     _help_flag := _help_flag m |}.

(** [_matcher::deferred_assert]. *)
Definition deferred_assert (id : identifier) (pass : bool) (msg : string) : M bool :=
  strict <- gets _strict ;;
  if negb strict then
    _instant_assert pass msg false ;;
    ret pass
  else if negb pass then
    modify (fun m => set_deferred_error (_first_set id msg (_deferred_error m)) m) ;;
    ret pass
  else ret pass.

(** ** Constructors of [identifier] *)

(** [identifier::identifier()]: the vector sentinel. *)
Definition identifier_default : identifier :=
  {| _short_name := None; _long_name := None; _pos := None; _vector := true;
     _help := "..."; _longer := "..." |}.

(** [identifier::_check_name]. *)
Definition _check_name (name : string) : M unit :=
  _instant_assert (count_hyphens name =? 0)
    ("argument " ++ name ++ " has hyphens prefixed in declaration") true ;;
  _instant_assert (1 <=? size name) "name must contain at least one character" true ;;
  _instant_assert ((2 <=? size name) || negb (isdigit (char_at name 0)))
    ("single character name must not be a digit (" ++ name ++ ")") true.

(** [identifier::identifier(const char* name)]. *)
Definition identifier_name (name : string) : M identifier :=
  _check_name name ;;
  let short := if size name =? 1 then Some name else None in
  let long := if size name =? 1 then None else Some name in
  let help := if has_value long then "--" ++ name else "-" ++ name in
  ret {| _short_name := short; _long_name := long; _pos := None; _vector := false;
         _help := help; _longer := help |}.

(** [identifier::identifier(int)]. *)
Definition identifier_pos (pos : Z) : identifier :=
  {| _short_name := None; _long_name := None; _pos := Some pos; _vector := false;
     _help := "<" ++ to_string pos ++ ">"; _longer := "<" ++ to_string pos ++ ">" |}.

(** [identifier::identifier(const char* name1_c, const char* name2_c)]. *)
Definition identifier_names (name1_c name2_c : string) : M identifier :=
  _check_name name1_c ;;
  _check_name name2_c ;;
  let swap := size name2_c <? size name1_c in
  let name1 := if swap then name2_c else name1_c in
  let name2 := if swap then name1_c else name2_c in
  _instant_assert (size name1 =? 1)
    "one of the two names given must be a shorthand (single character)" true ;;
  _instant_assert (2 <=? size name2)
    "one of the two names given must be longer than one character" true ;;
  ret {| _short_name := Some name1; _long_name := Some name2; _pos := None;
         _vector := false;
         _help := "-" ++ name1 ++ "|--" ++ name2; _longer := "--" ++ name2 |}.

(** [identifier::identifier(int pos, const char* help)] and
    [identifier::identifier(const char* help, int pos)]. *)
Definition identifier_pos_help (pos : Z) (help : string) : M identifier :=
  let id := {| _short_name := None; _long_name := None; _pos := Some pos;
               _vector := false; _help := help; _longer := help |} in
  _check_name help ;;
  ret id.

(** ** Member functions of [_matcher] *)

(** The loop of [get_and_mark_as_queried] over [_queried]. *)
Fixpoint assert_no_overlap (queried : list identifier) (id : identifier) : M unit :=
  match queried with
  | [] => ret tt
  | it :: rest =>
      _instant_assert (negb (overlaps it id))
        ("double query for argument " ++ _longer id) true ;;
      assert_no_overlap rest id
  end.

(** The loop of [get_and_mark_as_queried] over [_named]. *)
Fixpoint lookup_named (named : list (string * option string)) (id : identifier)
  : option (string * arg_type) :=
  match named with
  | [] => None
  | (name, result) :: rest =>
      if contains id name then
        match result with
        | Some v => Some (v, string_t)
        | None => Some ("", bool_t)
        end
      else lookup_named rest id
  end.

(** The conversion [size_t pos = id.get_pos().value()] of an [int]. *)
Definition size_t_of_int (z : Z) : Z := z mod 2 ^ 64.

Definition space_assignment_msg : string :=
  "positional argument used with space assignement enabled: (disable space assignement by calling FIRE_NO_SPACE_ASSIGNMENT(...) instead of FIRE(...))".

(** The two lookups of [get_and_mark_as_queried] (the loop over [_named],
    then the positional index), which read the tables and nothing else. *)
Definition resolve (named : list (string * option string)) (positional : list string)
    (id : identifier) : string * arg_type :=
  match lookup_named named id with
  | Some r => r
  | None =>
      match _pos id with
      | Some p =>
          let pos := size_t_of_int p in
          if Z.of_nat (List.length positional) <=? pos then ("", none_t)
          else (nth (Z.to_nat pos) positional "", string_t)
      | None => ("", none_t)
      end
  end.

(** [_matcher::get_and_mark_as_queried]. *)
Definition get_and_mark_as_queried (id : identifier) : M (string * arg_type) :=
  sa <- gets _space_assignment ;;
  (if sa then _instant_assert (negb (has_value (_pos id))) space_assignment_msg true
   else ret tt) ;;
  queried <- gets _queried ;;
  assert_no_overlap queried id ;;
  strict <- gets _strict ;;
  (if strict then modify (fun m => set_queried (_queried m ++ [id]) m) else ret tt) ;;
  named <- gets _named ;;
  positional <- gets _positional ;;
  ret (resolve named positional id).

Definition has_eq (s : string) : bool := has_value (find "="%char s).

(** The condition of the first [if] of the loop of
    [separate_named_positional]: [s] is a named token. *)
Definition is_named_token (s : string) : bool :=
  let hyphens := count_hyphens s in
  let name_size := size s - hyphens in
  (hyphens =? 2) || ((hyphens =? 1) && (1 <=? name_size) && negb (isdigit (char_at s 1))).

(** What that branch assigns to [to_named]: whether the named token [s]
    may take the next token as its value. *)
Definition takes_value (s : string) : bool :=
  let hyphens := count_hyphens s in
  let name_size := size s - hyphens in
  ((2 <=? hyphens) || (name_size =? 1)) && negb (has_eq s).

(** The loop of [_matcher::separate_named_positional]; [to_named], [named]
    and [positional] are its local variables. *)
Fixpoint separate_loop (raw : list string) (to_named : bool)
    (named positional : list string) : M (list string * list string) :=
  match raw with
  | [] => ret (named, positional)
  | s :: rest =>
      deferred_assert identifier_default (count_hyphens s <=? 2)
        ("too many hyphens: " ++ s) ;;
      sa <- gets _space_assignment ;;
      if is_named_token s then
        separate_loop rest (takes_value s) (named ++ [s]) positional
      else if sa && to_named then
        separate_loop rest false (named ++ [s]) positional
      else
        separate_loop rest to_named named (positional ++ [s])
  end.

(** [_matcher::separate_named_positional]. *)
Definition separate_named_positional (raw : list string) : M (list string * list string) :=
  separate_loop raw false [] [].

(** The loop of [_matcher::split_equations]. *)
Fixpoint split_loop (named : list string) (split : list (string * bool))
  : M (list (string * bool)) :=
  match named with
  | [] => ret split
  | hyphened_name :: rest =>
      let hyphens := count_hyphens hyphened_name in
      match find "="%char hyphened_name with
      | None => split_loop rest (split ++ [(hyphened_name, false)])
      | Some eq =>
          let name_size := Z.of_nat eq - hyphens in
          ok <- deferred_assert identifier_default ((name_size =? 1) || (2 <=? hyphens))
                  ("expanding single-hyphen arguments can't have value ("
                   ++ hyphened_name ++ ")") ;;
          if negb ok then split_loop rest split
          else
            split_loop rest
              (split ++ [(substr 0 eq hyphened_name, false);
                         (substr_from (S eq) hyphened_name, true)])
      end
  end.

(** [_matcher::split_equations]. *)
Definition split_equations (named : list string) : M (list (string * bool)) :=
  split_loop named [].

(** [args.back().second = v]. On an empty vector the C++ behaviour is
    undefined; the model leaves [args] as it is there. *)
Definition set_back (v : string) (args : list (string * option string))
  : list (string * option string) :=
  match rev args with
  | [] => args
  | (name, _) :: front => rev front ++ [(name, Some v)]
  end.

(** [for (char c: name) args.emplace_back(std::string(1, c), optional())]. *)
Fixpoint flags_of (name : string) : list (string * option string) :=
  match name with
  | EmptyString => []
  | String c name' => (string1 c, None) :: flags_of name'
  end.

(** The loop of [_matcher::assign_named_values]. *)
Fixpoint assign_loop (named : list (string * bool)) (args : list (string * option string))
  : M (list (string * option string)) :=
  match named with
  | [] => ret args
  | (hyphened_name, certainly_value) :: rest =>
      let hyphens := count_hyphens hyphened_name in
      let name := substr_from (Z.to_nat hyphens) hyphened_name in
      if certainly_value then assign_loop rest (set_back hyphened_name args)
      else if hyphens =? 2 then
        deferred_assert identifier_default (2 <=? size name)
          ("single character parameter " ++ hyphened_name
           ++ " must have exactly one hyphen") ;;
        assign_loop rest (args ++ [(name, None)])
      else if hyphens =? 1 then
        if isdigit (char_at name 0) then assign_loop rest (set_back hyphened_name args)
        else assign_loop rest (args ++ flags_of name)
      else if hyphens =? 0 then assign_loop rest (set_back name args)
      else assign_loop rest args
  end.

(** [_matcher::assign_named_values]. *)
Definition assign_named_values (named : list (string * bool))
  : M (list (string * option string)) :=
  assign_loop named [].

(** The inner loop of the duplicate scan of [parse]: [name] is
    [_named[i].first], [earlier] the entries [_named[0..i-1]]. *)
Fixpoint duplicates_inner (name : string) (earlier : list (string * option string))
  : M unit :=
  match earlier with
  | [] => ret tt
  | (other, _) :: rest =>
      deferred_assert identifier_default (negb (String.eqb name other))
        ("multiple occurrences of argument " ++ prepend_hyphens name) ;;
      duplicates_inner name rest
  end.

(** The outer loop of the duplicate scan of [parse]. *)
Fixpoint duplicates_outer (earlier later : list (string * option string)) : M unit :=
  match later with
  | [] => ret tt
  | entry :: rest =>
      duplicates_inner (fst entry) earlier ;;
      duplicates_outer (earlier ++ [entry]) rest
  end.

(** The first part of [_matcher::parse], up to and including the
    duplicate scan: the Token Classifier & Assigner. [argv] is the whole
    vector, executable first ([argc] is its length, at least 1 for a
    hosted program). *)
Definition classify (argv : list string) : M unit :=
  let exe := hd "" argv in
  let raw := tl argv in
  modify (fun m => set_tables exe (_positional m) (_named m) m) ;;
  np <- separate_named_positional raw ;;
  modify (fun m => set_tables (_executable m) (snd np) (_named m) m) ;;
  split <- split_equations (fst np) ;;
  args <- assign_named_values split ;;
  modify (fun m => set_tables (_executable m) (_positional m) args m) ;;
  duplicates_outer [] args.

Definition positional_msg : string := "positional arguments given, but not accepted".

(** The last statement of [_matcher::parse]:
    [if(_space_assignment) deferred_assert(...)]. *)
Definition reject_positional : M unit :=
  sa <- gets _space_assignment ;;
  if sa then
    positional <- gets _positional ;;
    deferred_assert identifier_default
      (match positional with [] => true | _ => false end)
      positional_msg ;;
    ret tt
  else ret tt.

(** [_matcher::parse]. *)
Definition parse (argv : list string) : M unit :=
  classify argv ;;
  reject_positional.

Definition queried_contains (queried : list identifier) (name : string) : bool :=
  existsb (fun jt => contains jt name) queried.

Definition queried_contains_pos (queried : list identifier) (i : Z) : bool :=
  existsb (fun it => contains_pos it i) queried.

(** [_matcher::check_named]. *)
Definition check_named : M unit :=
  named <- gets _named ;;
  queried <- gets _queried ;;
  let acc :=
    fold_left
      (fun (acc : Z * string) (it : string * option string) =>
         if queried_contains queried (fst it) then acc
         else (fst acc + 1, snd acc ++ " " ++ prepend_hyphens (fst it)))
      named (0, "") in
  deferred_assert identifier_default (String.eqb (snd acc) "")
    ("invalid argument" ++ (if 1 <? fst acc then "s" else "") ++ snd acc) ;;
  ret tt.

(** [_matcher::check_positional]. *)
Definition check_positional : M unit :=
  positional <- gets _positional ;;
  queried <- gets _queried ;;
  let acc :=
    fold_left
      (fun (acc : Z * string) (i : nat) =>
         if queried_contains_pos queried (Z.of_nat i) then acc
         else (fst acc + 1, snd acc ++ " " ++ to_string (Z.of_nat i)))
      (seq 0 (List.length positional)) (0, "") in
  deferred_assert identifier_default (String.eqb (snd acc) "")
    ("invalid positional argument" ++ (if 1 <? fst acc then "s" else "") ++ snd acc) ;;
  ret tt.

(** The part of [_matcher::check] after its guard: the end-of-run flush. *)
Definition flush : M unit :=
  help_flag <- gets _help_flag ;;
  if help_flag then exit 0 [PrintHelp]
  else
    check_named ;;
    check_positional ;;
    err <- gets _deferred_error ;;
    if negb (_empty err) then
      exit _failure_code [Cerr ("Error: " ++ _first_get err ++ endl)]
    else ret tt.

(** [_matcher::check]. *)
Definition check (dec_main_argc : bool) : M unit :=
  modify (fun m => set_main_argc (_main_argc m - (if dec_main_argc then 1 else 0)) m) ;;
  strict <- gets _strict ;;
  main_argc <- gets _main_argc ;;
  if negb strict || (0 <? main_argc) then ret tt
  else flush.

(** [_matcher::_matcher()] with the default member initialisers. *)
Definition _matcher_default : _matcher :=
  {| _executable := ""; _positional := []; _named := []; _queried := [];
     _deferred_error := {| _order := identifier_default; _value := ""; _empty := true |};
     _main_argc := 0; _space_assignment := false; _strict := false;
     _help_flag := false |}.

Definition set_config (main_argc : Z) (space_assignment strict : bool) (m : _matcher)
  : _matcher :=
  {| _executable := _executable m; _positional := _positional m; _named := _named m;
     _queried := _queried m; _deferred_error := _deferred_error m;
     _main_argc := main_argc;
     _space_assignment := space_assignment; _strict := strict;
     _help_flag := _help_flag m |}.

(** [_matcher::_matcher(argc, argv, main_argc, space_assignment, strict)]. *)
Definition _matcher_init (argv : list string) (main_argc : Z)
    (space_assignment strict : bool) : M unit :=
  modify (set_config main_argc space_assignment strict) ;;
  parse argv ;;
  help_id <- identifier_names "h" "help" ;;
  r <- get_and_mark_as_queried help_id ;;
  modify (set_help_flag (negb (arg_type_eqb (snd r) none_t))) ;;
  check false.

(** [init_and_run] builds the matcher of a run with [strict = true]; the
    macros [FIRE] and [FIRE_NO_SPACE_ASSIGNMENT] choose [space_assignment]. *)
Definition init_and_run (argv : list string) (main_argc : Z) (space_assignment : bool)
  : outcome unit :=
  _matcher_init argv main_argc space_assignment true _matcher_default.

(** ** Integral coercion: [std::stoll], [arg::_get<long long>],
    [arg::_get_with_precision<T>] *)

Definition LLONG_MIN : Z := - 2 ^ 63.
Definition LLONG_MAX : Z := 2 ^ 63 - 1.

(** The three ways [std::stoll(str, &last)] ends: a value with the number
    of characters it consumed, [std::out_of_range], [std::invalid_argument]. *)
Inductive stoll_result : Type :=
| stoll_value (converted : Z) (last : nat)
| stoll_out_of_range
| stoll_invalid_argument.

Fixpoint skip_space (s : string) : nat * string :=
  match s with
  | String c s' =>
      if isspace c then let r := skip_space s' in (S (fst r), snd r) else (O, s)
  | EmptyString => (O, s)
  end.

Fixpoint scan_digits (s : string) (acc : Z) (n : nat) : Z * nat :=
  match s with
  | String c s' =>
      if isdigit c then scan_digits s' (10 * acc + (char_code c - 48)) (S n)
      else (acc, n)
  | EmptyString => (acc, n)
  end.

(** [std::stoll] in base 10, as the C++ standard defines it through
    [strtoll]: leading white space, an optional sign, then the longest run
    of digits. *)
Definition stoll (str : string) : stoll_result :=
  let ws := skip_space str in
  let '(negative, sign_len, body) :=
    match snd ws with
    | String c s' =>
        if Ascii.eqb c "-" then (true, 1%nat, s')
        else if Ascii.eqb c "+" then (false, 1%nat, s')
        else (false, 0%nat, snd ws)
    | EmptyString => (false, 0%nat, EmptyString)
    end in
  let r := scan_digits body 0 0 in
  match snd r with
  | O => stoll_invalid_argument
  | S _ =>
      let v := if negative then - fst r else fst r in
      if (LLONG_MIN <=? v) && (v <=? LLONG_MAX)
      then stoll_value v (fst ws + sign_len + snd r)
      else stoll_out_of_range
  end.

(** The members of [class arg] the integral coercion reads. *)
Record arg : Type := mk_arg {
  _id : identifier;
  _descr : string;
  _int_value : option Z;
  _string_value : option string
}.

(** [arg::_get<long long>]. *)
Definition _get_long_long (a : arg) : M (option Z) :=
  elem <- get_and_mark_as_queried (_id a) ;;
  deferred_assert (_id a) (negb (arg_type_eqb (snd elem) bool_t))
    ("argument " ++ _help (_id a) ++ " must have value") ;;
  if arg_type_eqb (snd elem) string_t then
    let '(converted, last, is_int, overflow) :=
      match stoll (fst elem) with
      | stoll_value v n => (v, n, true, false)
      | stoll_out_of_range => (0, O, true, true)
      | stoll_invalid_argument => (0, O, false, false)
      end in
    (if overflow
     then deferred_assert (_id a) false ("value " ++ fst elem ++ " out of range")
     else ret true) ;;
    deferred_assert (_id a) (is_int && (Z.of_nat last =? size (fst elem)))
      ("value " ++ fst elem ++ " is not an integer") ;;
    ret (Some converted)
  else ret (_int_value a).

(** An integral target type [T] other than [bool], by what
    [std::numeric_limits<T>] says of it. *)
Inductive int_width : Type := W8 | W16 | W32 | W64.

Record integral : Type := mk_integral {
  is_signed : bool;
  width : int_width
}.

Definition bits (T : integral) : Z :=
  match width T with
  | W8 => 8
  | W16 => 16
  | W32 => 32
  | W64 => 64
  end.

(** [std::numeric_limits<T>::lowest()] and [max()]. *)
Definition lowest (T : integral) : Z :=
  if is_signed T then - 2 ^ (bits T - 1) else 0.

Definition max (T : integral) : Z :=
  if is_signed T then 2 ^ (bits T - 1) - 1 else 2 ^ bits T - 1.

(** The usual arithmetic conversions of a comparison between a [T] and a
    [long long] (64 bits): both operands become [unsigned long long] when
    [T] is a 64-bit unsigned type, and [long long] otherwise. *)
Definition arith_conv (T : integral) (x : Z) : Z :=
  if negb (is_signed T) && (bits T =? 64) then x mod 2 ^ 64 else x.

(** [min <= value && value <= max] with [min], [max] of type [T]. *)
Definition within_limits (T : integral) (value : Z) : bool :=
  (arith_conv T (lowest T) <=? arith_conv T value)
  && (arith_conv T value <=? arith_conv T (max T)).

(** [(T) value]: the conversion of a [long long] to [T]. *)
Definition cast (T : integral) (value : Z) : Z :=
  let r := value mod 2 ^ bits T in
  if is_signed T && (2 ^ (bits T - 1) <=? r) then r - 2 ^ bits T else r.

(** [arg::_get_with_precision<T>] for an integral [T]. *)
Definition _get_with_precision (T : integral) (a : arg) : M (option Z) :=
  opt_value <- _get_long_long a ;;
  match opt_value with
  | None => ret None
  | Some value =>
      deferred_assert (_id a) (is_signed T || (0 <=? value))
        ("argument " ++ _help (_id a) ++ " must be positive") ;;
      deferred_assert (_id a) (within_limits T value)
        ("value " ++ to_string value ++ " out of range") ;;
      ret (Some (cast T value))
  end.

(** [arg::_convert<T>] for an integral [T]. *)
Definition _convert (T : integral) (a : arg) (dec_main_argc : bool) : M Z :=
  val <- _get_with_precision T a ;;
  deferred_assert (_id a) (has_value val)
    ("required argument " ++ _longer (_id a) ++ " not provided") ;;
  check dec_main_argc ;;
  ret (value_or val 0).

(** ** Runs

    After construction, the consuming program drives the matcher through
    the conversion operators of [arg]; each of them is a sequence of the
    calls below on [_::matcher]. *)
Inductive call : Type :=
| call_query (id : identifier)
| call_deferred_assert (id : identifier) (pass : bool) (msg : string)
| call_check (dec_main_argc : bool)
| call_get_with_precision (T : integral) (a : arg)
| call_convert (T : integral) (a : arg) (dec_main_argc : bool).

Definition do_call (c : call) : M unit :=
  match c with
  | call_query id => get_and_mark_as_queried id ;; ret tt
  | call_deferred_assert id pass msg => deferred_assert id pass msg ;; ret tt
  | call_check dec => check dec
  | call_get_with_precision T a => _get_with_precision T a ;; ret tt
  | call_convert T a dec => _convert T a dec ;; ret tt
  end.

Fixpoint run (cs : list call) : M unit :=
  match cs with
  | [] => ret tt
  | c :: cs' => do_call c ;; run cs'
  end.

(** The matcher the constructor hands to [parse]. *)
Definition configured (main_argc : Z) (space_assignment strict : bool) : _matcher :=
  set_config main_argc space_assignment strict _matcher_default.

(** The matcher a run starts the declarations with, when its construction
    returns. *)
Definition matcher_of_run (argv : list string) (main_argc : Z) (space_assignment : bool)
  : _matcher :=
  match init_and_run argv main_argc space_assignment with
  | Ret _ m => m
  | Exit _ _ => _matcher_default
  end.

(** The Identifier of the help flag, [identifier({"h", "help"})]. *)
Definition help_identifier : identifier :=
  {| _short_name := Some "h"; _long_name := Some "help"; _pos := None;
     _vector := false; _help := "-h|--help"; _longer := "--help" |}.

(** The ledger after a query of [id]. *)
Definition mark_as_queried (id : identifier) (m : _matcher) : _matcher :=
  if _strict m then set_queried (_queried m ++ [id]) m else m.

(** A sequence of calls of [deferred_assert], each an [(id, pass, msg)]. *)
Fixpoint assert_all (l : list (identifier * bool * string)) : M unit :=
  match l with
  | [] => ret tt
  | (id, pass, msg) :: l' => deferred_assert id pass msg ;; assert_all l'
  end.

(** The errors among them: the calls whose condition fails. *)
Definition errors_of (l : list (identifier * bool * string)) : list (identifier * string) :=
  map (fun e => (fst (fst e), snd e)) (filter (fun e => negb (snd (fst e))) l).

(** The slot after [_first::set] on each of a list of errors, in order. *)
Definition set_all (errs : list (identifier * string)) (f : _first) : _first :=
  fold_left (fun f e => _first_set (fst e) (snd e) f) errs f.

(** ** What the process writes when it terminates *)

(** The line of [_instant_assert] with [programmer_side = true]. *)
Definition programmer_error (msg : string) : list event :=
  [Cerr ("Error (programmer side): " ++ msg ++ endl)].

(** The line of [_instant_assert] with [programmer_side = false], and of
    the flush in [check]. *)
Definition user_error (msg : string) : list event :=
  [Cerr ("Error: " ++ msg ++ endl)].

Definition double_query_msg (id : identifier) : string :=
  "double query for argument " ++ _longer id.

(** What the help path leaves behind: status 0 and the help page. *)
Definition help_exit {A : Type} : outcome A := Exit 0 [PrintHelp].

(** ** The reading of the specification, for comparison with the code *)

(** The ordering of Identifiers as the specification words it: the primary
    key is the case-folded long name if present, else the short name, else
    the empty string; on equal primary keys the positional index decides,
    an absent index after every present one. *)
Definition primary_key (id : identifier) : string :=
  transform tolower
    (match _long_name id with
     | Some l => l
     | None => match _short_name id with
               | Some s => s
               | None => ""
               end
     end).

Definition index_before (p q : option Z) : bool :=
  match p, q with
  | Some x, Some y => x <? y
  | Some _, None => true
  | None, _ => false
  end.

Definition ordering_of_spec (a b : identifier) : bool :=
  match String.compare (primary_key a) (primary_key b) with
  | Lt => true
  | Eq => index_before (_pos a) (_pos b)
  | Gt => false
  end.

(** The named table holds the help flag: an entry named "h" or "help". *)
Definition has_help (named : list (string * option string)) : bool :=
  existsb (fun e => String.eqb (fst e) "h" || String.eqb (fst e) "help") named.

(** The largest [int], the type of a positional index. *)
Definition INT_MAX : Z := 2147483647.

(** A decimal integer: an optional minus sign and one or more digits; its
    value. *)
Fixpoint all_digits (s : string) : bool :=
  match s with
  | EmptyString => true
  | String c s' => isdigit c && all_digits s'
  end.

Fixpoint digits_value (s : string) (acc : Z) : Z :=
  match s with
  | EmptyString => acc
  | String c s' => digits_value s' (10 * acc + (char_code c - 48))
  end.

Definition decimal_value (s : string) : option Z :=
  match s with
  | EmptyString => None
  | String c body =>
      if Ascii.eqb c "-" then
        match body with
        | EmptyString => None
        | String _ _ => if all_digits body then Some (- digits_value body 0) else None
        end
      else if all_digits s then Some (digits_value s 0) else None
  end.

(** The message of the error the integral coercion raises for the decimal
    integer [s] of value [v] when [v] does not fit the target type [T]:
    that of [_get<long long>] when [v] does not fit [long long] either,
    else that of the first failing assertion of [_get_with_precision]. *)
Definition coercion_error (T : integral) (a : arg) (s : string) (v : Z) : string :=
  if negb ((LLONG_MIN <=? v) && (v <=? LLONG_MAX))
  then "value " ++ s ++ " out of range"
  else if negb (is_signed T) && (v <? 0)
  then "argument " ++ _help (_id a) ++ " must be positive"
  else "value " ++ to_string v ++ " out of range".

(** A character that can stand in a flag bundle: not a digit, and neither
    of the two characters the classifier gives a meaning to. *)
Definition name_char (c : ascii) : bool :=
  negb (isdigit c) && negb (Ascii.eqb c "-") && negb (Ascii.eqb c "=").

Fixpoint name_chars (s : string) : bool :=
  match s with
  | EmptyString => true
  | String c s' => name_char c && name_chars s'
  end.

(** The token of a bundle of flags, "-abc" for "abc", and the tokens of
    its flags one by one, ["-a"; "-b"; "-c"]. *)
Definition bundle (cs : string) : string := "-" ++ cs.

Fixpoint single_flags (name : string) : list string :=
  match name with
  | EmptyString => []
  | String c name' => ("-" ++ string1 c) :: single_flags name'
  end.

(** No space-assignment lookahead is in play after a token: space
    assignment is disabled, or nothing follows, or a named token follows
    (which the classifier never takes for a value). *)
Definition no_lookahead (space_assignment : bool) (post : list string) : bool :=
  negb space_assignment
  || match post with
     | [] => true
     | s :: _ => is_named_token s
     end.

(** The tokens of a long option: "--name" and "--name=value". *)
Definition long_option (name : string) : string := "--" ++ name.

Definition assignment (name value : string) : string := "--" ++ name ++ "=" ++ value.

(** A long name as it can stand in a token: two or more characters, no
    leading hyphen and no '='. *)
Definition plain_name (name : string) : bool :=
  (2 <=? size name) && (count_hyphens name =? 0) && negb (has_eq name).

(** A value that the token after "--name" can hold: no '=', and either
    no leading hyphen or one hyphen followed by a digit. *)
Definition plain_value (value : string) : bool :=
  negb (has_eq value)
  && ((count_hyphens value =? 0)
      || ((count_hyphens value =? 1) && isdigit (char_at value 1))).

(** ** Relations between the matcher before and after a call *)

(** [c] relates the matcher it is given to the one it returns by [R]. *)
Definition preserves (R : _matcher -> _matcher -> Prop) {A : Type} (c : M A) : Prop :=
  forall m a m', c m = Ret a m' -> R m m'.

(** What every member function but [parse] leaves alone: the tables, the
    configuration and the help flag; the ledger only grows and the error
    slot never empties. *)
Record frame (m m' : _matcher) : Prop := mk_frame {
  frame_executable : _executable m' = _executable m;
  frame_positional : _positional m' = _positional m;
  frame_named : _named m' = _named m;
  frame_space_assignment : _space_assignment m' = _space_assignment m;
  frame_strict : _strict m' = _strict m;
  frame_help_flag : _help_flag m' = _help_flag m;
  frame_queried : forall id, In id (_queried m) -> In id (_queried m');
  frame_deferred : _empty (_deferred_error m) = false ->
                   _empty (_deferred_error m') = false
}.

(** What [parse] leaves alone: everything but the tables and the error
    slot. *)
Record same_config (m m' : _matcher) : Prop := mk_same_config {
  config_space_assignment : _space_assignment m' = _space_assignment m;
  config_strict : _strict m' = _strict m;
  config_help_flag : _help_flag m' = _help_flag m;
  config_queried : _queried m' = _queried m;
  config_main_argc : _main_argc m' = _main_argc m
}.

(** [c] terminates the process with [_failure_code] only. *)
Definition fails_only {A : Type} (c : M A) : Prop :=
  forall m code out, c m = Exit code out -> code = _failure_code.

(** In strict mode [c] returns: user-input errors are deferred. *)
Definition returns_when_strict {A : Type} (c : M A) : Prop :=
  forall m, _strict m = true -> exists a m', c m = Ret a m' /\ _strict m' = true.

(** The local variable [to_named] of [separate_named_positional] after the
    tokens [raw], from its value [to_named] before them. *)
Fixpoint to_named_after (space_assignment : bool) (raw : list string) (to_named : bool)
  : bool :=
  match raw with
  | [] => to_named
  | s :: rest =>
      if is_named_token s then to_named_after space_assignment rest (takes_value s)
      else if space_assignment && to_named then to_named_after space_assignment rest false
      else to_named_after space_assignment rest to_named
  end.

(** The result of a computation, transformed. *)
Definition omap {A B : Type} (f : A -> B) (o : outcome A) : outcome B :=
  match o with
  | Ret a m => Ret (f a) m
  | Exit code out => Exit code out
  end.


(** ** Identifiers as the constructors leave them *)

(** What [_check_name] asks of a name. *)
Definition declarable (name : string) : bool :=
  (count_hyphens name =? 0) && (1 <=? size name)
  && ((2 <=? size name) || negb (isdigit (char_at name 0))).

(** A short name: one character, neither a hyphen nor a digit. *)
Definition short_ok (s : string) : bool :=
  (size s =? 1) && (count_hyphens s =? 0) && negb (isdigit (char_at s 0)).

(** A long name: two or more characters, no leading hyphen. *)
Definition long_ok (s : string) : bool :=
  (2 <=? size s) && (count_hyphens s =? 0).

(** The shape of an Identifier: names of the right sizes, an index only
    without names, and the vector sentinel exactly when it carries
    nothing. *)
Definition well_formed (id : identifier) : bool :=
  match _short_name id with Some s => short_ok s | None => true end
  && match _long_name id with Some l => long_ok l | None => true end
  && (if has_value (_short_name id) || has_value (_long_name id)
      then negb (has_value (_pos id)) else true)
  && Bool.eqb (_vector id)
       (negb (has_value (_short_name id) || has_value (_long_name id)
              || has_value (_pos id))).

(** ** What the final check reports *)

(** The names of [_named] that no queried Identifier contains, and the
    indices of [_positional] that none contains, in the order of the tables. *)
Definition unclaimed_named (m : _matcher) : list string :=
  filter (fun name => negb (queried_contains (_queried m) name)) (map fst (_named m)).

Definition unclaimed_positional (m : _matcher) : list nat :=
  filter (fun i => negb (queried_contains_pos (_queried m) (Z.of_nat i)))
    (seq 0 (List.length (_positional m))).

(** Each element shown after one space. *)
Fixpoint listing {A : Type} (show : A -> string) (l : list A) : string :=
  match l with
  | [] => ""
  | x :: l' => " " ++ show x ++ listing show l'
  end.

Definition plural {A : Type} (l : list A) : string :=
  if 1 <? Z.of_nat (List.length l) then "s" else "".

(** What a failed [deferred_assert] of the vector sentinel does. *)
Definition report (msg : string) (m : _matcher) : outcome unit :=
  if _strict m
  then Ret tt (set_deferred_error (_first_set identifier_default msg (_deferred_error m)) m)
  else Exit _failure_code (user_error msg).

Definition all_claimed (m : _matcher) : bool :=
  match unclaimed_named m, unclaimed_positional m with
  | [], [] => true
  | _, _ => false
  end.

(** ** The other conversions of [class arg] *)

(** [arg::_get<std::string>]. *)
Definition _get_string (a : arg) : M (option string) :=
  elem <- get_and_mark_as_queried (_id a) ;;
  deferred_assert (_id a) (negb (arg_type_eqb (snd elem) bool_t))
    ("argument " ++ _help (_id a) ++ " must have value") ;;
  if arg_type_eqb (snd elem) string_t then ret (Some (fst elem))
  else ret (_string_value a).

(** [arg::_convert<std::string>]; [_get_with_precision<std::string>] is
    [_get<std::string>], and [T()] is the empty string. *)
Definition _convert_string (a : arg) (dec_main_argc : bool) : M string :=
  val <- _get_string a ;;
  deferred_assert (_id a) (has_value val)
    ("required argument " ++ _longer (_id a) ++ " not provided") ;;
  check dec_main_argc ;;
  ret (value_or val "").

(** [arg::_convert_optional<T>] for an integral [T]. Of the member
    [_float_value], which [arg] above leaves out, the function reads
    [has_value()] only: [float_default] stands for it. *)
Definition _convert_optional (T : integral) (a : arg) (float_default dec_main_argc : bool)
  : M (option Z) :=
  _instant_assert
    (negb (has_value (_int_value a) || float_default || has_value (_string_value a)))
    "optional argument has default value" true ;;
  val <- _get_with_precision T a ;;
  check dec_main_argc ;;
  ret val.

(** [arg::operator bool]; [float_default] as above. The call of [_log]
    writes to the help logger and not to the matcher. *)
Definition operator_bool (a : arg) (float_default : bool) : M bool :=
  _instant_assert
    (negb (has_value (_int_value a)) && negb float_default
     && negb (has_value (_string_value a)))
    (_longer (_id a) ++ " flag parameter must not have default value") true ;;
  elem <- get_and_mark_as_queried (_id a) ;;
  deferred_assert (_id a) (negb (arg_type_eqb (snd elem) string_t))
    ("flag " ++ _help (_id a) ++ " must not have value") ;;
  check true ;;
  ret (arg_type_eqb (snd elem) bool_t).

(** [arg((int) i)]: the argument of the positional index [i], without
    description or default. *)
Definition arg_of_pos (i : Z) : arg :=
  {| _id := identifier_pos i; _descr := ""; _int_value := None; _string_value := None |}.

(** The loop of [arg::operator std::vector<T>] for an integral [T], over
    the indices still to visit; [ret_] is the local vector [ret]. *)
Fixpoint vector_loop (T : integral) (indices : list nat) (ret_ : list Z) : M (list Z) :=
  match indices with
  | [] => ret ret_
  | i :: rest =>
      v <- _convert T (arg_of_pos (Z.of_nat i)) false ;;
      vector_loop T rest (ret_ ++ [v])
  end.

(** [arg::operator std::vector<T>]. The loop bound [pos_args()] is read
    again at each iteration in the source; [_convert] never changes
    [_positional], so the indices are those below its size at entry. *)
Definition operator_vector (T : integral) : M (list Z) :=
  n <- gets (fun m => List.length (_positional m)) ;;
  r <- vector_loop T (seq 0 n) [] ;;
  check true ;;
  ret r.

(** ** [assign_named_values] with [back()] checked *)

(** [args.back().second = v], [None] where the vector is empty and the
    C++ expression has no defined behaviour. *)
Definition set_back_checked (v : string) (args : list (string * option string))
  : option (list (string * option string)) :=
  match rev args with
  | [] => None
  | (name, _) :: front => Some (rev front ++ [(name, Some v)])%list
  end.

(** The loop of [_matcher::assign_named_values] once more, stopping with
    [None] at the first [back()] of an empty vector. *)
Fixpoint assign_loop_checked (named : list (string * bool))
    (args : list (string * option string)) : M (option (list (string * option string))) :=
  match named with
  | [] => ret (Some args)
  | (hyphened_name, certainly_value) :: rest =>
      let hyphens := count_hyphens hyphened_name in
      let name := substr_from (Z.to_nat hyphens) hyphened_name in
      if certainly_value then
        match set_back_checked hyphened_name args with
        | Some args' => assign_loop_checked rest args'
        | None => ret None
        end
      else if hyphens =? 2 then
        deferred_assert identifier_default (2 <=? size name)
          ("single character parameter " ++ hyphened_name
           ++ " must have exactly one hyphen") ;;
        assign_loop_checked rest (args ++ [(name, None)])
      else if hyphens =? 1 then
        if isdigit (char_at name 0) then
          match set_back_checked hyphened_name args with
          | Some args' => assign_loop_checked rest args'
          | None => ret None
          end
        else assign_loop_checked rest (args ++ flags_of name)
      else if hyphens =? 0 then
        match set_back_checked name args with
        | Some args' => assign_loop_checked rest args'
        | None => ret None
        end
      else assign_loop_checked rest args
  end.

(** The named list [separate_named_positional] builds: a token that is
    not a named token only directly after one that takes a value. *)
Fixpoint values_follow_names (to_named : bool) (named : list string) : bool :=
  match named with
  | [] => true
  | s :: rest =>
      if is_named_token s then values_follow_names (takes_value s) rest
      else to_named && values_follow_names false rest
  end.

(** ** [class _help_logger] *)

Record log_elem : Type := mk_log_elem {
  descr : string;
  type : string;
  def : string;
  optional : bool
}.

(** [_help_logger::_make_printable]. *)
Definition _make_printable (id : identifier) (elem : log_elem) (verbose : bool) : string :=
  (if optional elem || String.eqb (type elem) "" then "[" else "")
  ++ (if verbose then _help id else _longer id)
  ++ (if negb (String.eqb (type elem) "") && negb (negb verbose && has_value (_pos id))
      then "=<" ++ type elem ++ ">" else "")
  ++ (if optional elem || String.eqb (type elem) "" then "]" else "").

(** [std::string(n, ' ')]. *)
Fixpoint spaces (n : nat) : string :=
  match n with
  | O => ""
  | S n' => String " " (spaces n')
  end.

(** The [size_t] expression [2 + margin - printable.size()]. *)
Definition padding (margin : Z) (printable : string) : Z :=
  (2 + margin - size printable) mod 2 ^ 64.

(** The line [_add_to_help] appends to [options], up to the description. *)
Definition option_column (id : identifier) (elem : log_elem) (margin : Z) : string :=
  "      " ++ _make_printable id elem true
  ++ spaces (Z.to_nat (padding margin (_make_printable id elem true))).

(** [_help_logger::_add_to_help], on the pair [(usage, options)]. *)
Definition _add_to_help (uo : string * string) (id : identifier) (elem : log_elem)
    (margin : Z) : string * string :=
  let usage := fst uo ++ " " ++ _make_printable id elem false in
  let options := snd uo ++ option_column id elem margin ++ descr elem in
  let options :=
    if negb (String.eqb (def elem) "")
    then options ++ " [default: " ++ def elem ++ "]" else options in
  (usage, options ++ endl).

(** The comparator [print_help] hands to [std::sort]; [false < true] on
    [optional]. *)
Definition help_lt (a b : identifier * log_elem) : bool :=
  if negb (Bool.eqb (optional (snd a)) (optional (snd b)))
  then negb (optional (snd a)) && optional (snd b)
  else identifier_lt (fst a) (fst b).

(** The first loop of [print_help]: the widest verbose form. *)
Definition margin_of (printed : list (identifier * log_elem)) : Z :=
  fold_left (fun margin it => Z.max margin (size (_make_printable (fst it) (snd it) true)))
    printed 0.

(** [_help_logger::log], on the vector [_params]. *)
Definition log (_params : list (identifier * log_elem)) (name : identifier)
    (_elem : log_elem) : list (identifier * log_elem) :=
  let elem :=
    {| descr := descr _elem; type := type _elem; def := def _elem;
       optional := optional _elem || negb (String.eqb (def _elem) "") |} in
  (_params ++ [(name, elem)])%list.

(** ** Without strict mode *)

(** What a call leaves of a matcher that is not strict: everything but the
    countdown. *)
Definition idle (m m' : _matcher) : Prop :=
  _strict m = false -> m' = set_main_argc (_main_argc m') m.

(** ** The initializer-list constructor of [arg] *)

(** [struct arg::convertible]: an [int] or a [const char*]. *)
Inductive convertible : Type :=
| convertible_int (value : Z)
| convertible_chars (value : string).

(** [fire::optional<T>::value]. *)
Definition optional_value {T : Type} (o : option T) : M T :=
  match o with
  | Some v => ret v
  | None => exit _failure_code
              [Cerr ("Error (programmer side): accessing unassigned optional" ++ endl)]
  end.

(** [arg::arg(std::initializer_list<convertible> init)]. *)
Definition arg_init (init : list convertible) : M arg :=
  _instant_assert (Z.of_nat (List.length init) =? 2)
    "exactly two arguments must be given as initializer list arguments" true ;;
  let int_value :=
    fold_left (fun acc val =>
                 match val with
                 | convertible_int v => Some v
                 | convertible_chars _ => acc
                 end) init None in
  let char_values :=
    flat_map (fun val =>
                match val with
                | convertible_int _ => []
                | convertible_chars s => [s]
                end) init in
  _instant_assert (1 <=? Z.of_nat (List.length char_values))
    "both initializer list arguments can't be ints" true ;;
  id2 <- match char_values with
         | [c0; c1] => identifier_names c0 c1
         | _ => ret identifier_default
         end ;;
  id1 <- match char_values with
         | [c0] => pos <- optional_value int_value ;; identifier_pos_help pos c0
         | _ => ret id2
         end ;;
  ret {| _id := id1; _descr := ""; _int_value := None; _string_value := None |}.

(** * Properties *)

(** ** The monad *)

Lemma bind_ret {A B : Type} (c : M A) (k : A -> M B) m a m' :
  c m = Ret a m' -> bind c k m = k a m'.
Proof. intros H. unfold bind. rewrite H. reflexivity. Qed.

Lemma bind_exit {A B : Type} (c : M A) (k : A -> M B) m code out :
  c m = Exit code out -> bind c k m = Exit code out.
Proof. intros H. unfold bind. rewrite H. reflexivity. Qed.

Lemma bind_inv {A B : Type} (c : M A) (k : A -> M B) m b m'' :
  bind c k m = Ret b m'' -> exists a m', c m = Ret a m' /\ k a m' = Ret b m''.
Proof.
  unfold bind. destruct (c m) as [a m'|code out]; intros H.
  - exists a, m'. split; [reflexivity | exact H].
  - discriminate H.
Qed.

Lemma bind_exit_inv {A B : Type} (c : M A) (k : A -> M B) m code out :
  bind c k m = Exit code out ->
  c m = Exit code out \/ exists a m', c m = Ret a m' /\ k a m' = Exit code out.
Proof.
  unfold bind. destruct (c m) as [a m'|code' out']; intros H.
  - right. exists a, m'. split; [reflexivity | exact H].
  - left. inversion H. reflexivity.
Qed.

(** ** What a call leaves alone *)

Section Preservation.
Variable R : _matcher -> _matcher -> Prop.
Hypothesis R_refl : forall m, R m m.
Hypothesis R_trans : forall m1 m2 m3, R m1 m2 -> R m2 m3 -> R m1 m3.
Hypothesis R_deferred :
  forall m id msg, R m (set_deferred_error (_first_set id msg (_deferred_error m)) m).

Lemma preserves_ret {A : Type} (a : A) : preserves R (ret a).
Proof. intros m a' m' H. inversion H. apply R_refl. Qed.

Lemma preserves_gets {A : Type} (f : _matcher -> A) : preserves R (gets f).
Proof. intros m a' m' H. inversion H. apply R_refl. Qed.

Lemma preserves_exit {A : Type} code out : preserves R (@exit A code out).
Proof. intros m a m' H. discriminate H. Qed.

Lemma preserves_bind {A B : Type} (c : M A) (k : A -> M B) :
  preserves R c -> (forall a, preserves R (k a)) -> preserves R (bind c k).
Proof.
  intros Hc Hk m b m'' H.
  apply bind_inv in H. destruct H as (a & m' & H1 & H2).
  eapply R_trans; [eapply Hc | eapply Hk]; eassumption.
Qed.

Lemma preserves_modify (f : _matcher -> _matcher) :
  (forall m, R m (f m)) -> preserves R (modify f).
Proof. intros Hf m a m' H. inversion H. apply Hf. Qed.

Lemma preserves_instant_assert pass msg ps : preserves R (_instant_assert pass msg ps).
Proof.
  unfold _instant_assert. destruct pass; [apply preserves_ret | apply preserves_exit].
Qed.

Lemma preserves_deferred_assert id pass msg : preserves R (deferred_assert id pass msg).
Proof.
  unfold deferred_assert.
  apply preserves_bind; [apply preserves_gets|]. intros strict.
  destruct (negb strict).
  - apply preserves_bind; [apply preserves_instant_assert|]. intros _.
    apply preserves_ret.
  - destruct (negb pass); [|apply preserves_ret].
    apply preserves_bind; [|intros _; apply preserves_ret].
    apply preserves_modify. intros m. apply R_deferred.
Qed.
End Preservation.

Lemma first_set_full id msg f : _empty (_first_set id msg f) = false.
Proof.
  unfold _first_set. destruct (_empty f) eqn:He; simpl; [reflexivity|].
  destruct (identifier_lt id (_order f)); simpl; [reflexivity | exact He].
Qed.

Lemma frame_refl m : frame m m.
Proof. constructor; auto. Qed.

Lemma frame_trans m1 m2 m3 : frame m1 m2 -> frame m2 m3 -> frame m1 m3.
Proof. intros [] []. constructor; try congruence; auto. Qed.

Lemma frame_deferred_error m id msg :
  frame m (set_deferred_error (_first_set id msg (_deferred_error m)) m).
Proof. constructor; simpl; auto. intros _. apply first_set_full. Qed.

Lemma same_config_refl m : same_config m m.
Proof. constructor; reflexivity. Qed.

Lemma same_config_trans m1 m2 m3 :
  same_config m1 m2 -> same_config m2 m3 -> same_config m1 m3.
Proof. intros [] []. constructor; congruence. Qed.

Lemma same_config_deferred_error m id msg :
  same_config m (set_deferred_error (_first_set id msg (_deferred_error m)) m).
Proof. constructor; reflexivity. Qed.

(** One step of a proof that a computation is framed: the monad's
    combinators and the two assertions, then a case split of the code. *)
Ltac frame_step :=
  lazymatch goal with
  | |- preserves frame (bind _ _) => apply (preserves_bind frame frame_trans); [|intros ?]
  | |- preserves frame (ret _) => apply (preserves_ret frame frame_refl)
  | |- preserves frame (gets _) => apply (preserves_gets frame frame_refl)
  | |- preserves frame (exit _ _) => apply preserves_exit
  | |- preserves frame (_instant_assert _ _ _) =>
      apply (preserves_instant_assert frame frame_refl)
  | |- preserves frame (deferred_assert _ _ _) =>
      apply (preserves_deferred_assert frame frame_refl frame_trans frame_deferred_error)
  | |- preserves frame (modify _) =>
      apply preserves_modify; intros ?; constructor; simpl; auto
  | |- preserves frame (if ?b then _ else _) => destruct b
  | |- preserves frame (match ?x with _ => _ end) => destruct x
  | |- preserves frame (let '(_, _) := ?x in _) => destruct x
  end.

Ltac config_step :=
  lazymatch goal with
  | |- preserves same_config (bind _ _) =>
      apply (preserves_bind same_config same_config_trans); [|intros ?]
  | |- preserves same_config (ret _) => apply (preserves_ret same_config same_config_refl)
  | |- preserves same_config (gets _) => apply (preserves_gets same_config same_config_refl)
  | |- preserves same_config (exit _ _) => apply preserves_exit
  | |- preserves same_config (_instant_assert _ _ _) =>
      apply (preserves_instant_assert same_config same_config_refl)
  | |- preserves same_config (deferred_assert _ _ _) =>
      apply (preserves_deferred_assert same_config same_config_refl same_config_trans
               same_config_deferred_error)
  | |- preserves same_config (modify _) =>
      apply preserves_modify; intros ?; constructor; reflexivity
  | |- preserves same_config (if ?b then _ else _) => destruct b
  | |- preserves same_config (match ?x with _ => _ end) => destruct x
  end.

Lemma frame_assert_no_overlap q id : preserves frame (assert_no_overlap q id).
Proof. induction q as [|it q IH]; simpl; repeat frame_step. exact IH. Qed.

Lemma frame_get_and_mark_as_queried id : preserves frame (get_and_mark_as_queried id).
Proof.
  unfold get_and_mark_as_queried.
  repeat first [apply frame_assert_no_overlap | frame_step].
  intros id' Hin. apply in_or_app. left. exact Hin.
Qed.

Lemma frame_check_named : preserves frame check_named.
Proof. unfold check_named. repeat frame_step. Qed.

Lemma frame_check_positional : preserves frame check_positional.
Proof. unfold check_positional. repeat frame_step. Qed.

Lemma frame_flush : preserves frame flush.
Proof.
  unfold flush.
  repeat first [apply frame_check_named | apply frame_check_positional | frame_step].
Qed.

Lemma frame_check dec : preserves frame (check dec).
Proof. unfold check. repeat first [apply frame_flush | frame_step]. Qed.

Lemma frame_get_long_long a : preserves frame (_get_long_long a).
Proof.
  unfold _get_long_long.
  repeat first [apply frame_get_and_mark_as_queried | frame_step].
Qed.

Lemma frame_get_with_precision T a : preserves frame (_get_with_precision T a).
Proof.
  unfold _get_with_precision. repeat first [apply frame_get_long_long | frame_step].
Qed.

Lemma frame_convert T a dec : preserves frame (_convert T a dec).
Proof.
  unfold _convert.
  repeat first [apply frame_get_with_precision | apply frame_check | frame_step].
Qed.

Lemma frame_do_call c : preserves frame (do_call c).
Proof.
  destruct c; simpl;
    repeat first [apply frame_get_and_mark_as_queried | apply frame_check
                 | apply frame_get_with_precision | apply frame_convert | frame_step].
Qed.

Lemma frame_run cs : preserves frame (run cs).
Proof.
  induction cs as [|c cs IH]; simpl; repeat first [apply frame_do_call | frame_step].
  exact IH.
Qed.

(** ** Queries *)

Lemma assert_no_overlap_spec q id m :
  assert_no_overlap q id m =
  if existsb (fun it => overlaps it id) q
  then Exit _failure_code (programmer_error (double_query_msg id))
  else Ret tt m.
Proof.
  induction q as [|it q IH]; simpl; [reflexivity|].
  unfold bind. destruct (overlaps it id); simpl; [reflexivity|].
  exact IH.
Qed.

Lemma get_and_mark_as_queried_spec id m :
  get_and_mark_as_queried id m =
  if _space_assignment m && has_value (_pos id)
  then Exit _failure_code (programmer_error space_assignment_msg)
  else if existsb (fun it => overlaps it id) (_queried m)
  then Exit _failure_code (programmer_error (double_query_msg id))
  else Ret (resolve (_named m) (_positional m) id) (mark_as_queried id m).
Proof.
  unfold get_and_mark_as_queried, bind, gets, mark_as_queried.
  destruct (_space_assignment m); simpl.
  - destruct (_pos id); simpl; [reflexivity|].
    rewrite assert_no_overlap_spec.
    destruct (existsb _ _); [reflexivity|].
    destruct (_strict m); reflexivity.
  - unfold ret. rewrite assert_no_overlap_spec.
    destruct (existsb _ _); [reflexivity|].
    destruct (_strict m); reflexivity.
Qed.

Lemma overlaps_sym a b : overlaps a b = overlaps b a.
Proof.
  unfold overlaps. f_equal; [f_equal|].
  - destruct (_long_name a), (_long_name b); auto using String.eqb_sym.
  - destruct (_short_name a), (_short_name b); auto using String.eqb_sym.
  - destruct (_pos a), (_pos b); auto using Z.eqb_sym.
Qed.

(** C10. Whatever the tables, the ledger and the strict flag are, a query
    of an Identifier that carries a positional index terminates the process
    at once when space assignment is enabled: status [_failure_code], one
    programmer-side line on [std::cerr], nothing resolved. *)
Theorem positional_query_under_space_assignment_is_fatal
    (m : _matcher) (id : identifier) (i : Z) :
  _space_assignment m = true ->
  _pos id = Some i ->
  get_and_mark_as_queried id m
  = Exit _failure_code (programmer_error space_assignment_msg).
Proof.
  intros Hsa Hpos. rewrite get_and_mark_as_queried_spec, Hsa, Hpos. reflexivity.
Qed.

Lemma positional_query_under_space_assignment_is_fatal_witness :
  exists m,
    init_and_run ["prog"; "--name"; "value"] 1 true = Ret tt m
    /\ _space_assignment m = true
    /\ _pos (identifier_pos 0) = Some 0
    /\ get_and_mark_as_queried (identifier_pos 0) m
       = Exit _failure_code (programmer_error space_assignment_msg).
Proof.
  eexists. split; [vm_compute; reflexivity|].
  split; [reflexivity|]. split; [reflexivity|].
  apply (positional_query_under_space_assignment_is_fatal _ (identifier_pos 0) 0);
    reflexivity.
Defined.

(** Identifiers built by the positional constructors carry no name, so no
    entry of the named table matches them. *)
Lemma lookup_named_nameless named id :
  _short_name id = None -> _long_name id = None -> lookup_named named id = None.
Proof.
  intros Hs Hl. induction named as [|[name result] named IH]; simpl; [reflexivity|].
  unfold contains. rewrite Hs, Hl. simpl. exact IH.
Qed.

(** The constructors that take a position build Identifiers without names. *)
Lemma positional_identifiers_are_nameless :
  (forall pos, _short_name (identifier_pos pos) = None
               /\ _long_name (identifier_pos pos) = None
               /\ _pos (identifier_pos pos) = Some pos)
  /\ (forall pos help m id m',
        identifier_pos_help pos help m = Ret id m' ->
        _short_name id = None /\ _long_name id = None /\ _pos id = Some pos).
Proof.
  split; [intros; repeat split|].
  intros pos help m id m' H. unfold identifier_pos_help in H.
  apply bind_inv in H. destruct H as (u & m1 & _ & H).
  inversion H. repeat split.
Qed.

(** C4, as the code has it. With space assignment disabled and no
    overlapping Identifier queried before, a query of an Identifier that
    carries only a positional index [i] returns [("", none_t)] when the
    positional sequence has at most [i] elements; it only records the
    Identifier in the ledger (in strict mode). *)
Theorem positional_past_the_end_is_absent (m : _matcher) (id : identifier) (i : Z) :
  _space_assignment m = false ->
  existsb (fun it => overlaps it id) (_queried m) = false ->
  _pos id = Some i ->
  _short_name id = None ->
  _long_name id = None ->
  Z.of_nat (List.length (_positional m)) <= i <= INT_MAX ->
  get_and_mark_as_queried id m = Ret ("", none_t) (mark_as_queried id m).
Proof.
  intros Hsa Hq Hpos Hs Hl Hi.
  rewrite get_and_mark_as_queried_spec, Hsa, Hq. simpl.
  unfold resolve. rewrite (lookup_named_nameless _ _ Hs Hl), Hpos.
  unfold size_t_of_int. rewrite Z.mod_small by (unfold INT_MAX in Hi; lia).
  destruct (Z.leb_spec (Z.of_nat (List.length (_positional m))) i); [reflexivity|lia].
Qed.

Lemma positional_past_the_end_is_absent_witness :
  exists m,
    init_and_run ["prog"; "a"; "b"] 1 false = Ret tt m
    /\ _positional m = ["a"; "b"]
    /\ get_and_mark_as_queried (identifier_pos 5) m
       = Ret ("", none_t) (mark_as_queried (identifier_pos 5) m).
Proof.
  eexists. split; [vm_compute; reflexivity|]. split; [reflexivity|].
  apply (positional_past_the_end_is_absent _ (identifier_pos 5) 5);
    try reflexivity.
  simpl. unfold INT_MAX. lia.
Defined.

(** C4 as stated fails: under space assignment the same query is fatal,
    although the positional sequence (empty) has at most 5 elements. *)
Lemma positional_past_the_end_counterexample :
  exists m,
    init_and_run ["prog"] 1 true = Ret tt m
    /\ _pos (identifier_pos 5) = Some 5
    /\ (List.length (_positional m) <= 5)%nat
    /\ get_and_mark_as_queried (identifier_pos 5) m
       = Exit _failure_code (programmer_error space_assignment_msg).
Proof.
  eexists. split; [vm_compute; reflexivity|].
  split; [reflexivity|]. split; [simpl; lia|]. reflexivity.
Qed.

Lemma queried_after_query id m r m' :
  _strict m = true ->
  get_and_mark_as_queried id m = Ret r m' ->
  In id (_queried m').
Proof.
  intros Hstrict H. rewrite get_and_mark_as_queried_spec in H.
  destruct (_ && _); [discriminate|].
  destruct (existsb _ _); [discriminate|].
  inversion H. unfold mark_as_queried. rewrite Hstrict. simpl.
  apply in_or_app. right. left. reflexivity.
Qed.

(** C3, as the code has it. In strict mode, once a query of [id1] has
    returned, whatever calls follow, a query of an Identifier [id2] that
    overlaps [id1] terminates the process at once with status
    [_failure_code] and a programmer-side line: the double-query message,
    or that of the space-assignment guard when [id2] is positional and
    space assignment is enabled. *)
Theorem overlapping_query_is_fatal_in_strict_mode
    (m : _matcher) (id1 id2 : identifier) (r1 : string * arg_type)
    (m1 : _matcher) (cs : list call) (m2 : _matcher) :
  _strict m = true ->
  get_and_mark_as_queried id1 m = Ret r1 m1 ->
  run cs m1 = Ret tt m2 ->
  overlaps id1 id2 = true ->
  get_and_mark_as_queried id2 m2
  = Exit _failure_code
      (programmer_error
         (if _space_assignment m2 && has_value (_pos id2)
          then space_assignment_msg else double_query_msg id2)).
Proof.
  intros Hstrict Hq1 Hrun Hov.
  pose proof (queried_after_query _ _ _ _ Hstrict Hq1) as Hin.
  apply frame_run in Hrun. apply (frame_queried _ _ Hrun) in Hin.
  rewrite get_and_mark_as_queried_spec.
  destruct (_ && _); [reflexivity|].
  assert (Hex : existsb (fun it => overlaps it id2) (_queried m2) = true).
  { apply existsb_exists. exists id1. split; assumption. }
  rewrite Hex. reflexivity.
Qed.

Lemma overlapping_query_is_fatal_in_strict_mode_witness :
  let m := matcher_of_run ["prog"; "--name"; "value"] 2 true in
  let id1 := mk_identifier None (Some "name") None false "--name" "--name" in
  let id2 := mk_identifier (Some "n") (Some "name") None false "-n|--name" "--name" in
  exists m1 m2,
    init_and_run ["prog"; "--name"; "value"] 2 true = Ret tt m
    /\ _strict m = true
    /\ get_and_mark_as_queried id1 m = Ret ("value", string_t) m1
    /\ run [call_check true] m1 = Ret tt m2
    /\ overlaps id1 id2 = true
    /\ get_and_mark_as_queried id2 m2
       = Exit _failure_code (programmer_error "double query for argument --name").
Proof.
  intros m id1 id2. eexists. eexists.
  split; [vm_compute; reflexivity|].
  split; [reflexivity|].
  split; [vm_compute; reflexivity|].
  split; [vm_compute; reflexivity|].
  split; [reflexivity|].
  eapply (overlapping_query_is_fatal_in_strict_mode m id1 id2 _ _ [call_check true]);
    vm_compute; reflexivity.
Defined.

(** C3 as stated fails without strict mode: the ledger is filled only
    under [_strict], so a matcher built with [strict = false] answers the
    same Identifier twice. *)
Lemma overlapping_query_counterexample :
  let id := mk_identifier None (Some "name") None false "--name" "--name" in
  exists m,
    _matcher_init ["prog"; "--name=value"] 2 true false _matcher_default = Ret tt m
    /\ identifier_name "name" m = Ret id m
    /\ overlaps id id = true
    /\ get_and_mark_as_queried id m = Ret ("value", string_t) m
    /\ (get_and_mark_as_queried id ;; get_and_mark_as_queried id) m
       = Ret ("value", string_t) m.
Proof.
  eexists. split; [vm_compute; reflexivity|].
  repeat split; vm_compute; reflexivity.
Qed.

(** ** The ordering of Identifiers *)

Lemma ascii_compare_refl c : Ascii.compare c c = Eq.
Proof. unfold Ascii.compare. apply N.compare_refl. Qed.

Lemma ascii_compare_lt_trans a b c :
  Ascii.compare a b = Lt -> Ascii.compare b c = Lt -> Ascii.compare a c = Lt.
Proof.
  unfold Ascii.compare. rewrite !N.compare_lt_iff. apply N.lt_trans.
Qed.

Lemma string_compare_refl s : String.compare s s = Eq.
Proof.
  induction s as [|c s IH]; simpl; [reflexivity|].
  rewrite ascii_compare_refl. exact IH.
Qed.

Lemma string_compare_eq a b : String.compare a b = Eq <-> a = b.
Proof.
  split; [apply String.compare_eq_iff|]. intros ->. apply string_compare_refl.
Qed.

Lemma string_compare_lt_trans a b c :
  String.compare a b = Lt -> String.compare b c = Lt -> String.compare a c = Lt.
Proof.
  revert b c. induction a as [|x a IH]; intros [|y b] [|z c]; simpl;
    try discriminate; try reflexivity.
  destruct (Ascii.compare x y) eqn:Hxy; try discriminate;
    destruct (Ascii.compare y z) eqn:Hyz; try discriminate; intros H1 H2.
  - apply Ascii.compare_eq_iff in Hxy, Hyz. subst.
    rewrite ascii_compare_refl. eapply IH; eassumption.
  - apply Ascii.compare_eq_iff in Hxy. subst. rewrite Hyz. reflexivity.
  - apply Ascii.compare_eq_iff in Hyz. subst. rewrite Hxy. reflexivity.
  - rewrite (ascii_compare_lt_trans _ _ _ Hxy Hyz). reflexivity.
Qed.

Lemma string_compare_gt a b : String.compare a b = Gt -> String.compare b a = Lt.
Proof.
  rewrite String.compare_antisym. destruct (String.compare b a); simpl; congruence.
Qed.

Lemma string_eqb_compare a b :
  String.eqb a b = match String.compare a b with Eq => true | _ => false end.
Proof.
  destruct (String.eqb_spec a b) as [->|Hne].
  - rewrite string_compare_refl. reflexivity.
  - destruct (String.compare a b) eqn:H; try reflexivity.
    apply String.compare_eq_iff in H. contradiction.
Qed.

(** [identifier::operator<] is the lexicographic order on the pair
    (case-folded name, index or 1000000). *)
Lemma identifier_lt_keys a b :
  identifier_lt a b =
  match String.compare (primary_key a) (primary_key b) with
  | Lt => true
  | Eq => value_or (_pos a) 1000000 <? value_or (_pos b) 1000000
  | Gt => false
  end.
Proof.
  unfold identifier_lt, string_lt, String.ltb, primary_key, value_or.
  rewrite string_eqb_compare.
  destruct (String.compare _ _); reflexivity.
Qed.

Lemma identifier_lt_irrefl a : identifier_lt a a = false.
Proof.
  rewrite identifier_lt_keys, string_compare_refl. apply Z.ltb_irrefl.
Qed.

Lemma identifier_lt_trans a b c :
  identifier_lt a b = true -> identifier_lt b c = true -> identifier_lt a c = true.
Proof.
  rewrite !identifier_lt_keys.
  destruct (String.compare (primary_key a) (primary_key b)) eqn:Hab; try discriminate;
    destruct (String.compare (primary_key b) (primary_key c)) eqn:Hbc; try discriminate;
    intros H1 H2.
  - apply String.compare_eq_iff in Hab, Hbc. rewrite Hab, Hbc, string_compare_refl.
    apply Z.ltb_lt in H1, H2. apply Z.ltb_lt. lia.
  - apply String.compare_eq_iff in Hab. rewrite Hab, Hbc. reflexivity.
  - apply String.compare_eq_iff in Hbc. rewrite <- Hbc, Hab. reflexivity.
  - rewrite (string_compare_lt_trans _ _ _ Hab Hbc). reflexivity.
Qed.

(** "Not smaller" is transitive: the ordering is a strict weak order. *)
Lemma identifier_ge_trans a b c :
  identifier_lt a b = false -> identifier_lt b c = false -> identifier_lt a c = false.
Proof.
  rewrite !identifier_lt_keys.
  destruct (String.compare (primary_key a) (primary_key b)) eqn:Hab; try discriminate;
    destruct (String.compare (primary_key b) (primary_key c)) eqn:Hbc; try discriminate;
    intros H1 H2.
  - apply String.compare_eq_iff in Hab, Hbc. rewrite Hab, Hbc, string_compare_refl.
    apply Z.ltb_ge in H1, H2. apply Z.ltb_ge. lia.
  - apply String.compare_eq_iff in Hab. rewrite Hab, Hbc. reflexivity.
  - apply String.compare_eq_iff in Hbc. rewrite <- Hbc, Hab. reflexivity.
  - apply string_compare_gt in Hab, Hbc.
    pose proof (string_compare_lt_trans _ _ _ Hbc Hab) as Hca.
    rewrite String.compare_antisym, Hca. reflexivity.
Qed.

(** C6, as the code has it. [identifier::operator<] is the ordering the
    specification describes (case-folded long name if present, else short
    name, else the empty string; then the positional index, an absent
    index last) on all Identifiers whose index, when present, is below
    1000000, the number the code compares an absent index as. *)
Theorem identifier_lt_is_ordering_of_spec (a b : identifier) :
  (forall i, _pos a = Some i -> i < 1000000) ->
  (forall i, _pos b = Some i -> i < 1000000) ->
  identifier_lt a b = ordering_of_spec a b.
Proof.
  intros Ha Hb. rewrite identifier_lt_keys. unfold ordering_of_spec.
  destruct (String.compare _ _); try reflexivity.
  unfold index_before, value_or.
  destruct (_pos a) as [i|], (_pos b) as [j|]; try reflexivity.
  - apply Z.ltb_lt. apply Ha. reflexivity.
  - apply Z.ltb_ge. specialize (Hb j eq_refl). lia.
Qed.

Lemma identifier_lt_is_ordering_of_spec_witness :
  let a := mk_identifier None (Some "Help") None false "--Help" "--Help" in
  let b := mk_identifier (Some "h") (Some "help") (Some 3) false "-h|--help" "--help" in
  identifier_lt a b = ordering_of_spec a b
  /\ identifier_lt b a = true /\ identifier_lt a b = false.
Proof.
  intros a b. split.
  - apply (identifier_lt_is_ordering_of_spec a b).
    + intros i H. discriminate H.
    + intros i H. inversion H. lia.
  - split; reflexivity.
Defined.

(** C6 as stated fails at an index above 1000000: the vector sentinel (no
    index) sorts before the positional Identifier 2000000, not after it. *)
Lemma identifier_lt_counterexample :
  let absent := identifier_default in
  let present := identifier_pos 2000000 in
  primary_key absent = primary_key present
  /\ _pos absent = None /\ _pos present = Some 2000000
  /\ ordering_of_spec present absent = true
  /\ identifier_lt present absent = false
  /\ identifier_lt absent present = true.
Proof. repeat split; reflexivity. Qed.

(** ** The deferred error slot *)

(** A later error that is not smaller leaves the slot as it is. *)
Lemma first_set_not_smaller id msg f :
  _empty f = false -> identifier_lt id (_order f) = false -> _first_set id msg f = f.
Proof. intros He Hlt. unfold _first_set. rewrite He, Hlt. reflexivity. Qed.

Lemma first_set_twice id msg1 msg2 f :
  _first_set id msg2 (_first_set id msg1 f) = _first_set id msg1 f.
Proof.
  apply first_set_not_smaller; [apply first_set_full|].
  unfold _first_set. destruct (_empty f) eqn:He; simpl.
  - apply identifier_lt_irrefl.
  - destruct (identifier_lt id (_order f)) eqn:Hlt; simpl;
      [apply identifier_lt_irrefl | exact Hlt].
Qed.

Lemma set_all_full errs f : _empty f = false -> _empty (set_all errs f) = false.
Proof.
  revert f. induction errs as [|e errs IH]; intros f He; simpl; [exact He|].
  apply IH. apply first_set_full.
Qed.

(** From a slot that holds an error: the slot after more errors holds the
    old one or one of the new ones, and none of them is smaller than what
    it holds. *)
Lemma set_all_from_full errs f :
  _empty f = false ->
  (set_all errs f = f \/ In (_order (set_all errs f), _value (set_all errs f)) errs)
  /\ identifier_lt (_order f) (_order (set_all errs f)) = false
  /\ forall e, In e errs -> identifier_lt (fst e) (_order (set_all errs f)) = false.
Proof.
  revert f. induction errs as [|e errs IH]; intros f He; simpl.
  - split; [left; reflexivity|]. split; [apply identifier_lt_irrefl|]. intros e [].
  - destruct (IH (_first_set (fst e) (snd e) f) (first_set_full _ _ _))
      as (Hin & Hold & Hall).
    unfold _first_set in *. rewrite He in *. simpl in *.
    destruct (identifier_lt (fst e) (_order f)) eqn:Hlt; simpl in *.
    + split; [|split].
      * right. destruct Hin as [-> | Hin]; [left; destruct e; reflexivity | right; exact Hin].
      * destruct (identifier_lt (_order f) _) eqn:Hf; [|reflexivity].
        rewrite (identifier_lt_trans _ _ _ Hlt Hf) in Hold. discriminate.
      * intros e' [<- | Hin']; [exact Hold | apply Hall; exact Hin'].
    + split; [|split].
      * destruct Hin as [-> | Hin]; [left; reflexivity | right; right; exact Hin].
      * exact Hold.
      * intros e' [<- | Hin']; [|apply Hall; exact Hin'].
        eapply identifier_ge_trans; eassumption.
Qed.

(** From the empty slot of a fresh run. *)
Lemma set_all_from_empty errs f :
  _empty f = true -> errs <> [] ->
  _empty (set_all errs f) = false
  /\ In (_order (set_all errs f), _value (set_all errs f)) errs
  /\ forall e, In e errs -> identifier_lt (fst e) (_order (set_all errs f)) = false.
Proof.
  intros He Hne. destruct errs as [|e errs]; [contradiction|]. simpl.
  assert (H1 : _first_set (fst e) (snd e) f
               = {| _order := fst e; _value := snd e; _empty := false |}).
  { unfold _first_set. rewrite He. reflexivity. }
  rewrite H1.
  destruct (set_all_from_full errs {| _order := fst e; _value := snd e; _empty := false |}
              eq_refl) as (Hin & Hold & Hall).
  split; [apply set_all_full; reflexivity|]. split.
  - destruct Hin as [-> | Hin]; [left; destruct e; reflexivity | right; exact Hin].
  - intros e' [<- | Hin']; [exact Hold | apply Hall; exact Hin'].
Qed.

Lemma set_deferred_error_same m : set_deferred_error (_deferred_error m) m = m.
Proof. destruct m; reflexivity. Qed.

Lemma deferred_assert_strict id pass msg m :
  _strict m = true ->
  deferred_assert id pass msg m =
  Ret pass (if pass then m
            else set_deferred_error (_first_set id msg (_deferred_error m)) m).
Proof.
  intros Hs. unfold deferred_assert, bind, gets. rewrite Hs. simpl.
  destruct pass; reflexivity.
Qed.

Lemma deferred_assert_not_strict id pass msg m :
  _strict m = false ->
  deferred_assert id pass msg m =
  if pass then Ret true m
  else Exit _failure_code (if String.eqb msg "" then [] else user_error msg).
Proof.
  intros Hs. unfold deferred_assert, bind, gets. rewrite Hs. simpl.
  destruct pass; reflexivity.
Qed.

Lemma assert_all_strict l m :
  _strict m = true ->
  assert_all l m
  = Ret tt (set_deferred_error (set_all (errors_of l) (_deferred_error m)) m).
Proof.
  revert m. induction l as [|[[id pass] msg] l IH]; intros m Hs; simpl.
  - unfold ret. rewrite set_deferred_error_same. reflexivity.
  - unfold bind. rewrite (deferred_assert_strict _ _ _ _ Hs).
    destruct pass.
    + rewrite (IH m Hs). reflexivity.
    + rewrite IH by exact Hs. unfold errors_of. simpl. destruct m; reflexivity.
Qed.

(** C5. In a strict run that starts with the slot empty, after any
    sequence of calls of [deferred_assert] the slot is empty when none
    failed, and otherwise holds one (Identifier, message) pair, that of one
    of the failed calls, such that no failed call has a smaller
    Identifier; a further error whose Identifier is not smaller than the
    one held leaves the matcher unchanged. *)
Theorem deferred_error_slot_holds_the_smallest
    (m : _matcher) (l : list (identifier * bool * string)) :
  _strict m = true ->
  _empty (_deferred_error m) = true ->
  exists m',
    assert_all l m = Ret tt m'
    /\ (errors_of l = [] -> _deferred_error m' = _deferred_error m)
    /\ (errors_of l <> [] ->
        _empty (_deferred_error m') = false
        /\ In (_order (_deferred_error m'), _value (_deferred_error m')) (errors_of l)
        /\ forall id msg, In (id, msg) (errors_of l) ->
             identifier_lt id (_order (_deferred_error m')) = false)
    /\ (forall id msg,
          _empty (_deferred_error m') = false ->
          identifier_lt id (_order (_deferred_error m')) = false ->
          deferred_assert id false msg m' = Ret false m').
Proof.
  intros Hs He. eexists. split; [apply assert_all_strict; exact Hs|]. simpl.
  split; [|split].
  - intros ->. reflexivity.
  - intros Hne.
    destruct (set_all_from_empty _ _ He Hne) as (H1 & H2 & H3).
    split; [exact H1|]. split; [exact H2|].
    intros id msg Hin. apply (H3 (id, msg) Hin).
  - intros id msg Hfull Hge.
    rewrite deferred_assert_strict by exact Hs. simpl.
    rewrite first_set_not_smaller by assumption.
    destruct m; reflexivity.
Qed.

Lemma deferred_error_slot_holds_the_smallest_witness :
  let m := matcher_of_run ["prog"] 2 false in
  let zeta := mk_identifier None (Some "zeta") None false "--zeta" "--zeta" in
  let alpha := mk_identifier None (Some "Alpha") None false "--Alpha" "--Alpha" in
  let beta := mk_identifier None (Some "beta") None false "--beta" "--beta" in
  let l := [(zeta, false, "z is wrong"); (beta, true, "b is fine");
            (alpha, false, "a is wrong"); (alpha, false, "a is wrong again")] in
  _strict m = true
  /\ _empty (_deferred_error m) = true
  /\ exists m',
       assert_all l m = Ret tt m'
       /\ _deferred_error m' = {| _order := alpha; _value := "a is wrong"; _empty := false |}
       /\ (forall id msg, In (id, msg) (errors_of l) ->
             identifier_lt id (_order (_deferred_error m')) = false)
       /\ deferred_assert zeta false "z again" m' = Ret false m'.
Proof.
  intros m zeta alpha beta l.
  split; [reflexivity|]. split; [reflexivity|].
  destruct (deferred_error_slot_holds_the_smallest m l eq_refl eq_refl)
    as (m' & Hrun & _ & Hmin & Hlater).
  exists m'. split; [exact Hrun|].
  assert (Hm' : Ret tt m'
                = Ret tt (set_deferred_error
                            {| _order := alpha; _value := "a is wrong"; _empty := false |}
                            m)).
  { rewrite <- Hrun. vm_compute. reflexivity. }
  inversion Hm' as [Heq]. split; [reflexivity|].
  rewrite <- Heq. split.
  - apply Hmin. discriminate.
  - apply Hlater; rewrite Heq; reflexivity.
Defined.

(** ** The classifier *)

Lemma config_separate_loop raw to_named named positional :
  preserves same_config (separate_loop raw to_named named positional).
Proof.
  revert to_named named positional.
  induction raw as [|s raw IH]; intros; simpl; repeat first [apply IH | config_step].
Qed.

Lemma config_split_loop named split : preserves same_config (split_loop named split).
Proof.
  revert split.
  induction named as [|s named IH]; intros; simpl; repeat first [apply IH | config_step].
Qed.

Lemma config_assign_loop named args : preserves same_config (assign_loop named args).
Proof.
  revert args.
  induction named as [|[s v] named IH]; intros; simpl;
    repeat first [apply IH | config_step].
Qed.

Lemma config_duplicates_inner name earlier :
  preserves same_config (duplicates_inner name earlier).
Proof.
  induction earlier as [|[other v] earlier IH]; simpl;
    repeat first [apply IH | config_step].
Qed.

Lemma config_duplicates_outer earlier later :
  preserves same_config (duplicates_outer earlier later).
Proof.
  revert earlier.
  induction later as [|e later IH]; intros; simpl;
    repeat first [apply IH | apply config_duplicates_inner | config_step].
Qed.

Lemma config_classify argv : preserves same_config (classify argv).
Proof.
  unfold classify, separate_named_positional, split_equations, assign_named_values.
  repeat first [apply config_separate_loop | apply config_split_loop
               | apply config_assign_loop | apply config_duplicates_outer | config_step].
Qed.

Lemma config_parse argv : preserves same_config (parse argv).
Proof.
  unfold parse, reject_positional. repeat first [apply config_classify | config_step].
Qed.

(** C1, as the code has it. The last statement of [parse] rejects
    positional tokens when space assignment is enabled, not when it is
    disabled: with space assignment enabled, a classifier that leaves
    anything in the positional set makes [parse] raise "positional
    arguments given, but not accepted" (into the slot in strict mode, as a
    fatal user-side line otherwise); with space assignment disabled [parse]
    is the classifier alone and no such error exists. *)
Theorem positional_rejected_under_space_assignment
    (argv : list string) (m m1 : _matcher) :
  classify argv m = Ret tt m1 ->
  (_space_assignment m = true ->
   _positional m1 <> [] ->
   parse argv m
   = if _strict m
     then Ret tt (set_deferred_error
                    (_first_set identifier_default positional_msg (_deferred_error m1)) m1)
     else Exit _failure_code (user_error positional_msg))
  /\ (_space_assignment m = true -> _positional m1 = [] -> parse argv m = Ret tt m1)
  /\ (_space_assignment m = false -> parse argv m = Ret tt m1).
Proof.
  intros Hc. pose proof (config_classify _ _ _ _ Hc) as [Hsa Hstrict _ _ _].
  unfold parse, reject_positional, bind, gets. rewrite Hc. cbv beta iota. rewrite Hsa.
  split; [|split].
  - intros -> Hne.
    destruct (_positional m1) as [|p ps]; [contradiction|].
    destruct (_strict m) eqn:Hs.
    + rewrite deferred_assert_strict by congruence. reflexivity.
    + rewrite deferred_assert_not_strict by congruence. reflexivity.
  - intros -> He. rewrite He.
    destruct (_strict m1) eqn:Hs.
    + rewrite deferred_assert_strict by congruence. reflexivity.
    + rewrite deferred_assert_not_strict by congruence. reflexivity.
  - intros ->. reflexivity.
Qed.

Lemma positional_rejected_under_space_assignment_witness :
  let m := set_config 1 true true _matcher_default in
  exists m1,
    classify ["prog"; "file.txt"] m = Ret tt m1
    /\ _space_assignment m = true
    /\ _positional m1 = ["file.txt"]
    /\ parse ["prog"; "file.txt"] m
       = Ret tt (set_deferred_error
                   (_first_set identifier_default positional_msg (_deferred_error m1)) m1).
Proof.
  intros m. eexists.
  split; [vm_compute; reflexivity|]. split; [reflexivity|]. split; [reflexivity|].
  refine (proj1 (positional_rejected_under_space_assignment
                   ["prog"; "file.txt"] m _ _) eq_refl _).
  - vm_compute. reflexivity.
  - discriminate.
Defined.

(** C1 as stated fails: with space assignment disabled a positional token
    raises nothing, and the run that declares it ends normally. *)
Lemma positional_rejected_counterexample :
  exists m m',
    init_and_run ["prog"; "file.txt"] 1 false = Ret tt m
    /\ _space_assignment m = false
    /\ _positional m = ["file.txt"]
    /\ _empty (_deferred_error m) = true
    /\ (r <- get_and_mark_as_queried (identifier_pos 0) ;; check true ;; ret r) m
       = Ret ("file.txt", string_t) m'
    /\ _empty (_deferred_error m') = true.
Proof.
  eexists. eexists. split; [vm_compute; reflexivity|].
  split; [reflexivity|]. split; [reflexivity|]. split; [reflexivity|].
  split; [vm_compute; reflexivity|]. reflexivity.
Qed.

(** ** Termination statuses *)

Lemma fails_only_ret {A : Type} (a : A) : fails_only (ret a).
Proof. intros m code out H. discriminate H. Qed.

Lemma fails_only_gets {A : Type} (f : _matcher -> A) : fails_only (gets f).
Proof. intros m code out H. discriminate H. Qed.

Lemma fails_only_modify f : fails_only (modify f).
Proof. intros m code out H. discriminate H. Qed.

Lemma fails_only_bind {A B : Type} (c : M A) (k : A -> M B) :
  fails_only c -> (forall a, fails_only (k a)) -> fails_only (bind c k).
Proof.
  intros Hc Hk m code out H. apply bind_exit_inv in H.
  destruct H as [H | (a & m' & _ & H)]; [eapply Hc | eapply Hk]; eassumption.
Qed.

Lemma fails_only_instant_assert pass msg ps : fails_only (_instant_assert pass msg ps).
Proof.
  intros m code out. unfold _instant_assert. destruct pass; [discriminate|].
  intros H. inversion H. reflexivity.
Qed.

Ltac fails_step :=
  lazymatch goal with
  | |- fails_only (bind _ _) => apply fails_only_bind; [|intros ?]
  | |- fails_only (ret _) => apply fails_only_ret
  | |- fails_only (gets _) => apply fails_only_gets
  | |- fails_only (modify _) => apply fails_only_modify
  | |- fails_only (_instant_assert _ _ _) => apply fails_only_instant_assert
  | |- fails_only (if ?b then _ else _) => destruct b
  | |- fails_only (match ?x with _ => _ end) => destruct x
  end.

Lemma fails_only_deferred_assert id pass msg : fails_only (deferred_assert id pass msg).
Proof. unfold deferred_assert. repeat fails_step. Qed.

Lemma fails_only_assert_no_overlap q id : fails_only (assert_no_overlap q id).
Proof. induction q as [|it q IH]; simpl; repeat fails_step. exact IH. Qed.

Lemma fails_only_get_and_mark_as_queried id : fails_only (get_and_mark_as_queried id).
Proof.
  unfold get_and_mark_as_queried.
  repeat first [apply fails_only_assert_no_overlap | fails_step].
Qed.

Lemma fails_only_check_named : fails_only check_named.
Proof. unfold check_named. repeat first [apply fails_only_deferred_assert | fails_step]. Qed.

Lemma fails_only_check_positional : fails_only check_positional.
Proof.
  unfold check_positional. repeat first [apply fails_only_deferred_assert | fails_step].
Qed.

Lemma fails_only_get_long_long a : fails_only (_get_long_long a).
Proof.
  unfold _get_long_long.
  repeat first [apply fails_only_deferred_assert
               | apply fails_only_get_and_mark_as_queried | fails_step].
Qed.

Lemma fails_only_get_with_precision T a : fails_only (_get_with_precision T a).
Proof.
  unfold _get_with_precision.
  repeat first [apply fails_only_deferred_assert | apply fails_only_get_long_long
               | fails_step].
Qed.

Lemma fails_only_separate_loop raw to_named named positional :
  fails_only (separate_loop raw to_named named positional).
Proof.
  revert to_named named positional.
  induction raw as [|s raw IH]; intros; simpl;
    repeat first [apply IH | apply fails_only_deferred_assert | fails_step].
Qed.

Lemma fails_only_split_loop named split : fails_only (split_loop named split).
Proof.
  revert split.
  induction named as [|s named IH]; intros; simpl;
    repeat first [apply IH | apply fails_only_deferred_assert | fails_step].
Qed.

Lemma fails_only_assign_loop named args : fails_only (assign_loop named args).
Proof.
  revert args.
  induction named as [|[s v] named IH]; intros; simpl;
    repeat first [apply IH | apply fails_only_deferred_assert | fails_step].
Qed.

Lemma fails_only_duplicates_inner name earlier :
  fails_only (duplicates_inner name earlier).
Proof.
  induction earlier as [|[other v] earlier IH]; simpl;
    repeat first [apply IH | apply fails_only_deferred_assert | fails_step].
Qed.

Lemma fails_only_duplicates_outer earlier later :
  fails_only (duplicates_outer earlier later).
Proof.
  revert earlier.
  induction later as [|e later IH]; intros; simpl;
    repeat first [apply IH | apply fails_only_duplicates_inner | fails_step].
Qed.

Lemma fails_only_parse argv : fails_only (parse argv).
Proof.
  unfold parse, reject_positional, classify, separate_named_positional,
    split_equations, assign_named_values.
  repeat first [apply fails_only_separate_loop | apply fails_only_split_loop
               | apply fails_only_assign_loop | apply fails_only_duplicates_outer
               | apply fails_only_deferred_assert | fails_step].
Qed.

(** ** Strict mode defers: the classifier always returns *)

Lemma returns_ret {A : Type} (a : A) : returns_when_strict (ret a).
Proof. intros m Hs. exists a, m. split; [reflexivity | exact Hs]. Qed.

Lemma returns_gets {A : Type} (f : _matcher -> A) : returns_when_strict (gets f).
Proof. intros m Hs. exists (f m), m. split; [reflexivity | exact Hs]. Qed.

Lemma returns_modify f :
  (forall m, _strict (f m) = _strict m) -> returns_when_strict (modify f).
Proof. intros Hf m Hs. exists tt, (f m). split; [reflexivity | rewrite Hf; exact Hs]. Qed.

Lemma returns_bind {A B : Type} (c : M A) (k : A -> M B) :
  returns_when_strict c -> (forall a, returns_when_strict (k a)) ->
  returns_when_strict (bind c k).
Proof.
  intros Hc Hk m Hs. destruct (Hc m Hs) as (a & m' & H1 & Hs').
  destruct (Hk a m' Hs') as (b & m'' & H2 & Hs'').
  exists b, m''. split; [|exact Hs'']. rewrite (bind_ret _ _ _ _ _ H1). exact H2.
Qed.

Lemma returns_deferred_assert id pass msg :
  returns_when_strict (deferred_assert id pass msg).
Proof.
  intros m Hs. rewrite deferred_assert_strict by exact Hs.
  eexists. eexists. split; [reflexivity|]. destruct pass; exact Hs.
Qed.

Ltac returns_step :=
  lazymatch goal with
  | |- returns_when_strict (bind _ _) => apply returns_bind; [|intros ?]
  | |- returns_when_strict (ret _) => apply returns_ret
  | |- returns_when_strict (gets _) => apply returns_gets
  | |- returns_when_strict (modify _) => apply returns_modify; intros ?; reflexivity
  | |- returns_when_strict (deferred_assert _ _ _) => apply returns_deferred_assert
  | |- returns_when_strict (if ?b then _ else _) => destruct b
  | |- returns_when_strict (match ?x with _ => _ end) => destruct x
  end.

Lemma returns_separate_loop raw to_named named positional :
  returns_when_strict (separate_loop raw to_named named positional).
Proof.
  revert to_named named positional.
  induction raw as [|s raw IH]; intros; simpl; repeat first [apply IH | returns_step].
Qed.

Lemma returns_split_loop named split : returns_when_strict (split_loop named split).
Proof.
  revert split.
  induction named as [|s named IH]; intros; simpl; repeat first [apply IH | returns_step].
Qed.

Lemma returns_assign_loop named args : returns_when_strict (assign_loop named args).
Proof.
  revert args.
  induction named as [|[s v] named IH]; intros; simpl;
    repeat first [apply IH | returns_step].
Qed.

Lemma returns_duplicates_inner name earlier :
  returns_when_strict (duplicates_inner name earlier).
Proof.
  induction earlier as [|[other v] earlier IH]; simpl;
    repeat first [apply IH | returns_step].
Qed.

Lemma returns_duplicates_outer earlier later :
  returns_when_strict (duplicates_outer earlier later).
Proof.
  revert earlier.
  induction later as [|e later IH]; intros; simpl;
    repeat first [apply IH | apply returns_duplicates_inner | returns_step].
Qed.

Lemma returns_classify argv : returns_when_strict (classify argv).
Proof.
  unfold classify, separate_named_positional, split_equations, assign_named_values.
  repeat first [apply returns_separate_loop | apply returns_split_loop
               | apply returns_assign_loop | apply returns_duplicates_outer
               | returns_step].
Qed.

(** In strict mode [parse] returns on every command line. *)
Lemma returns_parse argv : returns_when_strict (parse argv).
Proof.
  unfold parse, reject_positional. repeat first [apply returns_classify | returns_step].
Qed.

(** ** The help flag *)

Lemma identifier_names_help m : identifier_names "h" "help" m = Ret help_identifier m.
Proof. reflexivity. Qed.

Lemma lookup_named_help named :
  has_value (lookup_named named help_identifier) = has_help named.
Proof.
  induction named as [|[name result] named IH]; simpl; [reflexivity|].
  unfold contains. simpl.
  destruct (String.eqb name "h" || String.eqb name "help"); simpl;
    [destruct result; reflexivity | exact IH].
Qed.

Lemma lookup_named_kind named id r :
  lookup_named named id = Some r -> snd r <> none_t.
Proof.
  induction named as [|[name result] named IH]; simpl; [discriminate|].
  destruct (contains id name); [|exact IH].
  destruct result; intros H; inversion H; discriminate.
Qed.

Lemma resolve_help named positional :
  negb (arg_type_eqb (snd (resolve named positional help_identifier)) none_t)
  = has_help named.
Proof.
  rewrite <- lookup_named_help. unfold resolve.
  destruct (lookup_named named help_identifier) as [r|] eqn:H; simpl; [|reflexivity].
  apply lookup_named_kind in H. destruct (snd r); simpl; congruence.
Qed.

Lemma flush_help m : _help_flag m = true -> flush m = help_exit.
Proof. intros H. unfold flush, bind, gets. rewrite H. reflexivity. Qed.

Lemma check_spec dec m :
  check dec m =
  let m' := set_main_argc (_main_argc m - (if dec then 1 else 0)) m in
  if negb (_strict m) || (0 <? _main_argc m') then Ret tt m' else flush m'.
Proof.
  unfold check, bind, modify, gets. cbv zeta. simpl.
  destruct (_strict m); simpl; [|reflexivity].
  destruct (0 <? _); reflexivity.
Qed.

Lemma check_help (dec : bool) (m : _matcher) :
  _strict m = true ->
  _help_flag m = true ->
  _main_argc m - (if dec then 1 else 0) <= 0 ->
  check dec m = help_exit.
Proof.
  intros Hs Hh Hn. rewrite check_spec. cbv zeta. rewrite Hs. simpl.
  destruct (Z.ltb_spec 0 (_main_argc m - (if dec then 1 else 0))); [lia|].
  apply flush_help. exact Hh.
Qed.

Lemma flush_exit m code out :
  flush m = Exit code out ->
  code = _failure_code \/ (code = 0 /\ out = [PrintHelp] /\ _help_flag m = true).
Proof.
  unfold flush. unfold bind at 1. unfold gets at 1.
  destruct (_help_flag m) eqn:Hh.
  - intros H. inversion H. right. auto.
  - intros H. left. revert H. generalize m code out.
    change (fails_only
              (check_named ;; check_positional ;;
               err <- gets _deferred_error ;;
               if negb (_empty err)
               then exit _failure_code [Cerr ("Error: " ++ _first_get err ++ endl)]
               else ret tt)).
    repeat first [apply fails_only_check_named | apply fails_only_check_positional
                 | fails_step].
    intros m0 c0 o0 H. inversion H. reflexivity.
Qed.

Lemma check_exit dec m code out :
  check dec m = Exit code out ->
  code = _failure_code \/ (code = 0 /\ out = [PrintHelp] /\ _help_flag m = true).
Proof.
  rewrite check_spec. cbv zeta.
  destruct (negb (_strict m) || _); [discriminate|].
  intros H. apply flush_exit in H. exact H.
Qed.

Lemma exit_after {A B : Type} (c : M A) (k : A -> M B) m code out :
  fails_only c -> preserves frame c ->
  (forall a m', k a m' = Exit code out ->
     code = _failure_code \/ (code = 0 /\ out = [PrintHelp] /\ _help_flag m' = true)) ->
  bind c k m = Exit code out ->
  code = _failure_code \/ (code = 0 /\ out = [PrintHelp] /\ _help_flag m = true).
Proof.
  intros Hf Hp Hk H. apply bind_exit_inv in H.
  destruct H as [H | (a & m' & Hc & H)].
  - left. eapply Hf. eassumption.
  - apply Hk in H. apply Hp in Hc. rewrite (frame_help_flag _ _ Hc) in H. exact H.
Qed.

Lemma convert_exit T a dec m code out :
  _convert T a dec m = Exit code out ->
  code = _failure_code \/ (code = 0 /\ out = [PrintHelp] /\ _help_flag m = true).
Proof.
  unfold _convert.
  apply exit_after; [apply fails_only_get_with_precision
                    | apply frame_get_with_precision |].
  intros val m1.
  apply exit_after; [apply fails_only_deferred_assert
                    | apply (preserves_deferred_assert frame frame_refl frame_trans
                               frame_deferred_error) |].
  intros _ m2 H. apply bind_exit_inv in H.
  destruct H as [H | (u & m3 & _ & H)]; [|discriminate].
  apply check_exit in H. exact H.
Qed.

Lemma do_call_exit c m code out :
  do_call c m = Exit code out ->
  code = _failure_code \/ (code = 0 /\ out = [PrintHelp] /\ _help_flag m = true).
Proof.
  destruct c; simpl; intros H.
  - left. revert H. apply fails_only_bind;
      [apply fails_only_get_and_mark_as_queried | intros; apply fails_only_ret].
  - left. revert H. apply fails_only_bind;
      [apply fails_only_deferred_assert | intros; apply fails_only_ret].
  - apply check_exit in H. exact H.
  - left. revert H. apply fails_only_bind;
      [apply fails_only_get_with_precision | intros; apply fails_only_ret].
  - apply bind_exit_inv in H. destruct H as [H | (u & m3 & _ & H)]; [|discriminate].
    apply convert_exit in H. exact H.
Qed.

(** Construction, once [parse] has returned: the help flag is whether the
    named table holds "h" or "help", then [check(false)]. *)
Lemma matcher_init_after_parse argv n sa strict m1 :
  parse argv (configured n sa strict) = Ret tt m1 ->
  _matcher_init argv n sa strict _matcher_default
  = check false (set_help_flag (has_help (_named m1)) (mark_as_queried help_identifier m1)).
Proof.
  intros Hp. pose proof (config_parse _ _ _ _ Hp) as [_ _ _ Hq _].
  unfold _matcher_init.
  unfold bind at 1. unfold modify at 1. fold (configured n sa strict).
  rewrite (bind_ret _ _ _ _ _ Hp).
  unfold bind at 1. rewrite identifier_names_help.
  unfold bind at 1. rewrite get_and_mark_as_queried_spec.
  rewrite Hq. simpl. rewrite andb_false_r.
  unfold bind at 1. unfold modify at 1.
  rewrite resolve_help. reflexivity.
Qed.

Lemma matcher_init_parse_exits argv n sa strict code out :
  parse argv (configured n sa strict) = Exit code out ->
  _matcher_init argv n sa strict _matcher_default = Exit code out.
Proof.
  intros Hp. unfold _matcher_init.
  unfold bind at 1. unfold modify at 1. fold (configured n sa strict).
  apply bind_exit. exact Hp.
Qed.

Lemma mark_as_queried_fields id m :
  _strict (mark_as_queried id m) = _strict m
  /\ _named (mark_as_queried id m) = _named m.
Proof. unfold mark_as_queried. destruct m as [? ? ? ? ? ? ? [] ?]; split; reflexivity. Qed.

(** The matcher a constructor returns: its flag tells whether its named
    table holds the help flag. *)
Lemma matcher_init_help_flag argv n sa strict m1 m :
  parse argv (configured n sa strict) = Ret tt m1 ->
  _matcher_init argv n sa strict _matcher_default = Ret tt m ->
  _strict m = strict /\ _named m = _named m1 /\ _help_flag m = has_help (_named m1).
Proof.
  intros Hp H.
  pose proof (config_parse _ _ _ _ Hp) as [_ Hs _ _ _].
  rewrite (matcher_init_after_parse _ _ _ _ _ Hp) in H.
  apply frame_check in H. destruct H as [_ _ Hn _ Hs' Hh _ _].
  change (_strict (configured n sa strict)) with strict in Hs.
  simpl in *.
  destruct (mark_as_queried_fields help_identifier m1) as [Hq1 Hq2].
  repeat split; congruence.
Qed.

(** In a run, which is strict, [parse] returns whatever the command line
    is: every error of the classifier is deferred. *)
Lemma parse_of_run_returns argv n sa :
  exists m1, parse argv (configured n sa true) = Ret tt m1.
Proof.
  destruct (returns_parse argv (configured n sa true) eq_refl) as ([] & m1 & H & _).
  exists m1. exact H.
Qed.

(** C9. Take a matcher under construction whose [parse] has returned.
    When its named table holds the help flag ("h" or "help"), every
    end-of-run flush, the constructor's own or one after any calls, prints
    the help page and terminates with status 0, whatever the tables, the
    ledger and the error slot hold: no validation message and no deferred
    error is written. Conversely the constructor and the calls terminate
    with status 0 on that path only: with the help page as the whole
    output and the help flag in the named table. *)
Theorem help_flag_flush_exits_with_status_0
    (argv : list string) (n : Z) (sa strict : bool) (m1 : _matcher) :
  parse argv (configured n sa strict) = Ret tt m1 ->
  (has_help (_named m1) = true ->
   (strict = true -> n <= 0 ->
    _matcher_init argv n sa strict _matcher_default = help_exit)
   /\ forall m cs m',
        _matcher_init argv n sa strict _matcher_default = Ret tt m ->
        run cs m = Ret tt m' ->
        flush m' = help_exit
        /\ forall dec : bool,
             strict = true ->
             _main_argc m' - (if dec then 1 else 0) <= 0 ->
             check dec m' = help_exit)
  /\ (forall code out,
        _matcher_init argv n sa strict _matcher_default = Exit code out ->
        code = 0 ->
        out = [PrintHelp] /\ has_help (_named m1) = true)
  /\ (forall m cs m' c code out,
        _matcher_init argv n sa strict _matcher_default = Ret tt m ->
        run cs m = Ret tt m' ->
        do_call c m' = Exit code out ->
        code = 0 ->
        out = [PrintHelp] /\ has_help (_named m1) = true).
Proof.
  intros Hp. split; [|split].
  - intros Hh. split.
    + intros -> Hn. rewrite (matcher_init_after_parse _ _ _ _ _ Hp).
      pose proof (config_parse _ _ _ _ Hp) as [_ Hs _ _ Hargc].
      change (_strict (configured n sa true)) with true in Hs.
      change (_main_argc (configured n sa true)) with n in Hargc.
      apply check_help; simpl.
      * rewrite (proj1 (mark_as_queried_fields _ _)). exact Hs.
      * exact Hh.
      * unfold mark_as_queried. rewrite Hs. simpl. lia.
    + intros m cs m' Hi Hr.
      destruct (matcher_init_help_flag _ _ _ _ _ _ Hp Hi) as (Hs & _ & Hf).
      apply frame_run in Hr. destruct Hr as [_ _ _ _ Hs' Hf' _ _].
      assert (Hflag : _help_flag m' = true) by congruence.
      split; [apply flush_help; exact Hflag|].
      intros dec -> Hn. apply check_help; [congruence | exact Hflag | exact Hn].
  - intros code out Hi ->.
    rewrite (matcher_init_after_parse _ _ _ _ _ Hp) in Hi.
    apply check_exit in Hi. destruct Hi as [Hi | (_ & Ho & Hf)]; [discriminate|].
    split; [exact Ho | exact Hf].
  - intros m cs m' c code out Hi Hr Hc ->.
    destruct (matcher_init_help_flag _ _ _ _ _ _ Hp Hi) as (_ & _ & Hf).
    apply frame_run in Hr. destruct Hr as [_ _ _ _ _ Hf' _ _].
    apply do_call_exit in Hc. destruct Hc as [Hc | (_ & Ho & Hf'')]; [discriminate|].
    split; [exact Ho | congruence].
Qed.

Lemma help_flag_flush_exits_with_status_0_witness :
  let argv := ["prog"; "--unknown=1"; "-h"; "extra"] in
  let id := mk_identifier None (Some "count") None false "--count" "--count" in
  let a := mk_arg id "" None None in
  exists m1 m m',
    parse argv (configured 2 true true) = Ret tt m1
    /\ has_help (_named m1) = true
    /\ _matcher_init argv 2 true true _matcher_default = Ret tt m
    /\ run [call_convert (mk_integral true W32) a true] m = Ret tt m'
    /\ _empty (_deferred_error m') = false
    /\ _main_argc m' - 1 <= 0
    /\ flush m' = help_exit
    /\ check true m' = help_exit.
Proof.
  intros argv id a. eexists. eexists. eexists.
  split; [vm_compute; reflexivity|].
  split; [reflexivity|].
  split; [vm_compute; reflexivity|].
  split; [vm_compute; reflexivity|].
  split; [reflexivity|].
  split; [simpl; lia|].
  match goal with
  | |- flush ?x = _ /\ _ =>
      destruct (proj2 (proj1 (help_flag_flush_exits_with_status_0 argv 2 true true _
                                ltac:(vm_compute; reflexivity)) eq_refl)
                  _ [call_convert (mk_integral true W32) a true] x
                  ltac:(vm_compute; reflexivity) ltac:(vm_compute; reflexivity))
        as [Hflush Hcheck]
  end.
  split; [exact Hflush|]. apply (Hcheck true); [reflexivity | simpl; lia].
Defined.

(** ** Integral coercion *)

Lemma isdigit_not_space c : isdigit c = true -> isspace c = false.
Proof.
  unfold isdigit, isspace. intros H. apply andb_prop in H. destruct H as [H1 H2].
  apply Z.leb_le in H1, H2.
  destruct (Z.eqb_spec (char_code c) 32); [lia|].
  destruct (Z.leb_spec 9 (char_code c)); destruct (Z.leb_spec (char_code c) 13);
    simpl; try reflexivity; lia.
Qed.

Lemma isdigit_not_sign c :
  isdigit c = true -> Ascii.eqb c "-" = false /\ Ascii.eqb c "+" = false.
Proof.
  intros H. split; apply Ascii.eqb_neq; intros ->; discriminate H.
Qed.

Lemma scan_digits_all s : forall acc n,
  all_digits s = true ->
  scan_digits s acc n = (digits_value s acc, (n + String.length s)%nat).
Proof.
  induction s as [|c s IH]; intros acc n H; simpl in *.
  - rewrite Nat.add_0_r. reflexivity.
  - apply andb_prop in H. destruct H as [Hc Hs]. rewrite Hc.
    rewrite IH by exact Hs. f_equal. lia.
Qed.

Lemma stoll_minus body :
  stoll (String "-" body) =
  match snd (scan_digits body 0 0) with
  | O => stoll_invalid_argument
  | S _ =>
      if (LLONG_MIN <=? - fst (scan_digits body 0 0))
         && (- fst (scan_digits body 0 0) <=? LLONG_MAX)
      then stoll_value (- fst (scan_digits body 0 0)) (1 + snd (scan_digits body 0 0))
      else stoll_out_of_range
  end.
Proof. reflexivity. Qed.

Lemma stoll_digit c body :
  isdigit c = true ->
  stoll (String c body) =
  match snd (scan_digits (String c body) 0 0) with
  | O => stoll_invalid_argument
  | S _ =>
      if (LLONG_MIN <=? fst (scan_digits (String c body) 0 0))
         && (fst (scan_digits (String c body) 0 0) <=? LLONG_MAX)
      then stoll_value (fst (scan_digits (String c body) 0 0))
             (snd (scan_digits (String c body) 0 0))
      else stoll_out_of_range
  end.
Proof.
  intros Hc. destruct (isdigit_not_sign _ Hc) as [Hminus Hplus].
  unfold stoll. cbn [skip_space]. rewrite (isdigit_not_space _ Hc).
  cbn [fst snd]. rewrite Hminus, Hplus. reflexivity.
Qed.

(** [std::stoll] on a decimal integer: its value and the whole length, or
    [std::out_of_range]. *)
Lemma stoll_decimal s v :
  decimal_value s = Some v ->
  stoll s = if (LLONG_MIN <=? v) && (v <=? LLONG_MAX)
            then stoll_value v (String.length s)
            else stoll_out_of_range.
Proof.
  destruct s as [|c body]; [discriminate|]. unfold decimal_value.
  destruct (Ascii.eqb c "-") eqn:Hminus.
  - apply Ascii.eqb_eq in Hminus. subst c.
    destruct body as [|d body]; [discriminate|].
    destruct (all_digits (String d body)) eqn:Hd; [|discriminate].
    intros [= <-]. rewrite stoll_minus, (scan_digits_all _ 0 0 Hd).
    cbn [fst snd String.length Nat.add]. reflexivity.
  - destruct (all_digits (String c body)) eqn:Hd; [|discriminate].
    intros [= <-].
    assert (Hc : isdigit c = true).
    { cbn [all_digits] in Hd. apply andb_prop in Hd. apply Hd. }
    rewrite (stoll_digit _ _ Hc), (scan_digits_all _ 0 0 Hd).
    cbn [fst snd String.length Nat.add]. reflexivity.
Qed.

Lemma decimal_value_nonempty s v : decimal_value s = Some v -> 1 <= size s.
Proof.
  destruct s; [discriminate|]. intros _. unfold size. simpl String.length. lia.
Qed.

Lemma deferred_assert_pass id msg m : deferred_assert id true msg m = Ret true m.
Proof. unfold deferred_assert, bind, gets. destruct (_strict m); reflexivity. Qed.

Lemma deferred_assert_fail id msg m :
  String.eqb msg "" = false ->
  deferred_assert id false msg m =
  if _strict m
  then Ret false (set_deferred_error (_first_set id msg (_deferred_error m)) m)
  else Exit _failure_code (user_error msg).
Proof.
  intros Hmsg. destruct (_strict m) eqn:Hs.
  - rewrite deferred_assert_strict by exact Hs. reflexivity.
  - rewrite deferred_assert_not_strict by exact Hs. rewrite Hmsg. reflexivity.
Qed.

(** A second error of the same Identifier changes nothing in strict mode. *)
Lemma deferred_assert_again id pass msg1 msg2 m :
  _strict m = true ->
  deferred_assert id pass msg2
    (set_deferred_error (_first_set id msg1 (_deferred_error m)) m)
  = Ret pass (set_deferred_error (_first_set id msg1 (_deferred_error m)) m).
Proof.
  intros Hs. rewrite deferred_assert_strict by exact Hs.
  destruct pass; [reflexivity|]. simpl. rewrite first_set_twice. reflexivity.
Qed.

Lemma get_long_long_decimal a m m1 s v :
  get_and_mark_as_queried (_id a) m = Ret (s, string_t) m1 ->
  decimal_value s = Some v ->
  _get_long_long a m =
  if (LLONG_MIN <=? v) && (v <=? LLONG_MAX) then Ret (Some v) m1
  else if _strict m1
  then Ret (Some 0)
         (set_deferred_error
            (_first_set (_id a) ("value " ++ s ++ " out of range") (_deferred_error m1)) m1)
  else Exit _failure_code (user_error ("value " ++ s ++ " out of range")).
Proof.
  intros Hq Hd. unfold _get_long_long. rewrite (bind_ret _ _ _ _ _ Hq).
  cbn [fst snd arg_type_eqb negb]. unfold bind at 1. rewrite deferred_assert_pass.
  rewrite (stoll_decimal _ _ Hd).
  destruct ((LLONG_MIN <=? v) && (v <=? LLONG_MAX)).
  - unfold bind, ret. unfold size. rewrite Z.eqb_refl. simpl andb.
    rewrite deferred_assert_pass. reflexivity.
  - unfold bind at 1. rewrite deferred_assert_fail by reflexivity.
    destruct (_strict m1) eqn:Hs; [|reflexivity].
    unfold bind. rewrite deferred_assert_again by exact Hs. reflexivity.
Qed.

Lemma limits_within_long_long T :
  LLONG_MIN <= lowest T /\ 0 <= max T /\ lowest T <= 0
  /\ (is_signed T = true \/ width T <> W64 -> max T <= LLONG_MAX).
Proof.
  destruct T as [[] []]; unfold lowest, max, bits, LLONG_MIN, LLONG_MAX; simpl;
    repeat split; try lia; intros [H|H]; try discriminate; try lia; contradiction.
Qed.

Lemma within_limits_long_long T v :
  LLONG_MIN <= v <= LLONG_MAX ->
  within_limits T v =
  if negb (is_signed T) && (bits T =? 64) then true
  else (lowest T <=? v) && (v <=? max T).
Proof.
  intros Hv. unfold within_limits, arith_conv.
  destruct (negb (is_signed T) && (bits T =? 64)) eqn:Hu; [|reflexivity].
  destruct T as [[] []]; try discriminate Hu.
  unfold lowest, max, bits. simpl is_signed. simpl width. cbv iota.
  pose proof (Z.mod_pos_bound v (2 ^ 64) ltac:(lia)) as Hb.
  rewrite Z.mod_0_l by lia. rewrite (Z.mod_small (2 ^ 64 - 1)) by lia.
  destruct (Z.leb_spec 0 (v mod 2 ^ 64)); [|lia].
  destruct (Z.leb_spec (v mod 2 ^ 64) (2 ^ 64 - 1)); [reflexivity|lia].
Qed.

Lemma cast_in_range T v : lowest T <= v <= max T -> cast T v = v.
Proof.
  unfold cast, lowest, max.
  destruct T as [[] w]; simpl is_signed; cbv iota; intros Hv.
  - assert (Hb : 0 < 2 ^ (bits {| is_signed := true; width := w |} - 1)
                 /\ 2 ^ bits {| is_signed := true; width := w |}
                    = 2 * 2 ^ (bits {| is_signed := true; width := w |} - 1)).
    { destruct w; unfold bits; simpl; lia. }
    destruct Hb as [Hpos Hdouble].
    destruct (Z.le_gt_cases 0 v) as [Hnn | Hneg].
    + rewrite Z.mod_small by lia. simpl andb.
      destruct (Z.leb_spec (2 ^ (bits {| is_signed := true; width := w |} - 1)) v);
        [lia | reflexivity].
    + replace (v mod 2 ^ bits {| is_signed := true; width := w |})
        with (v + 2 ^ bits {| is_signed := true; width := w |}).
      * simpl andb.
        destruct (Z.leb_spec (2 ^ (bits {| is_signed := true; width := w |} - 1))
                    (v + 2 ^ bits {| is_signed := true; width := w |})); lia.
      * apply Z.mod_unique with (q := -1); lia.
  - simpl andb. apply Z.mod_small. lia.
Qed.

Lemma check_named_strict m : _strict m = true -> exists m', check_named m = Ret tt m'.
Proof.
  intros Hs. unfold check_named, bind, gets.
  rewrite deferred_assert_strict by exact Hs. eexists. reflexivity.
Qed.

Lemma check_positional_strict m :
  _strict m = true -> exists m', check_positional m = Ret tt m'.
Proof.
  intros Hs. unfold check_positional, bind, gets.
  rewrite deferred_assert_strict by exact Hs. eexists. reflexivity.
Qed.

(** An error in the slot stops the run at its flush: the process
    terminates there, it does not return to the consuming program. *)
Lemma flush_with_error_exits m :
  _strict m = true ->
  _empty (_deferred_error m) = false ->
  exists code out, flush m = Exit code out.
Proof.
  intros Hs He. unfold flush. unfold bind at 1. unfold gets at 1.
  destruct (_help_flag m); [eexists; eexists; reflexivity|].
  destruct (check_named_strict m Hs) as [m1 H1].
  pose proof (frame_check_named _ _ _ H1) as F1.
  rewrite (bind_ret _ _ _ _ _ H1).
  assert (Hs1 : _strict m1 = true) by (rewrite (frame_strict _ _ F1); exact Hs).
  destruct (check_positional_strict m1 Hs1) as [m2 H2].
  pose proof (frame_check_positional _ _ _ H2) as F2.
  rewrite (bind_ret _ _ _ _ _ H2).
  unfold bind, gets.
  rewrite (frame_deferred _ _ F2 (frame_deferred _ _ F1 He)).
  eexists. eexists. reflexivity.
Qed.

Lemma get_with_precision_after T a m value m1 :
  _get_long_long a m = Ret (Some value) m1 ->
  _get_with_precision T a m =
  (deferred_assert (_id a) (is_signed T || (0 <=? value))
     ("argument " ++ _help (_id a) ++ " must be positive") ;;
   deferred_assert (_id a) (within_limits T value)
     ("value " ++ to_string value ++ " out of range") ;;
   ret (Some (cast T value))) m1.
Proof. intros H. unfold _get_with_precision. rewrite (bind_ret _ _ _ _ _ H). reflexivity. Qed.

Lemma within_limits_in_range T v :
  lowest T <= v <= max T -> v <= LLONG_MAX -> within_limits T v = true.
Proof.
  intros Hv Hmax. pose proof (limits_within_long_long T) as (Hlow & _ & _ & _).
  rewrite within_limits_long_long by lia.
  destruct (negb (is_signed T) && (bits T =? 64)); [reflexivity|].
  destruct (Z.leb_spec (lowest T) v); [|lia].
  destruct (Z.leb_spec v (max T)); [reflexivity|lia].
Qed.

Lemma unsigned_lowest T : is_signed T = false -> lowest T = 0.
Proof. unfold lowest. intros ->. reflexivity. Qed.

(** C2, as the code has it. Let the query of an argument find the decimal
    integer [s], of value [v]. If [v] is within the limits of the target
    type [T] and of [long long], through which every value is parsed,
    [_get_with_precision<T>] returns exactly [v] and raises nothing.
    Otherwise it raises an error, "out of range" or, for a negative [v]
    that fits [long long] and an unsigned [T], "must be positive": the
    process terminates at once without strict mode; in strict mode the
    error goes to the slot, which is then not empty, and whatever calls
    follow, the flush of the run terminates the process. *)
Theorem integral_coercion_exact_or_error
    (T : integral) (a : arg) (m m1 : _matcher) (s : string) (v : Z) :
  get_and_mark_as_queried (_id a) m = Ret (s, string_t) m1 ->
  decimal_value s = Some v ->
  (lowest T <= v <= max T -> v <= LLONG_MAX ->
   _get_with_precision T a m = Ret (Some v) m1)
  /\ (~ (lowest T <= v <= max T /\ v <= LLONG_MAX) ->
      (_strict m = false ->
       _get_with_precision T a m
       = Exit _failure_code (user_error (coercion_error T a s v)))
      /\ (_strict m = true ->
          exists r m',
            _get_with_precision T a m = Ret r m'
            /\ m' = set_deferred_error
                      (_first_set (_id a) (coercion_error T a s v) (_deferred_error m1)) m1
            /\ _empty (_deferred_error m') = false
            /\ forall cs m'', run cs m' = Ret tt m'' ->
                 exists code out, flush m'' = Exit code out)).
Proof.
  intros Hq Hd.
  pose proof (frame_get_and_mark_as_queried _ _ _ _ Hq) as Fq.
  pose proof (frame_strict _ _ Fq) as Hs1.
  pose proof (get_long_long_decimal _ _ _ _ _ Hq Hd) as Hll.
  pose proof (limits_within_long_long T) as (Hlow & Hmax0 & Hlow0 & Hmax).
  assert (Hflush : forall m', _strict m' = true -> _empty (_deferred_error m') = false ->
            forall cs m'', run cs m' = Ret tt m'' ->
              exists code out, flush m'' = Exit code out).
  { intros m' Hs He cs m'' Hr. apply frame_run in Hr.
    apply flush_with_error_exits.
    - rewrite (frame_strict _ _ Hr). exact Hs.
    - apply (frame_deferred _ _ Hr He). }
  split.
  - intros Hv Hvmax.
    destruct (Z.leb_spec LLONG_MIN v); [|lia].
    destruct (Z.leb_spec v LLONG_MAX); [|lia].
    simpl in Hll. rewrite (get_with_precision_after _ _ _ _ _ Hll).
    unfold bind, ret.
    assert (Hpos : is_signed T || (0 <=? v) = true).
    { destruct (is_signed T) eqn:Hsg; [reflexivity|]. simpl.
      apply Z.leb_le. rewrite (unsigned_lowest _ Hsg) in Hv. lia. }
    rewrite Hpos, deferred_assert_pass.
    rewrite (within_limits_in_range _ _ Hv Hvmax), deferred_assert_pass.
    rewrite (cast_in_range _ _ Hv). reflexivity.
  - intros Hout.
    assert (Hmain : exists r,
              _get_with_precision T a m =
              if _strict m
              then Ret r (set_deferred_error
                            (_first_set (_id a) (coercion_error T a s v)
                               (_deferred_error m1)) m1)
              else Exit _failure_code (user_error (coercion_error T a s v))).
    { unfold coercion_error.
      destruct ((LLONG_MIN <=? v) && (v <=? LLONG_MAX)) eqn:Hrange; simpl negb; cbv iota.
      + apply andb_prop in Hrange. destruct Hrange as [H1 H2].
        apply Z.leb_le in H1, H2.
        rewrite (get_with_precision_after _ _ _ _ _ Hll).
        destruct (negb (is_signed T) && (v <? 0)) eqn:Hneg.
        * apply andb_prop in Hneg. destruct Hneg as [Hsg Hlt].
          apply negb_true_iff in Hsg. apply Z.ltb_lt in Hlt.
          assert (Hpos : is_signed T || (0 <=? v) = false).
          { rewrite Hsg. simpl. apply Z.leb_gt. exact Hlt. }
          rewrite Hpos. unfold bind at 1.
          rewrite deferred_assert_fail by reflexivity. rewrite Hs1.
          destruct (_strict m) eqn:Hs; [|exists None; reflexivity].
          unfold bind. rewrite deferred_assert_again by congruence.
          eexists. reflexivity.
        * assert (Hpos : is_signed T || (0 <=? v) = true).
          { destruct (is_signed T); [reflexivity|]. simpl in *.
            apply Z.leb_le. apply Z.ltb_ge in Hneg. exact Hneg. }
          assert (Hlim : within_limits T v = false).
          { rewrite within_limits_long_long by lia.
            destruct (negb (is_signed T) && (bits T =? 64)) eqn:Hu.
            - exfalso. apply Hout. apply andb_prop in Hu. destruct Hu as [Hsg Hb].
              apply negb_true_iff in Hsg. rewrite Hsg in *. simpl in *.
              apply Z.leb_le in Hpos. rewrite (unsigned_lowest _ Hsg).
              assert (max T = 2 ^ 64 - 1).
              { unfold max. rewrite Hsg. apply Z.eqb_eq in Hb. rewrite Hb. reflexivity. }
              unfold LLONG_MAX in *. lia.
            - destruct (Z.leb_spec (lowest T) v); [|reflexivity].
              destruct (Z.leb_spec v (max T)); [|reflexivity].
              exfalso. apply Hout. lia. }
          rewrite Hpos, Hlim. unfold bind at 1. rewrite deferred_assert_pass.
          unfold bind at 1.
          rewrite deferred_assert_fail by reflexivity. rewrite Hs1.
          destruct (_strict m); [|exists None; reflexivity].
          eexists. reflexivity.
      + rewrite Hs1 in Hll.
        destruct (_strict m) eqn:Hs.
        * rewrite (get_with_precision_after _ _ _ _ _ Hll).
          assert (Hpos : is_signed T || (0 <=? 0) = true) by (apply orb_true_r).
          rewrite Hpos. unfold bind at 1. rewrite deferred_assert_pass.
          assert (H0 : lowest T <= 0 <= max T) by lia.
          rewrite (within_limits_in_range _ _ H0) by (unfold LLONG_MAX; lia).
          unfold bind. rewrite deferred_assert_pass.
          eexists. reflexivity.
        * exists None. unfold _get_with_precision.
          rewrite (bind_exit _ _ _ _ _ Hll). reflexivity. }
    destruct Hmain as [r Hmain]. split; intros Hs; rewrite Hs in Hmain.
    + exact Hmain.
    + eexists. eexists. split; [exact Hmain|]. split; [reflexivity|].
      split; [apply first_set_full|].
      apply Hflush; [simpl; congruence | apply first_set_full].
Qed.

Lemma integral_coercion_exact_or_error_witness :
  let m := matcher_of_run ["prog"; "--count=300"] 1 true in
  let a := mk_arg (mk_identifier None (Some "count") None false "--count" "--count")
             "" None None in
  exists m1,
    get_and_mark_as_queried (_id a) m = Ret ("300", string_t) m1
    /\ decimal_value "300" = Some 300
    /\ _get_with_precision (mk_integral true W32) a m = Ret (Some 300) m1
    /\ exists r m',
         _get_with_precision (mk_integral false W8) a m = Ret r m'
         /\ m' = set_deferred_error
                   (_first_set (_id a) "value 300 out of range" (_deferred_error m1)) m1
         /\ _empty (_deferred_error m') = false.
Proof.
  intros m a. eexists.
  split; [vm_compute; reflexivity|]. split; [reflexivity|].
  split.
  - refine (proj1 (integral_coercion_exact_or_error (mk_integral true W32) a m _
                     "300" 300 ltac:(vm_compute; reflexivity) eq_refl) _ _).
    + unfold lowest, max; simpl; lia.
    + unfold LLONG_MAX; lia.
  - destruct (proj2 (proj2 (integral_coercion_exact_or_error (mk_integral false W8) a m _
                              "300" 300 ltac:(vm_compute; reflexivity) eq_refl)
                       ltac:(unfold lowest, max; simpl; lia)) eq_refl)
      as (r & m' & H1 & H2 & H3 & _).
    exists r, m'. split; [exact H1|]. split; [exact H2|]. exact H3.
Defined.

(** C2 as stated fails for a 64-bit unsigned target: 18446744073709551615
    is its [max()], yet the coercion goes through [long long] and reports
    it out of range instead of returning it. *)
Lemma integral_coercion_counterexample :
  let T := mk_integral false W64 in
  let s := "18446744073709551615" in
  let m := matcher_of_run ["prog"; "--count=18446744073709551615"] 1 true in
  let a := mk_arg (mk_identifier None (Some "count") None false "--count" "--count")
             "" None None in
  decimal_value s = Some 18446744073709551615
  /\ lowest T <= 18446744073709551615 <= max T
  /\ exists m',
       _get_with_precision T a m = Ret (Some 0) m'
       /\ _value (_deferred_error m') = "value 18446744073709551615 out of range".
Proof.
  intros T s m a. split; [reflexivity|].
  split; [unfold lowest, max; simpl; lia|].
  eexists. split; [vm_compute; reflexivity|]. reflexivity.
Qed.

(** ** The classifier, token by token *)

Lemma deferred_assert_config id pass msg m b m' :
  deferred_assert id pass msg m = Ret b m' -> same_config m m'.
Proof.
  apply (preserves_deferred_assert same_config same_config_refl same_config_trans
           same_config_deferred_error).
Qed.

(** The accumulators of the first loop only ever grow at the end. *)
Lemma separate_loop_acc l : forall tn n0 p0 nm ps m,
  separate_loop l tn (n0 ++ nm) (p0 ++ ps) m
  = omap (fun r => ((n0 ++ fst r)%list, (p0 ++ snd r)%list)) (separate_loop l tn nm ps m).
Proof.
  induction l as [|s l IH]; intros; simpl; [reflexivity|].
  unfold bind, gets.
  destruct (deferred_assert _ _ _ m) as [b m0|]; [|reflexivity].
  destruct (is_named_token s); [rewrite <- app_assoc; apply IH|].
  destruct (_space_assignment m0 && tn); rewrite <- app_assoc; apply IH.
Qed.

(** The first loop over a concatenation: the second part runs from the
    flag the first part leaves. *)
Lemma separate_loop_app l1 l2 : forall tn nm ps m,
  separate_loop (l1 ++ l2) tn nm ps m
  = bind (separate_loop l1 tn nm ps)
      (fun r => separate_loop l2 (to_named_after (_space_assignment m) l1 tn)
                  (fst r) (snd r)) m.
Proof.
  induction l1 as [|s l1 IH]; intros; simpl; [reflexivity|].
  unfold bind, gets.
  destruct (deferred_assert _ _ _ m) as [b m0|] eqn:E; [|reflexivity].
  apply deferred_assert_config in E. destruct E as [Hsa _ _ _ _]. rewrite Hsa.
  destruct (is_named_token s).
  - rewrite IH. unfold bind. rewrite Hsa. reflexivity.
  - destruct (_space_assignment m && tn); rewrite IH; unfold bind; rewrite Hsa;
      reflexivity.
Qed.

Lemma split_loop_acc l : forall a0 acc m,
  split_loop l (a0 ++ acc) m = omap (app a0) (split_loop l acc m).
Proof.
  induction l as [|s l IH]; intros; simpl; [reflexivity|].
  destruct (find "=" s); [|rewrite <- app_assoc; apply IH].
  unfold bind.
  destruct (deferred_assert _ _ _ m) as [b m0|]; [|reflexivity].
  destruct (negb b); [apply IH | rewrite <- app_assoc; apply IH].
Qed.

Lemma split_loop_app l1 l2 : forall acc m,
  split_loop (l1 ++ l2) acc m = bind (split_loop l1 acc) (split_loop l2) m.
Proof.
  induction l1 as [|s l1 IH]; intros; simpl; [reflexivity|].
  destruct (find "=" s); [|apply IH].
  unfold bind.
  destruct (deferred_assert _ _ _ m) as [b m0|]; [|reflexivity].
  destruct (negb b); rewrite IH; reflexivity.
Qed.

Lemma assign_loop_app l1 l2 : forall args m,
  assign_loop (l1 ++ l2) args m = bind (assign_loop l1 args) (assign_loop l2) m.
Proof.
  induction l1 as [|[s v] l1 IH]; intros; simpl; [reflexivity|].
  destruct v; [apply IH|].
  destruct (count_hyphens s =? 2).
  - unfold bind.
    destruct (deferred_assert _ _ _ m) as [b m0|]; [|reflexivity].
    rewrite IH. reflexivity.
  - destruct (count_hyphens s =? 1).
    + destruct (isdigit _); apply IH.
    + destruct (count_hyphens s =? 0); apply IH.
Qed.

Lemma bind_modify {B : Type} f (k : unit -> M B) m : bind (modify f) k m = k tt (f m).
Proof. reflexivity. Qed.

Lemma bind_same {A B : Type} (c1 c2 : M A) (k : A -> M B) m :
  c1 m = c2 m -> bind c1 k m = bind c2 k m.
Proof. intros H. unfold bind. rewrite H. reflexivity. Qed.

Lemma separate_loop_context sa Z Z' pre post m :
  _space_assignment m = sa ->
  (forall tn nm ps m0, _space_assignment m0 = sa ->
     separate_loop Z tn nm ps m0 = Ret ((nm ++ Z')%list, ps) m0) ->
  separate_loop (pre ++ Z ++ post) false [] [] m =
  match separate_loop pre false [] [] m with
  | Ret r1 m1 =>
      omap (fun r => ((fst r1 ++ Z' ++ fst r)%list, (snd r1 ++ snd r)%list))
        (separate_loop post (to_named_after sa Z (to_named_after sa pre false)) [] [] m1)
  | Exit code out => Exit code out
  end.
Proof.
  intros Hsa HZ. rewrite separate_loop_app. unfold bind.
  destruct (separate_loop pre false [] [] m) as [[n1 p1] m1|] eqn:E1; [|reflexivity].
  assert (Hsa1 : _space_assignment m1 = sa).
  { apply config_separate_loop in E1. destruct E1 as [H _ _ _ _]. congruence. }
  cbn [fst snd]. rewrite separate_loop_app. unfold bind.
  rewrite (HZ _ _ _ _ Hsa1). cbn [fst snd]. rewrite Hsa, Hsa1.
  rewrite <- (app_nil_r (n1 ++ Z')), <- (app_nil_r p1) at 1.
  rewrite separate_loop_acc.
  destruct (separate_loop post _ [] [] m1) as [[n2 p2] m2|]; [|reflexivity].
  cbn [omap fst snd]. rewrite <- app_assoc. reflexivity.
Qed.

Section Replace.
Variable sa : bool.
Variables X Y X' Y' : list string.
Variables X'' Y'' : list (string * bool).
Hypothesis separate_X : forall tn nm ps m0, _space_assignment m0 = sa ->
  separate_loop X tn nm ps m0 = Ret ((nm ++ X')%list, ps) m0.
Hypothesis separate_Y : forall tn nm ps m0, _space_assignment m0 = sa ->
  separate_loop Y tn nm ps m0 = Ret ((nm ++ Y')%list, ps) m0.
Hypothesis split_X : forall acc m0, split_loop X' acc m0 = Ret (acc ++ X'')%list m0.
Hypothesis split_Y : forall acc m0, split_loop Y' acc m0 = Ret (acc ++ Y'')%list m0.
Hypothesis assign_XY : forall args m0, assign_loop X'' args m0 = assign_loop Y'' args m0.

Lemma separate_replace {B : Type} (K : list string * list string -> M B) pre post m :
  _space_assignment m = sa ->
  (forall tn nm ps m0, _space_assignment m0 = sa ->
     separate_loop post (to_named_after sa X tn) nm ps m0
     = separate_loop post (to_named_after sa Y tn) nm ps m0) ->
  (forall n1 n2 p m', K ((n1 ++ X' ++ n2)%list, p) m' = K ((n1 ++ Y' ++ n2)%list, p) m') ->
  bind (separate_named_positional (pre ++ X ++ post)) K m
  = bind (separate_named_positional (pre ++ Y ++ post)) K m.
Proof.
  intros Hsa Hpost HK. unfold bind, separate_named_positional.
  rewrite (separate_loop_context sa X X' pre post m Hsa separate_X).
  rewrite (separate_loop_context sa Y Y' pre post m Hsa separate_Y).
  destruct (separate_loop pre false [] [] m) as [[n1 p1] m1|] eqn:E1; [|reflexivity].
  assert (Hsa1 : _space_assignment m1 = sa).
  { apply config_separate_loop in E1. destruct E1 as [H _ _ _ _]. congruence. }
  rewrite (Hpost _ _ _ _ Hsa1).
  destruct (separate_loop post _ [] [] m1) as [[n2 p2] m2|]; [|reflexivity].
  cbn [omap fst snd]. apply HK.
Qed.

Lemma split_replace {B : Type} (K : list (string * bool) -> M B) n1 n2 m :
  (forall s1 s2 m', K (s1 ++ X'' ++ s2)%list m' = K (s1 ++ Y'' ++ s2)%list m') ->
  bind (split_equations (n1 ++ X' ++ n2)) K m
  = bind (split_equations (n1 ++ Y' ++ n2)) K m.
Proof.
  intros HK. unfold split_equations. unfold bind at 1 2.
  rewrite !split_loop_app. unfold bind.
  destruct (split_loop n1 [] m) as [s1 m1|]; [|reflexivity].
  rewrite !split_loop_app. unfold bind. rewrite split_X, split_Y.
  rewrite <- (app_nil_r (s1 ++ X'')), <- (app_nil_r (s1 ++ Y'')).
  rewrite !split_loop_acc.
  destruct (split_loop n2 [] m1) as [s2 m2|]; [|reflexivity].
  cbn [omap]. rewrite <- !app_assoc. apply HK.
Qed.

Lemma assign_replace s1 s2 m :
  assign_named_values (s1 ++ X'' ++ s2) m = assign_named_values (s1 ++ Y'' ++ s2) m.
Proof.
  unfold assign_named_values. rewrite !assign_loop_app. unfold bind.
  destruct (assign_loop s1 [] m) as [a1 m1|]; [|reflexivity].
  rewrite !assign_loop_app. unfold bind. rewrite assign_XY. reflexivity.
Qed.

(** Replacing the tokens [X] by [Y] in the middle of a command line leaves
    [parse] as it is when, one stage at a time, [X] and [Y] do the same to
    what surrounds them. *)
Lemma parse_replace exe pre post m :
  _space_assignment m = sa ->
  (forall tn nm ps m0, _space_assignment m0 = sa ->
     separate_loop post (to_named_after sa X tn) nm ps m0
     = separate_loop post (to_named_after sa Y tn) nm ps m0) ->
  parse (exe :: pre ++ X ++ post) m = parse (exe :: pre ++ Y ++ post) m.
Proof.
  intros Hsa Hpost. unfold parse. apply bind_same.
  unfold classify. cbn [hd tl]. rewrite !bind_modify.
  apply separate_replace; [exact Hsa | exact Hpost |].
  intros n1 n2 p m'. rewrite !bind_modify. cbn [fst snd].
  apply split_replace. intros s1 s2 m''.
  apply bind_same. apply assign_replace.
Qed.
End Replace.

(** ** Strings of tokens *)

Lemma substring_all s : substring 0 (String.length s) s = s.
Proof. induction s as [|c s IH]; simpl; [reflexivity|]. rewrite IH. reflexivity. Qed.

Lemma substr_from_0 s : substr_from 0 s = s.
Proof. unfold substr_from. rewrite Nat.sub_0_r. apply substring_all. Qed.

Lemma substr_from_1 c s : substr_from 1 (String c s) = s.
Proof.
  unfold substr_from. cbn [String.length]. rewrite Nat.sub_succ, Nat.sub_0_r.
  cbn [substring]. apply substring_all.
Qed.

Lemma substr_from_2 c d s : substr_from 2 (String c (String d s)) = s.
Proof.
  unfold substr_from. cbn [String.length]. rewrite !Nat.sub_succ, Nat.sub_0_r.
  cbn [substring]. apply substring_all.
Qed.

Lemma name_chars_find_eq cs : name_chars cs = true -> find "=" cs = None.
Proof.
  induction cs as [|c cs IH]; simpl; [reflexivity|].
  unfold name_char. intros H. apply andb_prop in H. destruct H as [Hc Hcs].
  apply andb_prop in Hc. destruct Hc as [_ Heq]. apply negb_true_iff in Heq.
  rewrite Heq, (IH Hcs). reflexivity.
Qed.

Lemma name_char_inv c :
  name_char c = true ->
  isdigit c = false /\ Ascii.eqb c "-" = false /\ Ascii.eqb c "=" = false.
Proof.
  unfold name_char. intros H. apply andb_prop in H. destruct H as [H H3].
  apply andb_prop in H. destruct H as [H1 H2].
  apply negb_true_iff in H1, H2, H3. auto.
Qed.

(** A bundle "-abc" is a named token with one hyphen and no '='. *)
Lemma bundle_token c cs :
  name_chars (String c cs) = true ->
  count_hyphens (String "-" (String c cs)) = 1
  /\ is_named_token (String "-" (String c cs)) = true
  /\ find "=" (String "-" (String c cs)) = None.
Proof.
  intros H. pose proof (name_chars_find_eq _ H) as Hfind.
  cbn [name_chars] in H. apply andb_prop in H. destruct H as [Hc _].
  destruct (name_char_inv _ Hc) as (Hd & Hh & _).
  assert (Hcount : count_hyphens (String "-" (String c cs)) = 1).
  { unfold count_hyphens. cbn [count_hyphens_nat]. rewrite Hh. reflexivity. }
  split; [exact Hcount|]. split.
  - unfold is_named_token. rewrite Hcount. cbv zeta. unfold size, char_at.
    cbn [String.length String.get]. rewrite Hd.
    destruct (Z.leb_spec 1 (Z.of_nat (S (S (String.length cs))) - 1)); [reflexivity|lia].
  - cbn [find]. change (Ascii.eqb "-" "=") with false. cbv iota.
    cbn [find] in Hfind. rewrite Hfind. reflexivity.
Qed.

Lemma single_flag_token c :
  name_char c = true ->
  count_hyphens (String "-" (string1 c)) = 1
  /\ is_named_token (String "-" (string1 c)) = true
  /\ takes_value (String "-" (string1 c)) = true
  /\ find "=" (String "-" (string1 c)) = None.
Proof.
  intros Hc. destruct (name_char_inv _ Hc) as (Hd & Hh & He).
  assert (Hn : name_chars (String c "") = true) by (simpl; rewrite Hc; reflexivity).
  destruct (bundle_token c "" Hn) as (H1 & H2 & H3).
  unfold string1. split; [exact H1|]. split; [exact H2|]. split; [|exact H3].
  unfold takes_value, has_eq. rewrite H1, H3. reflexivity.
Qed.

(** ** A bundle of flags and the flags one by one *)

Lemma separate_named_token s rest tn nm ps m :
  count_hyphens s <= 2 ->
  is_named_token s = true ->
  separate_loop (s :: rest) tn nm ps m
  = separate_loop rest (takes_value s) (nm ++ [s]) ps m.
Proof.
  intros Hh Hn. cbn [separate_loop]. unfold bind, gets.
  destruct (Z.leb_spec (count_hyphens s) 2); [|lia].
  rewrite deferred_assert_pass, Hn. reflexivity.
Qed.

Lemma separate_bundle cs tn nm ps m :
  name_chars cs = true -> cs <> "" ->
  separate_loop [bundle cs] tn nm ps m = Ret ((nm ++ [bundle cs])%list, ps) m.
Proof.
  intros Hn Hne. destruct cs as [|c cs]; [contradiction|].
  destruct (bundle_token _ _ Hn) as (Hc & Ht & _).
  unfold bundle. cbn [append]. rewrite separate_named_token by (rewrite ?Hc; auto; lia).
  reflexivity.
Qed.

Lemma separate_single_flags cs : forall tn nm ps m,
  name_chars cs = true ->
  separate_loop (single_flags cs) tn nm ps m
  = Ret ((nm ++ single_flags cs)%list, ps) m.
Proof.
  induction cs as [|c cs IH]; intros tn nm ps m Hn; cbn [single_flags].
  - rewrite app_nil_r. reflexivity.
  - cbn [name_chars] in Hn. apply andb_prop in Hn. destruct Hn as [Hc Hn].
    destruct (single_flag_token _ Hc) as (Hh & Ht & _ & _).
    cbn [append]. rewrite separate_named_token by (rewrite ?Hh; auto; lia).
    rewrite IH by exact Hn. rewrite <- app_assoc. reflexivity.
Qed.

Lemma split_bundle cs acc m :
  name_chars cs = true -> cs <> "" ->
  split_loop [bundle cs] acc m = Ret (acc ++ [(bundle cs, false)])%list m.
Proof.
  intros Hn Hne. destruct cs as [|c cs]; [contradiction|].
  destruct (bundle_token _ _ Hn) as (_ & _ & Hf).
  unfold bundle. cbn [append split_loop]. rewrite Hf. reflexivity.
Qed.

Lemma split_single_flags cs : forall acc m,
  name_chars cs = true ->
  split_loop (single_flags cs) acc m
  = Ret (acc ++ map (fun s => (s, false)) (single_flags cs))%list m.
Proof.
  induction cs as [|c cs IH]; intros acc m Hn; cbn [single_flags map].
  - rewrite app_nil_r. reflexivity.
  - cbn [name_chars] in Hn. apply andb_prop in Hn. destruct Hn as [Hc Hn].
    destruct (single_flag_token _ Hc) as (_ & _ & _ & Hf).
    cbn [append split_loop]. rewrite Hf. rewrite IH by exact Hn.
    rewrite <- app_assoc. reflexivity.
Qed.

Lemma assign_bundle cs args m :
  name_chars cs = true -> cs <> "" ->
  assign_loop [(bundle cs, false)] args m = Ret (args ++ flags_of cs)%list m.
Proof.
  intros Hn Hne. destruct cs as [|c cs]; [contradiction|].
  destruct (bundle_token _ _ Hn) as (Hh & _ & _).
  cbn [name_chars] in Hn. apply andb_prop in Hn. destruct Hn as [Hc _].
  destruct (name_char_inv _ Hc) as (Hd & _ & _).
  unfold bundle. cbn [append assign_loop]. rewrite Hh.
  cbn [Z.eqb Pos.eqb Z.to_nat Pos.to_nat Pos.iter_op].
  rewrite substr_from_1. unfold char_at. cbn [String.get]. rewrite Hd. reflexivity.
Qed.

Lemma assign_single_flags cs : forall args m,
  name_chars cs = true ->
  assign_loop (map (fun s => (s, false)) (single_flags cs)) args m
  = Ret (args ++ flags_of cs)%list m.
Proof.
  induction cs as [|c cs IH]; intros args m Hn; cbn [single_flags map flags_of].
  - rewrite app_nil_r. reflexivity.
  - cbn [name_chars] in Hn. apply andb_prop in Hn. destruct Hn as [Hc Hn].
    destruct (single_flag_token _ Hc) as (Hh & _ & _ & _).
    destruct (name_char_inv _ Hc) as (Hd & _ & _).
    cbn [append assign_loop]. rewrite Hh.
    cbn [Z.eqb Pos.eqb Z.to_nat Pos.to_nat Pos.iter_op].
    unfold string1 at 1. rewrite substr_from_1. unfold char_at. cbn [String.get].
    rewrite Hd. cbn [flags_of]. rewrite IH by exact Hn.
    rewrite <- app_assoc. reflexivity.
Qed.

(** With space assignment disabled, [to_named] is never read. *)
Lemma separate_loop_flag_unread l : forall tn tn' nm ps m,
  _space_assignment m = false ->
  separate_loop l tn nm ps m = separate_loop l tn' nm ps m.
Proof.
  induction l as [|s l IH]; intros tn tn' nm ps m Hsa; cbn [separate_loop];
    [reflexivity|].
  unfold bind, gets.
  destruct (deferred_assert _ _ _ m) as [b m0|] eqn:E; [|reflexivity].
  apply deferred_assert_config in E. destruct E as [Hsa0 _ _ _ _].
  rewrite Hsa0, Hsa. cbn [andb].
  destruct (is_named_token s); [reflexivity|]. apply IH. congruence.
Qed.

Lemma separate_loop_no_lookahead post tn tn' nm ps m :
  no_lookahead (_space_assignment m) post = true ->
  separate_loop post tn nm ps m = separate_loop post tn' nm ps m.
Proof.
  unfold no_lookahead. intros H. apply orb_prop in H. destruct H as [H|H].
  - apply separate_loop_flag_unread. apply negb_true_iff. exact H.
  - destruct post as [|s post]; [reflexivity|].
    cbn [separate_loop]. unfold bind, gets.
    destruct (deferred_assert _ _ _ m) as [b m0|]; [|reflexivity].
    rewrite H. reflexivity.
Qed.

Lemma frame_duplicates_inner name earlier : preserves frame (duplicates_inner name earlier).
Proof.
  induction earlier as [|[other v] earlier IH]; simpl; repeat first [apply IH | frame_step].
Qed.

Lemma frame_duplicates_outer earlier later :
  preserves frame (duplicates_outer earlier later).
Proof.
  revert earlier.
  induction later as [|e later IH]; intros; simpl;
    repeat first [apply IH | apply frame_duplicates_inner | frame_step].
Qed.

Lemma frame_reject_positional : preserves frame reject_positional.
Proof. unfold reject_positional. repeat frame_step. Qed.

(** After the assignment stage nothing of [parse] touches the named table. *)
Lemma parse_named exe raw m args m0 m' :
  (forall k : list (string * option string) -> M unit,
     bind (bind (separate_named_positional raw)
             (fun np =>
                modify (fun m => set_tables (_executable m) (snd np) (_named m) m) ;;
                split <- split_equations (fst np) ;;
                assign_named_values split)) k
       (set_tables exe (_positional m) (_named m) m)
     = k args m0) ->
  parse (exe :: raw) m = Ret tt m' ->
  _named m' = args.
Proof.
  intros Hstages Hp. unfold parse in Hp.
  apply bind_inv in Hp. destruct Hp as ([] & m1 & Hc & Htail).
  assert (F : frame m1 m').
  { revert Htail. apply frame_reject_positional. }
  rewrite (frame_named _ _ F). clear F Htail.
  unfold classify in Hc. cbn [hd tl] in Hc. rewrite bind_modify in Hc.
  specialize (Hstages (fun args =>
     modify (fun m => set_tables (_executable m) (_positional m) args m) ;;
     duplicates_outer [] args)).
  assert (Hc' : (modify (fun m => set_tables (_executable m) (_positional m) args m) ;;
                 duplicates_outer [] args) m0 = Ret tt m1).
  { rewrite <- Hstages, <- Hc. unfold bind.
    destruct (separate_named_positional raw _) as [np m2|]; [|reflexivity].
    destruct (modify _ m2) as [u m3|]; [|reflexivity].
    destruct (split_equations (fst np) m3) as [sp m4|]; [|reflexivity].
    reflexivity. }
  rewrite bind_modify in Hc'. apply frame_duplicates_outer in Hc'.
  rewrite (frame_named _ _ Hc'). reflexivity.
Qed.

Lemma lookup_named_flags cs id :
  (exists c, In c (list_ascii_of_string cs) /\ contains id (string1 c) = true) ->
  lookup_named (flags_of cs) id = Some ("", bool_t).
Proof.
  induction cs as [|d cs IH]; intros (c & Hin & Hc); [contradiction|].
  cbn [flags_of lookup_named].
  destruct (contains id (string1 d)) eqn:Hd; [reflexivity|].
  apply IH. destruct Hin as [-> | Hin]; [congruence|]. exists c. auto.
Qed.

(** C7. Anywhere on a command line, with no space-assignment lookahead in
    play after it, a single-hyphen token of one or more name characters
    (no digit, no hyphen, no '=') makes [parse] do exactly what the same
    characters do as single flags: the same tables, the same errors, the
    same termination. Alone on the command line it yields one named entry
    without value per character, and a query of an Identifier that
    contains one of the characters answers "flag present". *)
Theorem bundle_classifies_as_single_flags
    (cs exe : string) (pre post : list string) (m : _matcher) :
  name_chars cs = true ->
  cs <> "" ->
  (no_lookahead (_space_assignment m) post = true ->
   parse (exe :: pre ++ [bundle cs] ++ post) m
   = parse (exe :: pre ++ single_flags cs ++ post) m)
  /\ (forall m', parse [exe; bundle cs] m = Ret tt m' -> _named m' = flags_of cs)
  /\ (forall m', parse (exe :: single_flags cs) m = Ret tt m' -> _named m' = flags_of cs)
  /\ (_strict m = true -> exists m', parse [exe; bundle cs] m = Ret tt m')
  /\ (forall id c positional,
        In c (list_ascii_of_string cs) ->
        contains id (string1 c) = true ->
        resolve (flags_of cs) positional id = ("", bool_t)).
Proof.
  intros Hn Hne. split; [|split; [|split; [|split]]].
  - intros Hla.
    apply (parse_replace (_space_assignment m) [bundle cs] (single_flags cs)
             [bundle cs] (single_flags cs)
             [(bundle cs, false)] (map (fun s => (s, false)) (single_flags cs))).
    + intros. apply separate_bundle; assumption.
    + intros. apply separate_single_flags; assumption.
    + intros. apply split_bundle; assumption.
    + intros. apply split_single_flags; assumption.
    + intros. rewrite assign_bundle, assign_single_flags by assumption. reflexivity.
    + reflexivity.
    + intros tn nm ps m0 Hsa. apply separate_loop_no_lookahead. rewrite Hsa. exact Hla.
  - intros m'. eapply parse_named. intros k.
    unfold bind, separate_named_positional, split_equations, assign_named_values.
    rewrite separate_bundle by assumption. cbn [app fst snd modify].
    rewrite split_bundle by assumption. cbn [app].
    rewrite assign_bundle by assumption. reflexivity.
  - intros m'. eapply parse_named. intros k.
    unfold bind, separate_named_positional, split_equations, assign_named_values.
    rewrite separate_single_flags by assumption. cbn [app fst snd modify].
    rewrite split_single_flags by assumption. cbn [app].
    rewrite assign_single_flags by assumption. reflexivity.
  - intros Hs. destruct (returns_parse [exe; bundle cs] m Hs) as ([] & m' & H & _).
    exists m'. exact H.
  - intros id c positional Hin Hc. unfold resolve.
    rewrite lookup_named_flags; [reflexivity|]. exists c. auto.
Qed.

Lemma bundle_classifies_as_single_flags_witness :
  let m := configured 3 true true in
  name_chars "abc" = true
  /\ no_lookahead (_space_assignment m) ["--x"] = true
  /\ parse ["prog"; "-v"; "-abc"; "--x"] m
     = parse ["prog"; "-v"; "-a"; "-b"; "-c"; "--x"] m
  /\ (exists m', parse ["prog"; "-abc"] m = Ret tt m'
                 /\ _named m' = [("a", None); ("b", None); ("c", None)])
  /\ resolve [("a", None); ("b", None); ("c", None)] []
       (mk_identifier (Some "b") None None false "-b" "-b") = ("", bool_t).
Proof.
  intros m.
  destruct (bundle_classifies_as_single_flags "abc" "prog" ["-v"] ["--x"] m eq_refl
              ltac:(discriminate)) as (H1 & H2 & _ & _ & H4).
  split; [reflexivity|]. split; [reflexivity|].
  split; [exact (H1 eq_refl)|]. split.
  - eexists. split; [vm_compute; reflexivity|]. reflexivity.
  - apply (H4 _ "b"%char); [right; left; reflexivity | reflexivity].
Defined.

(** ** "--name=value" and "--name" "value" *)

Lemma string_length_app a b :
  String.length (a ++ b) = (String.length a + String.length b)%nat.
Proof. induction a as [|c a IH]; simpl; [reflexivity|]. rewrite IH. reflexivity. Qed.

Lemma substring_app_left a b : substring 0 (String.length a) (a ++ b) = a.
Proof. induction a as [|c a IH]; simpl; [destruct b|rewrite IH]; reflexivity. Qed.

Lemma substring_app_right a b n :
  substring (String.length a) n (a ++ b) = substring 0 n b.
Proof. induction a as [|c a IH]; simpl; [reflexivity | exact IH]. Qed.

Lemma count_hyphens_nat_before_eq name value :
  count_hyphens_nat name = O -> count_hyphens_nat (name ++ String "=" value) = O.
Proof.
  destruct name as [|c name]; [reflexivity|]. simpl.
  destruct (Ascii.eqb c "-"); [discriminate | reflexivity].
Qed.

Lemma find_eq_app name value :
  find "=" name = None -> find "=" (name ++ String "=" value) = Some (String.length name).
Proof.
  induction name as [|c name IH]; simpl; [reflexivity|].
  destruct (Ascii.eqb c "="); [discriminate|].
  destruct (find "=" name); [discriminate|]. intros _. rewrite IH; reflexivity.
Qed.

Lemma plain_name_inv name :
  plain_name name = true -> count_hyphens_nat name = O /\ find "=" name = None.
Proof.
  unfold plain_name, has_eq, count_hyphens. intros H. apply andb_prop in H.
  destruct H as [H1 H2]. apply andb_prop in H1. destruct H1 as [_ H1].
  apply Z.eqb_eq in H1. apply negb_true_iff in H2.
  split; [lia|]. destruct (find "=" name); [discriminate | reflexivity].
Qed.

Lemma plain_name_size name : plain_name name = true -> (2 <=? size name) = true.
Proof.
  unfold plain_name. intros H. apply andb_prop in H. destruct H as [H _].
  apply andb_prop in H. apply H.
Qed.

Lemma long_option_token name :
  plain_name name = true ->
  count_hyphens (long_option name) = 2
  /\ is_named_token (long_option name) = true
  /\ takes_value (long_option name) = true
  /\ find "=" (long_option name) = None.
Proof.
  intros H. destruct (plain_name_inv _ H) as [Hh Hf].
  assert (Hc : count_hyphens (long_option name) = 2).
  { unfold count_hyphens, long_option. cbn [append count_hyphens_nat].
    change (Ascii.eqb "-" "-") with true. cbv iota. rewrite Hh. reflexivity. }
  assert (Hfind : find "=" (long_option name) = None).
  { unfold long_option. cbn [append find]. change (Ascii.eqb "-" "=") with false.
    cbv iota. rewrite Hf. reflexivity. }
  split; [exact Hc|]. split; [|split; [|exact Hfind]].
  - unfold is_named_token. rewrite Hc. reflexivity.
  - unfold takes_value, has_eq. rewrite Hc, Hfind. reflexivity.
Qed.

Lemma assignment_token name value :
  plain_name name = true ->
  count_hyphens (assignment name value) = 2
  /\ is_named_token (assignment name value) = true
  /\ takes_value (assignment name value) = false
  /\ find "=" (assignment name value) = Some (S (S (String.length name)))
  /\ substr 0 (S (S (String.length name))) (assignment name value) = long_option name
  /\ substr_from (S (S (S (String.length name)))) (assignment name value) = value.
Proof.
  intros H. destruct (plain_name_inv _ H) as [Hh Hf].
  assert (Hc : count_hyphens (assignment name value) = 2).
  { unfold count_hyphens, assignment. cbn [append count_hyphens_nat].
    change (Ascii.eqb "-" "-") with true. cbv iota.
    rewrite (count_hyphens_nat_before_eq _ _ Hh). reflexivity. }
  assert (Hfind : find "=" (assignment name value) = Some (S (S (String.length name)))).
  { unfold assignment. cbn [append find]. change (Ascii.eqb "-" "=") with false.
    cbv iota. rewrite (find_eq_app _ _ Hf). reflexivity. }
  split; [exact Hc|]. split; [|split; [|split; [exact Hfind|split]]].
  - unfold is_named_token. rewrite Hc. reflexivity.
  - unfold takes_value, has_eq. rewrite Hfind. apply andb_false_r.
  - unfold substr, assignment, long_option. cbn [append substring].
    rewrite substring_app_left. reflexivity.
  - unfold substr_from, assignment. cbn [append String.length substring].
    rewrite string_length_app. cbn [String.length].
    replace (S (S (String.length name + S (String.length value)))
             - S (S (S (String.length name))))%nat
      with (String.length value) by lia.
    replace (S (String.length name)) with (String.length (name ++ "=")).
    + replace (name ++ String "=" value) with ((name ++ "=") ++ value).
      * rewrite substring_app_right. apply substring_all.
      * clear. induction name as [|c name IH]; simpl; [reflexivity|].
        rewrite IH. reflexivity.
    + rewrite string_length_app. simpl. lia.
Qed.

Lemma plain_value_inv value :
  plain_value value = true ->
  find "=" value = None
  /\ count_hyphens value <= 2
  /\ is_named_token value = false
  /\ (count_hyphens value = 0
      \/ (count_hyphens value = 1 /\ isdigit (char_at value 1) = true)).
Proof.
  unfold plain_value, has_eq. intros H. apply andb_prop in H. destruct H as [H1 H2].
  apply negb_true_iff in H1.
  assert (Hf : find "=" value = None) by (destruct (find "=" value); [discriminate | reflexivity]).
  split; [exact Hf|].
  apply orb_prop in H2. destruct H2 as [H2|H2].
  - apply Z.eqb_eq in H2. split; [lia|]. split; [|left; exact H2].
    unfold is_named_token. rewrite H2. reflexivity.
  - apply andb_prop in H2. destruct H2 as [H2 H3]. apply Z.eqb_eq in H2.
    split; [lia|]. split; [|right; split; assumption].
    unfold is_named_token. rewrite H2, H3. simpl. apply andb_false_r.
Qed.

Lemma set_back_last v args name old :
  set_back v (args ++ [(name, old)]) = (args ++ [(name, Some v)])%list.
Proof. unfold set_back. rewrite rev_unit, rev_involutive. reflexivity. Qed.

Lemma separate_assignment name value tn nm ps m :
  plain_name name = true ->
  separate_loop [assignment name value] tn nm ps m
  = Ret ((nm ++ [assignment name value])%list, ps) m.
Proof.
  intros Hn. destruct (assignment_token name value Hn) as (Hc & Ht & _).
  rewrite separate_named_token by (rewrite ?Hc; auto; lia). reflexivity.
Qed.

Lemma separate_option_value name value tn nm ps m :
  _space_assignment m = true ->
  plain_name name = true ->
  plain_value value = true ->
  separate_loop [long_option name; value] tn nm ps m
  = Ret ((nm ++ [long_option name; value])%list, ps) m.
Proof.
  intros Hsa Hn Hv. destruct (long_option_token name Hn) as (Hc & Ht & Htv & _).
  destruct (plain_value_inv _ Hv) as (_ & Hle & Hnt & _).
  rewrite separate_named_token by (rewrite ?Hc; auto; lia).
  cbn [separate_loop]. unfold bind, gets.
  destruct (Z.leb_spec (count_hyphens value) 2); [|lia].
  rewrite deferred_assert_pass, Hnt, Hsa, Htv. cbn [andb].
  rewrite <- app_assoc. reflexivity.
Qed.

Lemma split_assignment name value acc m :
  plain_name name = true ->
  split_loop [assignment name value] acc m
  = Ret (acc ++ [(long_option name, false); (value, true)])%list m.
Proof.
  intros Hn. destruct (assignment_token name value Hn) as (Hc & _ & _ & Hf & H1 & H2).
  cbn [split_loop]. rewrite Hf, Hc. unfold bind.
  rewrite orb_true_r, deferred_assert_pass. cbn [negb]. rewrite H1, H2. reflexivity.
Qed.

Lemma split_option_value name value acc m :
  plain_name name = true ->
  plain_value value = true ->
  split_loop [long_option name; value] acc m
  = Ret (acc ++ [(long_option name, false); (value, false)])%list m.
Proof.
  intros Hn Hv. destruct (long_option_token name Hn) as (_ & _ & _ & Hf).
  destruct (plain_value_inv _ Hv) as (Hfv & _).
  cbn [split_loop]. rewrite Hf, Hfv. rewrite <- app_assoc. reflexivity.
Qed.

Lemma assign_long_option name rest args m :
  plain_name name = true ->
  assign_loop ((long_option name, false) :: rest) args m
  = assign_loop rest (args ++ [(name, None)]) m.
Proof.
  intros Hn. destruct (long_option_token name Hn) as (Hc & _).
  cbn [assign_loop]. rewrite Hc. change (Z.to_nat 2) with 2%nat. cbn [Z.eqb Pos.eqb].
  replace (substr_from 2 (long_option name)) with name
    by (unfold long_option; cbn [append]; rewrite substr_from_2; reflexivity).
  unfold bind. rewrite (plain_name_size _ Hn), deferred_assert_pass. reflexivity.
Qed.

Lemma assign_assignment name value args m :
  plain_name name = true ->
  assign_loop [(long_option name, false); (value, true)] args m
  = Ret (args ++ [(name, Some value)])%list m.
Proof.
  intros Hn. rewrite assign_long_option by exact Hn.
  cbn [assign_loop]. rewrite set_back_last. reflexivity.
Qed.

Lemma assign_option_value name value args m :
  plain_name name = true ->
  plain_value value = true ->
  assign_loop [(long_option name, false); (value, false)] args m
  = Ret (args ++ [(name, Some value)])%list m.
Proof.
  intros Hn Hv. rewrite assign_long_option by exact Hn.
  destruct (plain_value_inv _ Hv) as (_ & _ & _ & [H0 | [H1 Hd]]).
  - cbn [assign_loop]. rewrite H0. cbn [Z.eqb Z.to_nat].
    rewrite substr_from_0, set_back_last. reflexivity.
  - cbn [assign_loop]. rewrite H1.
    cbn [Z.eqb Pos.eqb Z.to_nat Pos.to_nat Pos.iter_op].
    destruct value as [|c v]; [discriminate H1|].
    rewrite substr_from_1.
    unfold char_at in *. cbn [String.get] in Hd. rewrite Hd.
    rewrite set_back_last. reflexivity.
Qed.

(** C8, as the code has it. With space assignment enabled, for a long name
    (two or more characters, no leading hyphen, no '=') and a value that
    has no '=' and either no leading hyphen or one hyphen followed by a
    digit, "--name=value" and "--name" "value" are interchangeable
    anywhere on a command line: [parse] gives the same matcher, hence any
    query after it the same answer; alone, either form yields the single
    named entry (name, value). *)
Theorem assignment_forms_agree
    (name value exe : string) (pre post : list string) (m : _matcher) :
  _space_assignment m = true ->
  plain_name name = true ->
  plain_value value = true ->
  parse (exe :: pre ++ [assignment name value] ++ post) m
  = parse (exe :: pre ++ [long_option name; value] ++ post) m
  /\ (forall id,
        (parse (exe :: pre ++ [assignment name value] ++ post) ;;
         get_and_mark_as_queried id) m
        = (parse (exe :: pre ++ [long_option name; value] ++ post) ;;
           get_and_mark_as_queried id) m)
  /\ (forall m', parse [exe; assignment name value] m = Ret tt m' ->
                 _named m' = [(name, Some value)])
  /\ (forall m', parse [exe; long_option name; value] m = Ret tt m' ->
                 _named m' = [(name, Some value)])
  /\ (_strict m = true ->
      exists m', parse [exe; assignment name value] m = Ret tt m'
                 /\ parse [exe; long_option name; value] m = Ret tt m').
Proof.
  intros Hsa Hn Hv.
  assert (Hparse : forall pre0 post0,
            parse (exe :: pre0 ++ [assignment name value] ++ post0) m
            = parse (exe :: pre0 ++ [long_option name; value] ++ post0) m).
  { intros pre0 post0.
    destruct (assignment_token name value Hn) as (_ & Ht & Htv & _).
    destruct (long_option_token name Hn) as (_ & Ht' & Htv' & _).
    destruct (plain_value_inv _ Hv) as (_ & _ & Hnt & _).
    apply (parse_replace true [assignment name value] [long_option name; value]
             [assignment name value] [long_option name; value]
             [(long_option name, false); (value, true)]
             [(long_option name, false); (value, false)]).
    - intros. apply separate_assignment; assumption.
    - intros. apply separate_option_value; assumption.
    - intros. apply split_assignment; assumption.
    - intros. apply split_option_value; assumption.
    - intros. rewrite assign_assignment, assign_option_value by assumption. reflexivity.
    - exact Hsa.
    - intros tn nm ps m0 _. cbn [to_named_after].
      rewrite Ht, Htv, Ht', Htv', Hnt. reflexivity. }
  split; [apply Hparse|]. split; [|split; [|split]].
  - intros id. apply bind_same. apply Hparse.
  - intros m'. eapply parse_named. intros k.
    unfold bind, separate_named_positional, split_equations, assign_named_values.
    rewrite separate_assignment by assumption. cbn [app fst snd modify].
    rewrite split_assignment by assumption. cbn [app].
    rewrite assign_assignment by assumption. reflexivity.
  - intros m'. eapply parse_named. intros k.
    unfold bind, separate_named_positional, split_equations, assign_named_values.
    rewrite separate_option_value by assumption. cbn [app fst snd modify].
    rewrite split_option_value by assumption. cbn [app].
    rewrite assign_option_value by assumption. reflexivity.
  - intros Hs. destruct (returns_parse [exe; assignment name value] m Hs)
      as ([] & m' & H & _).
    exists m'. split; [exact H|]. rewrite <- H. symmetry. apply (Hparse [] []).
Qed.

Lemma assignment_forms_agree_witness :
  let m := configured 1 true true in
  _space_assignment m = true
  /\ plain_name "count" = true
  /\ plain_value "-5" = true
  /\ parse ["prog"; "-v"; "--count=-5"; "--x"] m
     = parse ["prog"; "-v"; "--count"; "-5"; "--x"] m
  /\ exists m', parse ["prog"; "--count"; "-5"] m = Ret tt m'
                /\ _named m' = [("count", Some "-5")].
Proof.
  intros m.
  destruct (assignment_forms_agree "count" "-5" "prog" ["-v"] ["--x"] m
              eq_refl eq_refl eq_refl) as (H1 & _ & _ & H4 & _).
  split; [reflexivity|]. split; [reflexivity|]. split; [reflexivity|].
  split; [exact H1|].
  eexists. split; [vm_compute; reflexivity|]. reflexivity.
Defined.

(** C8 as stated fails: a value that holds '=' is split once more when it
    comes as a token of its own, a value that starts like a named token
    opens a new entry, and a lone hyphen is dropped. *)
Lemma assignment_forms_counterexample :
  let m := configured 1 true true in
  let id := mk_identifier None (Some "name") None false "--name" "--name" in
  (exists m1 m2,
     parse ["prog"; "--name=a=b"] m = Ret tt m1
     /\ parse ["prog"; "--name"; "a=b"] m = Ret tt m2
     /\ _named m1 = [("name", Some "a=b")]
     /\ _named m2 = [("name", Some "b")]
     /\ resolve (_named m1) (_positional m1) id = ("a=b", string_t)
     /\ resolve (_named m2) (_positional m2) id = ("b", string_t))
  /\ (exists m1 m2,
        parse ["prog"; "--name=-v"] m = Ret tt m1
        /\ parse ["prog"; "--name"; "-v"] m = Ret tt m2
        /\ _named m1 = [("name", Some "-v")]
        /\ _named m2 = [("name", None); ("v", None)])
  /\ (exists m1 m2,
        parse ["prog"; "--name=-"] m = Ret tt m1
        /\ parse ["prog"; "--name"; "-"] m = Ret tt m2
        /\ _named m1 = [("name", Some "-")]
        /\ _named m2 = [("name", None)]).
Proof.
  intros m id. split; [|split].
  - eexists. eexists. split; [vm_compute; reflexivity|].
    split; [vm_compute; reflexivity|]. repeat split.
  - eexists. eexists. split; [vm_compute; reflexivity|].
    split; [vm_compute; reflexivity|]. repeat split.
  - eexists. eexists. split; [vm_compute; reflexivity|].
    split; [vm_compute; reflexivity|]. repeat split.
Qed.

(** * Further properties of the code *)

(** ** Identifiers *)

Lemma instant_assert_programmer pass msg m :
  String.eqb msg "" = false ->
  _instant_assert pass msg true m
  = if pass then Ret tt m else Exit _failure_code (programmer_error msg).
Proof.
  intros Hmsg. unfold _instant_assert. destruct pass; [reflexivity|].
  unfold exit. rewrite Hmsg. reflexivity.
Qed.

Lemma check_name_cases name m :
  (declarable name = true /\ _check_name name m = Ret tt m)
  \/ (declarable name = false
      /\ exists msg, _check_name name m = Exit _failure_code (programmer_error msg)).
Proof.
  unfold declarable, _check_name, bind.
  rewrite !instant_assert_programmer by reflexivity.
  destruct (count_hyphens name =? 0); [|right; split; [reflexivity | eexists; reflexivity]].
  rewrite instant_assert_programmer by reflexivity.
  destruct (1 <=? size name); [|right; split; [reflexivity | eexists; reflexivity]].
  rewrite instant_assert_programmer by reflexivity.
  destruct ((2 <=? size name) || negb (isdigit (char_at name 0)));
    [left | right]; split; try reflexivity. eexists; reflexivity.
Qed.

Lemma declarable_short_or_long name :
  declarable name = short_ok name || long_ok name.
Proof.
  unfold declarable, short_ok, long_ok.
  destruct (count_hyphens name =? 0); [|rewrite !andb_false_r; reflexivity].
  rewrite !andb_true_r. cbn [andb].
  destruct (Z.leb_spec 1 (size name)), (Z.leb_spec 2 (size name)),
    (Z.eqb_spec (size name) 1); cbn; try lia; try reflexivity.
  destruct (isdigit (char_at name 0)); reflexivity.
Qed.

(** What [identifier(const char* name)] returns. *)
Lemma identifier_name_inv name m id m' :
  identifier_name name m = Ret id m' ->
  m' = m /\ declarable name = true
  /\ id = {| _short_name := if size name =? 1 then Some name else None;
             _long_name := if size name =? 1 then None else Some name;
             _pos := None; _vector := false;
             _help := if size name =? 1 then "-" ++ name else "--" ++ name;
             _longer := if size name =? 1 then "-" ++ name else "--" ++ name |}.
Proof.
  unfold identifier_name, bind.
  destruct (check_name_cases name m) as [[Hd ->] | [_ [msg ->]]]; [|discriminate].
  intros H. inversion H. split; [reflexivity|]. split; [exact Hd|].
  destruct (size name =? 1); reflexivity.
Qed.

(** What [identifier(const char* n1, const char* n2)] returns: the shorter
    name as the short one. *)
Lemma identifier_names_inv n1 n2 m id m' :
  identifier_names n1 n2 m = Ret id m' ->
  m' = m /\ declarable n1 = true /\ declarable n2 = true
  /\ exists s l,
       ((s = n1 /\ l = n2) \/ (s = n2 /\ l = n1))
       /\ size s = 1 /\ 2 <= size l
       /\ id = {| _short_name := Some s; _long_name := Some l; _pos := None;
                  _vector := false;
                  _help := "-" ++ s ++ "|--" ++ l; _longer := "--" ++ l |}.
Proof.
  unfold identifier_names. unfold bind at 1.
  destruct (check_name_cases n1 m) as [[Hd1 ->] | [_ [msg ->]]]; [|discriminate].
  unfold bind at 1.
  destruct (check_name_cases n2 m) as [[Hd2 ->] | [_ [msg ->]]]; [|discriminate].
  cbv zeta. unfold bind.
  rewrite !instant_assert_programmer by reflexivity.
  destruct (Z.eqb_spec (size (if size n2 <? size n1 then n2 else n1)) 1) as [H1|];
    [|discriminate].
  rewrite instant_assert_programmer by reflexivity.
  destruct (Z.leb_spec 2 (size (if size n2 <? size n1 then n1 else n2))) as [H2|];
    [|discriminate].
  intros H. inversion H. split; [reflexivity|]. split; [exact Hd1|]. split; [exact Hd2|].
  destruct (size n2 <? size n1).
  - exists n2, n1. repeat split; auto.
  - exists n1, n2. repeat split; auto.
Qed.

Lemma declarable_sizes name :
  declarable name = true ->
  (size name = 1 -> short_ok name = true) /\ (2 <= size name -> long_ok name = true).
Proof.
  rewrite declarable_short_or_long. unfold short_ok, long_ok. intros H.
  split; intros Hs.
  - destruct (Z.leb_spec 2 (size name)); [lia|]. cbn [andb] in H.
    rewrite orb_false_r in H. exact H.
  - destruct (Z.eqb_spec (size name) 1); [lia|]. cbn [andb orb] in H. exact H.
Qed.

(** X1. Every Identifier a constructor returns is well formed and contains
    what it was built from; the constructors leave the matcher alone. *)
Theorem constructors_build_well_formed_identifiers :
  well_formed identifier_default = true
  /\ (forall pos, well_formed (identifier_pos pos) = true
                  /\ contains_pos (identifier_pos pos) pos = true)
  /\ (forall name m id m',
        identifier_name name m = Ret id m' ->
        m' = m /\ well_formed id = true /\ contains id name = true)
  /\ (forall n1 n2 m id m',
        identifier_names n1 n2 m = Ret id m' ->
        m' = m /\ well_formed id = true
        /\ contains id n1 = true /\ contains id n2 = true)
  /\ (forall pos help m id m',
        identifier_pos_help pos help m = Ret id m' ->
        m' = m /\ well_formed id = true /\ contains_pos id pos = true).
Proof.
  split; [reflexivity|]. split; [|split; [|split]].
  - intros pos. split; [reflexivity|]. unfold contains_pos. simpl. apply Z.eqb_refl.
  - intros name m id m' H. apply identifier_name_inv in H.
    destruct H as (-> & Hd & ->). split; [reflexivity|].
    destruct (declarable_sizes _ Hd) as [Hshort Hlong].
    unfold well_formed, contains. cbn.
    destruct (Z.eqb_spec (size name) 1) as [H1|H1]; cbn.
    + rewrite (Hshort H1), String.eqb_refl. split; reflexivity.
    + assert (H2 : 2 <= size name).
      { unfold declarable in Hd. apply andb_prop in Hd. destruct Hd as [Hd _].
        apply andb_prop in Hd. destruct Hd as [_ Hd]. apply Z.leb_le in Hd. lia. }
      rewrite (Hlong H2), String.eqb_refl. split; reflexivity.
  - intros n1 n2 m id m' H. apply identifier_names_inv in H.
    destruct H as (-> & Hd1 & Hd2 & s & l & Hsl & Hs & Hl & ->).
    split; [reflexivity|].
    assert (Hok : short_ok s = true /\ long_ok l = true).
    { destruct Hsl as [[-> ->] | [-> ->]].
      - split; [apply (declarable_sizes _ Hd1) | apply (declarable_sizes _ Hd2)];
          assumption.
      - split; [apply (declarable_sizes _ Hd2) | apply (declarable_sizes _ Hd1)];
          assumption. }
    destruct Hok as [Hsok Hlok].
    unfold well_formed, contains. cbn. rewrite Hsok, Hlok. cbn.
    destruct Hsl as [[-> ->] | [-> ->]]; rewrite !String.eqb_refl;
      rewrite ?orb_true_r; repeat split; reflexivity.
  - intros pos help m id m' H. unfold identifier_pos_help, bind in H.
    destruct (check_name_cases help m) as [[_ E] | [_ [msg E]]]; rewrite E in H;
      [|discriminate].
    inversion H. split; [reflexivity|]. split; [reflexivity|].
    unfold contains_pos. simpl. apply Z.eqb_refl.
Qed.

Lemma size_hyphen_first rest : count_hyphens (String "-" rest) <> 0.
Proof. unfold count_hyphens. cbn [count_hyphens_nat]. cbn. lia. Qed.

Lemma not_declarable name :
  (exists rest, name = String "-" rest) \/ name = ""
  \/ (exists d, isdigit d = true /\ name = string1 d) ->
  declarable name = false.
Proof.
  unfold declarable. intros [[rest ->] | [-> | [d [Hd ->]]]].
  - destruct (Z.eqb_spec (count_hyphens (String "-" rest)) 0) as [H|]; [|reflexivity].
    exfalso. exact (size_hyphen_first rest H).
  - reflexivity.
  - unfold string1, char_at, size. cbn [String.get String.length]. rewrite Hd.
    cbn. apply andb_false_r.
Qed.

Lemma identifier_names_undeclarable n1 n2 m :
  declarable n1 = false \/ declarable n2 = false ->
  exists msg, identifier_names n1 n2 m = Exit _failure_code (programmer_error msg).
Proof.
  intros H. unfold identifier_names. unfold bind at 1.
  destruct (check_name_cases n1 m) as [[Hd1 ->] | [_ [msg ->]]];
    [|exists msg; reflexivity].
  unfold bind at 1.
  destruct (check_name_cases n2 m) as [[Hd2 ->] | [_ [msg ->]]];
    [|exists msg; reflexivity].
  destruct H; congruence.
Qed.

(** X2. A name with a leading hyphen, an empty name and a name that is a
    single digit are refused by every constructor that takes a name: the
    process terminates at once with a programmer-side line, whatever the
    matcher holds. *)
Theorem malformed_name_is_fatal (name : string) (m : _matcher) :
  (exists rest, name = String "-" rest) \/ name = ""
  \/ (exists d, isdigit d = true /\ name = string1 d) ->
  (exists msg, identifier_name name m = Exit _failure_code (programmer_error msg))
  /\ (forall other, exists msg,
        identifier_names name other m = Exit _failure_code (programmer_error msg))
  /\ (forall other, exists msg,
        identifier_names other name m = Exit _failure_code (programmer_error msg))
  /\ (forall pos, exists msg,
        identifier_pos_help pos name m = Exit _failure_code (programmer_error msg)).
Proof.
  intros H. apply not_declarable in H.
  assert (Hc : exists msg, _check_name name m = Exit _failure_code (programmer_error msg)).
  { destruct (check_name_cases name m) as [[Hd _] | [_ Hx]]; [congruence | exact Hx]. }
  destruct Hc as [msg Hc]. split; [|split; [|split]].
  - exists msg. unfold identifier_name, bind. rewrite Hc. reflexivity.
  - intros other. apply identifier_names_undeclarable. left. exact H.
  - intros other. apply identifier_names_undeclarable. right. exact H.
  - intros pos. exists msg. unfold identifier_pos_help, bind. rewrite Hc. reflexivity.
Qed.

Lemma malformed_name_is_fatal_witness :
  (exists msg, identifier_name "-v" _matcher_default
               = Exit _failure_code (programmer_error msg))
  /\ (exists msg, identifier_names "7" "seven" _matcher_default
                  = Exit _failure_code (programmer_error msg)).
Proof.
  split.
  - apply (malformed_name_is_fatal "-v" _matcher_default).
    left. exists "v". reflexivity.
  - apply (malformed_name_is_fatal "7" _matcher_default).
    right. right. exists "7"%char. split; reflexivity.
Defined.

Lemma identifier_names_built s l a b m :
  declarable s = true -> declarable l = true ->
  size s = 1 -> 2 <= size l ->
  (a = s /\ b = l) \/ (a = l /\ b = s) ->
  identifier_names a b m
  = Ret {| _short_name := Some s; _long_name := Some l; _pos := None;
           _vector := false;
           _help := "-" ++ s ++ "|--" ++ l; _longer := "--" ++ l |} m.
Proof.
  intros Hds Hdl Hs Hl Hab.
  assert (Hca : _check_name a m = Ret tt m /\ _check_name b m = Ret tt m).
  { destruct (check_name_cases s m) as [[_ Es] | [F _]]; [|congruence].
    destruct (check_name_cases l m) as [[_ El] | [F _]]; [|congruence].
    destruct Hab as [[-> ->] | [-> ->]]; split; assumption. }
  destruct Hca as [Ha Hb].
  unfold identifier_names. unfold bind at 1. rewrite Ha.
  unfold bind at 1. rewrite Hb. cbv zeta. unfold bind.
  rewrite !instant_assert_programmer by reflexivity.
  destruct Hab as [[-> ->] | [-> ->]].
  - destruct (Z.ltb_spec (size l) (size s)); [lia|].
    destruct (Z.eqb_spec (size s) 1); [|lia].
    rewrite instant_assert_programmer by reflexivity.
    destruct (Z.leb_spec 2 (size l)); [reflexivity|lia].
  - destruct (Z.ltb_spec (size s) (size l)); [|lia].
    destruct (Z.eqb_spec (size s) 1); [|lia].
    rewrite instant_assert_programmer by reflexivity.
    destruct (Z.leb_spec 2 (size l)); [reflexivity|lia].
Qed.

(** X3. The constructor of two names does not care about their order:
    whenever it returns, one name is a single character and the other is
    longer, and the same two names the other way round give the same
    Identifier. *)
Theorem identifier_names_in_either_order
    (n1 n2 : string) (m : _matcher) (id : identifier) (m' : _matcher) :
  identifier_names n1 n2 m = Ret id m' ->
  identifier_names n2 n1 m = Ret id m'
  /\ ((size n1 = 1 /\ 2 <= size n2) \/ (size n2 = 1 /\ 2 <= size n1)).
Proof.
  intros H. apply identifier_names_inv in H.
  destruct H as (-> & Hd1 & Hd2 & s & l & Hsl & Hs & Hl & ->).
  split.
  - apply identifier_names_built; try assumption.
    + destruct Hsl as [[-> _] | [-> _]]; assumption.
    + destruct Hsl as [[_ ->] | [_ ->]]; assumption.
    + destruct Hsl as [[-> ->] | [-> ->]]; auto.
  - destruct Hsl as [[-> ->] | [-> ->]]; auto.
Qed.

Lemma identifier_names_in_either_order_witness :
  identifier_names "help" "h" _matcher_default = Ret help_identifier _matcher_default
  /\ identifier_names "h" "help" _matcher_default = Ret help_identifier _matcher_default.
Proof.
  split; [reflexivity|].
  apply (identifier_names_in_either_order "help" "h" _matcher_default). reflexivity.
Defined.

Lemma short_long_sizes s l : short_ok s = true -> long_ok l = true -> s <> l.
Proof.
  unfold short_ok, long_ok. intros Hs Hl ->.
  apply andb_prop in Hs. destruct Hs as [Hs _]. apply andb_prop in Hs.
  destruct Hs as [Hs _]. apply andb_prop in Hl. destruct Hl as [Hl _].
  apply Z.eqb_eq in Hs. apply Z.leb_le in Hl. lia.
Qed.

(** X4. Two well-formed Identifiers overlap exactly when some token could
    be claimed by both: a name that both contain, or a position that both
    contain. *)
Theorem overlaps_iff_shared_claim (a b : identifier) :
  well_formed a = true ->
  well_formed b = true ->
  (overlaps a b = true <->
   (exists name, contains a name = true /\ contains b name = true)
   \/ (exists pos, contains_pos a pos = true /\ contains_pos b pos = true)).
Proof.
  unfold well_formed, overlaps, contains, contains_pos. intros Ha Hb.
  apply andb_prop in Ha. destruct Ha as [Ha _]. apply andb_prop in Ha.
  destruct Ha as [Ha _]. apply andb_prop in Ha. destruct Ha as [Has Hal].
  apply andb_prop in Hb. destruct Hb as [Hb _]. apply andb_prop in Hb.
  destruct Hb as [Hb _]. apply andb_prop in Hb. destruct Hb as [Hbs Hbl].
  split.
  - intros H. apply orb_prop in H. destruct H as [H|H];
      [apply orb_prop in H; destruct H as [H|H]|].
    + destruct (_long_name a) as [x|], (_long_name b) as [y|]; try discriminate.
      apply String.eqb_eq in H. subst y. left. exists x.
      rewrite String.eqb_refl, !orb_true_r. auto.
    + destruct (_short_name a) as [x|], (_short_name b) as [y|]; try discriminate.
      apply String.eqb_eq in H. subst y. left. exists x.
      rewrite String.eqb_refl. auto.
    + destruct (_pos a) as [x|], (_pos b) as [y|]; try discriminate.
      apply Z.eqb_eq in H. subst y. right. exists x. rewrite Z.eqb_refl. auto.
  - intros [[name [H1 H2]] | [pos [H1 H2]]].
    + destruct (_short_name a) as [sa|], (_long_name a) as [la|],
        (_short_name b) as [sb|], (_long_name b) as [lb|];
        cbn [orb] in *; rewrite ?orb_false_r in *; try discriminate;
        repeat match goal with
               | H : _ || _ = true |- _ => apply orb_prop in H; destruct H as [H|H]
               | H : String.eqb _ _ = true |- _ => apply String.eqb_eq in H
               end; subst;
        rewrite ?String.eqb_refl, ?orb_true_r; try reflexivity;
        exfalso;
        first [ eapply (short_long_sizes _ _ Has Hbl); reflexivity
              | eapply (short_long_sizes _ _ Hbs Hal); reflexivity ].
    + destruct (_pos a) as [x|], (_pos b) as [y|]; try discriminate.
      apply Z.eqb_eq in H1, H2. subst. rewrite Z.eqb_refl. apply orb_true_r.
Qed.

Lemma overlaps_iff_shared_claim_witness :
  overlaps help_identifier
    (mk_identifier None (Some "help") None false "--help" "--help") = true.
Proof.
  apply (overlaps_iff_shared_claim help_identifier
           (mk_identifier None (Some "help") None false "--help" "--help")
           eq_refl eq_refl).
  left. exists "help". split; reflexivity.
Defined.


(** X5. [identifier::operator<] is a strict weak order, as [_first] and
    [std::sort] need of it: irreflexive, asymmetric, transitive, and with a
    transitive incomparability. *)
Theorem identifier_lt_strict_weak_order :
  (forall a, identifier_lt a a = false)
  /\ (forall a b, identifier_lt a b = true -> identifier_lt b a = false)
  /\ (forall a b c, identifier_lt a b = true -> identifier_lt b c = true ->
                    identifier_lt a c = true)
  /\ (forall a b c,
        identifier_lt a b = false -> identifier_lt b a = false ->
        identifier_lt b c = false -> identifier_lt c b = false ->
        identifier_lt a c = false /\ identifier_lt c a = false).
Proof.
  split; [exact identifier_lt_irrefl|]. split; [|split].
  - intros a b Hab. destruct (identifier_lt b a) eqn:Hba; [|reflexivity].
    pose proof (identifier_lt_trans _ _ _ Hab Hba) as H.
    rewrite identifier_lt_irrefl in H. discriminate H.
  - exact identifier_lt_trans.
  - intros a b c Hab Hba Hbc Hcb. split.
    + exact (identifier_ge_trans _ _ _ Hab Hbc).
    + exact (identifier_ge_trans _ _ _ Hcb Hba).
Qed.

(** ** [count_hyphens] *)

Lemma count_hyphens_nat_le s : (count_hyphens_nat s <= String.length s)%nat.
Proof.
  induction s as [|c s IH]; simpl; [lia|].
  destruct (Ascii.eqb c "-"); lia.
Qed.

Lemma count_hyphens_nat_prefix s i :
  (i < count_hyphens_nat s)%nat -> char_at s i = "-"%char.
Proof.
  revert i. induction s as [|c s IH]; simpl; intros i Hi; [lia|].
  destruct (Ascii.eqb_spec c "-") as [->|]; [|lia].
  destruct i as [|i]; [reflexivity|].
  unfold char_at in *. simpl. apply IH. lia.
Qed.

Lemma count_hyphens_nat_stop s : char_at s (count_hyphens_nat s) <> "-"%char.
Proof.
  induction s as [|c s IH]; simpl; [discriminate|].
  destruct (Ascii.eqb_spec c "-") as [->|Hc].
  - unfold char_at in *. simpl. exact IH.
  - unfold char_at. simpl. exact Hc.
Qed.

(** X6. [count_hyphens] is the length of the longest prefix of hyphens: it
    never exceeds the size of the string, every character before it is a
    hyphen, and the character at it (the null character at the end of the
    string) is not. *)
Theorem count_hyphens_is_the_hyphen_prefix (s : string) :
  0 <= count_hyphens s <= size s
  /\ (forall i : nat, Z.of_nat i < count_hyphens s -> char_at s i = "-"%char)
  /\ char_at s (Z.to_nat (count_hyphens s)) <> "-"%char.
Proof.
  unfold count_hyphens, size. split; [|split].
  - pose proof (count_hyphens_nat_le s). lia.
  - intros i Hi. apply count_hyphens_nat_prefix. lia.
  - rewrite Nat2Z.id. apply count_hyphens_nat_stop.
Qed.

(** ** The final check *)

Lemma listing_empty {A : Type} (show : A -> string) (l : list A) :
  String.eqb (listing show l) "" = match l with [] => true | _ => false end.
Proof. destruct l; reflexivity. Qed.

Lemma string_app_assoc (a b c : string) : ((a ++ b) ++ c)%string = (a ++ b ++ c)%string.
Proof. induction a as [|x a IH]; simpl; [reflexivity|]. rewrite IH. reflexivity. Qed.

Lemma string_app_empty (a : string) : (a ++ "")%string = a.
Proof. induction a as [|x a IH]; simpl; [reflexivity|]. rewrite IH. reflexivity. Qed.

Lemma scan_unclaimed {A : Type} (claimed : A -> bool) (show : A -> string)
    (l : list A) (n : Z) (s : string) :
  fold_left (fun (acc : Z * string) (x : A) =>
               if claimed x then acc
               else (fst acc + 1, (snd acc ++ " " ++ show x)%string))
    l (n, s)
  = (n + Z.of_nat (List.length (filter (fun x => negb (claimed x)) l)),
     (s ++ listing show (filter (fun x => negb (claimed x)) l))%string).
Proof.
  revert n s. induction l as [|x l IH]; intros n s; simpl.
  - rewrite string_app_empty. f_equal. lia.
  - destruct (claimed x); simpl.
    + apply IH.
    + rewrite IH. cbn [fst snd]. f_equal; [lia|].
      rewrite string_app_assoc. reflexivity.
Qed.

Lemma report_spec msg m :
  String.eqb msg "" = false ->
  (deferred_assert identifier_default false msg ;; ret tt) m = report msg m.
Proof.
  intros Hmsg. unfold bind. rewrite deferred_assert_fail by exact Hmsg.
  unfold report. destruct (_strict m); reflexivity.
Qed.

Lemma check_named_outcome m :
  check_named m =
  match unclaimed_named m with
  | [] => Ret tt m
  | l => report ("invalid argument" ++ plural l ++ listing prepend_hyphens l) m
  end.
Proof.
  unfold check_named. unfold bind at 1. unfold gets at 1.
  unfold bind at 1. unfold gets at 1. cbv zeta.
  rewrite (scan_unclaimed (fun it => queried_contains (_queried m) (fst it))
             (fun it => prepend_hyphens (fst it)) (_named m) 0 "").
  cbn [fst snd].
  assert (Hl : forall l : list (string * option string),
             listing (fun it => prepend_hyphens (fst it)) l
             = listing prepend_hyphens (map fst l)).
  { induction l as [|x l IH]; simpl; [reflexivity|]. rewrite IH. reflexivity. }
  assert (Hf : forall l : list (string * option string),
             map fst (filter (fun x => negb (queried_contains (_queried m) (fst x))) l)
             = filter (fun name => negb (queried_contains (_queried m) name)) (map fst l)).
  { induction l as [|x l IH]; simpl; [reflexivity|].
    destruct (queried_contains (_queried m) (fst x)); simpl; rewrite IH; reflexivity. }
  rewrite Hl, Hf. fold (unclaimed_named m).
  change ("" ++ listing prepend_hyphens (unclaimed_named m))%string
    with (listing prepend_hyphens (unclaimed_named m)).
  replace (List.length (filter (fun x => negb (queried_contains (_queried m) (fst x)))
                          (_named m)))
    with (List.length (unclaimed_named m))
    by (unfold unclaimed_named; rewrite <- Hf, length_map; reflexivity).
  rewrite listing_empty.
  destruct (unclaimed_named m) as [|x l] eqn:Hu.
  - unfold bind. rewrite deferred_assert_pass. reflexivity.
  - apply report_spec. reflexivity.
Qed.

Lemma check_positional_outcome m :
  check_positional m =
  match unclaimed_positional m with
  | [] => Ret tt m
  | l => report ("invalid positional argument" ++ plural l
                 ++ listing (fun i => to_string (Z.of_nat i)) l) m
  end.
Proof.
  unfold check_positional. unfold bind at 1. unfold gets at 1.
  unfold bind at 1. unfold gets at 1. cbv zeta.
  rewrite (scan_unclaimed (fun i => queried_contains_pos (_queried m) (Z.of_nat i))
             (fun i => to_string (Z.of_nat i)) (seq 0 (List.length (_positional m))) 0 "").
  cbn [fst snd]. fold (unclaimed_positional m).
  change ("" ++ listing (fun i => to_string (Z.of_nat i)) (unclaimed_positional m))%string
    with (listing (fun i => to_string (Z.of_nat i)) (unclaimed_positional m)).
  rewrite listing_empty.
  destruct (unclaimed_positional m) as [|x l] eqn:Hu.
  - unfold bind. rewrite deferred_assert_pass. reflexivity.
  - apply report_spec. reflexivity.
Qed.

(** X7. [check_named] reports exactly the named entries no queried
    Identifier contains: with none it leaves the matcher as it is; otherwise
    it raises, as an error of the vector sentinel, "invalid argument"
    (plural for two or more) followed by these names in table order, each
    with its hyphens, deferred in strict mode and fatal otherwise. *)
Theorem check_named_reports_the_unclaimed_names (m : _matcher) :
  check_named m =
  match unclaimed_named m with
  | [] => Ret tt m
  | l => report ("invalid argument" ++ plural l ++ listing prepend_hyphens l) m
  end.
Proof. exact (check_named_outcome m). Qed.

(** X8. [check_positional] reports exactly the indices of the positional
    sequence no queried Identifier contains, in increasing order, as
    "invalid positional argument" (plural for two or more) under the
    vector sentinel; with none it leaves the matcher as it is. *)
Theorem check_positional_reports_the_unclaimed_indices (m : _matcher) :
  check_positional m =
  match unclaimed_positional m with
  | [] => Ret tt m
  | l => report ("invalid positional argument" ++ plural l
                 ++ listing (fun i => to_string (Z.of_nat i)) l) m
  end.
Proof. exact (check_positional_outcome m). Qed.

Lemma check_after_countdown (dec : bool) m :
  _strict m = true ->
  _main_argc m - (if dec then 1 else 0) <= 0 ->
  check dec m = flush (set_main_argc (_main_argc m - (if dec then 1 else 0)) m).
Proof.
  intros Hs Hn. rewrite check_spec. rewrite Hs. cbv zeta.
  change (_main_argc (set_main_argc (_main_argc m - (if dec then 1 else 0)) m))
    with (_main_argc m - (if dec then 1 else 0)).
  destruct (Z.ltb_spec 0 (_main_argc m - (if dec then 1 else 0))); [lia|].
  reflexivity.
Qed.

Lemma flush_cases m :
  _strict m = true ->
  _help_flag m = false ->
  exists msg,
    flush m = if all_claimed m && _empty (_deferred_error m) then Ret tt m
              else Exit _failure_code (user_error msg).
Proof.
  intros Hs Hh. unfold flush. unfold bind at 1. unfold gets at 1. rewrite Hh.
  unfold bind at 1. rewrite check_named_outcome.
  unfold all_claimed.
  destruct (unclaimed_named m) as [|x l] eqn:Hn.
  - unfold bind at 1. rewrite check_positional_outcome.
    destruct (unclaimed_positional m) as [|y k] eqn:Hp.
    + unfold bind, gets. simpl.
      destruct (_empty (_deferred_error m)); simpl.
      * exists ""%string. reflexivity.
      * eexists. reflexivity.
    + unfold report. rewrite Hs. unfold bind, gets. simpl.
      rewrite first_set_full. simpl. eexists. reflexivity.
  - unfold report at 1. rewrite Hs.
    set (m1 := set_deferred_error _ m).
    assert (He1 : _empty (_deferred_error m1) = false)
      by (unfold m1; simpl; apply first_set_full).
    assert (Hs1 : _strict m1 = true) by exact Hs.
    unfold bind at 1. rewrite check_positional_outcome.
    destruct (unclaimed_positional m1) as [|y k].
    + unfold bind, gets. rewrite He1. simpl. eexists. reflexivity.
    + unfold report. rewrite Hs1. unfold bind, gets. simpl.
      rewrite first_set_full. simpl. eexists. reflexivity.
Qed.

Lemma flush_outcome m :
  _strict m = true ->
  _help_flag m = false ->
  (all_claimed m && _empty (_deferred_error m) = true -> flush m = Ret tt m)
  /\ (all_claimed m && _empty (_deferred_error m) = false ->
      exists msg, flush m = Exit _failure_code (user_error msg)).
Proof.
  intros Hs Hh. destruct (flush_cases m Hs Hh) as [msg E]. split; intros H.
  - rewrite E, H. reflexivity.
  - exists msg. rewrite E, H. reflexivity.
Qed.

(** X9. When the countdown of a strict run has reached its end and help was
    not asked for, [check] returns, changing nothing but the countdown,
    exactly when every named entry and every positional index has been
    claimed by a query and the Deferred Error Slot is empty; in every other
    case the process terminates with status 1 and one error line. *)
Theorem final_check_passes_iff_all_claimed (dec : bool) (m : _matcher) :
  _strict m = true ->
  _help_flag m = false ->
  _main_argc m - (if dec then 1 else 0) <= 0 ->
  (all_claimed m && _empty (_deferred_error m) = true ->
   check dec m = Ret tt (set_main_argc (_main_argc m - (if dec then 1 else 0)) m))
  /\ (all_claimed m && _empty (_deferred_error m) = false ->
      exists msg, check dec m = Exit _failure_code (user_error msg)).
Proof.
  intros Hs Hh Hn. rewrite (check_after_countdown dec m Hs Hn).
  apply (flush_outcome (set_main_argc (_main_argc m - (if dec then 1 else 0)) m)).
  - exact Hs.
  - exact Hh.
Qed.

Lemma final_check_passes_iff_all_claimed_witness :
  exists msg,
    check true (mk_matcher "prog" ["in.txt"] [("v", None)]
                  [mk_identifier (Some "v") None None false "-v" "-v"]
                  (mk_first identifier_default "" true) 1 false true false)
    = Exit _failure_code (user_error msg).
Proof.
  apply (final_check_passes_iff_all_claimed true
           (mk_matcher "prog" ["in.txt"] [("v", None)]
              [mk_identifier (Some "v") None None false "-v" "-v"]
              (mk_first identifier_default "" true) 1 false true false)
           eq_refl eq_refl).
  - simpl. lia.
  - reflexivity.
Defined.


(** ** The duplicate scan of [parse] *)








(** ** Positional queries *)

(** X11. With space assignment disabled and no overlapping earlier query,
    an Identifier that carries only a positional index below the length of
    the positional sequence is answered with the token at that index, and
    with "absent" when the index is negative: converted to [size_t], a
    negative [int] lies past every sequence a command line can give. *)
Theorem positional_query_returns_the_token (m : _matcher) (id : identifier) (i : Z) :
  _space_assignment m = false ->
  existsb (fun it => overlaps it id) (_queried m) = false ->
  _short_name id = None ->
  _long_name id = None ->
  _pos id = Some i ->
  - INT_MAX - 1 <= i < Z.of_nat (List.length (_positional m)) ->
  Z.of_nat (List.length (_positional m)) <= INT_MAX ->
  get_and_mark_as_queried id m
  = Ret (if 0 <=? i then (nth (Z.to_nat i) (_positional m) "", string_t)
         else ("", none_t))
        (mark_as_queried id m).
Proof.
  intros Hsa Hq Hsn Hln Hp Hi Hlen.
  rewrite get_and_mark_as_queried_spec, Hsa, Hq. simpl. f_equal.
  unfold resolve. rewrite lookup_named_nameless by assumption.
  rewrite Hp. unfold size_t_of_int, INT_MAX in *.
  destruct (Z.leb_spec 0 i) as [Hnn|Hneg].
  - rewrite Z.mod_small by lia.
    destruct (Z.leb_spec (Z.of_nat (List.length (_positional m))) i); [lia|reflexivity].
  - replace (i mod 2 ^ 64) with (i + 2 ^ 64)
      by (apply (Z.mod_unique _ _ (-1)); lia).
    destruct (Z.leb_spec (Z.of_nat (List.length (_positional m))) (i + 2 ^ 64));
      [reflexivity|lia].
Qed.

Lemma positional_query_returns_the_token_witness :
  get_and_mark_as_queried (identifier_pos 1)
    (mk_matcher "prog" ["a.txt"; "b.txt"] [] []
       (mk_first identifier_default "" true) 1 false true false)
  = Ret ("b.txt", string_t)
        (mark_as_queried (identifier_pos 1)
           (mk_matcher "prog" ["a.txt"; "b.txt"] [] []
              (mk_first identifier_default "" true) 1 false true false)).
Proof.
  apply (positional_query_returns_the_token
           (mk_matcher "prog" ["a.txt"; "b.txt"] [] []
              (mk_first identifier_default "" true) 1 false true false)
           (identifier_pos 1) 1 eq_refl eq_refl eq_refl eq_refl eq_refl).
  - unfold INT_MAX. simpl. lia.
  - unfold INT_MAX. simpl. lia.
Defined.


(** ** The classifier, stage by stage *)

Lemma deferred_assert_returns id pass msg m :
  _strict m = true \/ pass = true ->
  exists m', deferred_assert id pass msg m = Ret pass m' /\ same_config m m'
             /\ (pass = true -> m' = m).
Proof.
  intros [Hs | ->].
  - rewrite deferred_assert_strict by exact Hs. eexists. split; [reflexivity|].
    split.
    + destruct pass; [apply same_config_refl | apply same_config_deferred_error].
    + intros ->. reflexivity.
  - rewrite deferred_assert_pass. exists m. split; [reflexivity|].
    split; [apply same_config_refl | reflexivity].
Qed.

Lemma separate_loop_partition raw : forall tn nm ps m,
  _strict m = true \/ Forall (fun s => count_hyphens s <= 2) raw ->
  exists named positional m',
    separate_loop raw tn nm ps m = Ret ((nm ++ named)%list, (ps ++ positional)%list) m'
    /\ same_config m m'
    /\ Permutation raw (named ++ positional)
    /\ Forall (fun s => is_named_token s = false) positional
    /\ values_follow_names tn named = true
    /\ (_space_assignment m = false ->
        named = filter is_named_token raw
        /\ positional = filter (fun s => negb (is_named_token s)) raw).
Proof.
  induction raw as [|s raw IH]; intros tn nm ps m Hok.
  - exists [], [], m. rewrite !app_nil_r. simpl.
    repeat split; auto using same_config_refl.
  - cbn [separate_loop]. unfold bind at 1.
    destruct (deferred_assert_returns identifier_default (count_hyphens s <=? 2)
                ("too many hyphens: " ++ s) m) as (m0 & -> & C0 & _).
    { destruct Hok as [Hs|Hf]; [left; exact Hs|right].
      inversion Hf; subst. apply Z.leb_le. assumption. }
    assert (Hok0 : _strict m0 = true \/ Forall (fun s => count_hyphens s <= 2) raw).
    { destruct Hok as [Hs|Hf].
      - left. rewrite (config_strict _ _ C0). exact Hs.
      - right. inversion Hf; assumption. }
    unfold bind, gets. rewrite (config_space_assignment _ _ C0).
    destruct (is_named_token s) eqn:Hn.
    + destruct (IH (takes_value s) (nm ++ [s])%list ps m0 Hok0)
        as (named & positional & m' & E & C & P & F & V & S).
      exists (s :: named), positional, m'. rewrite E, <- app_assoc.
      split; [reflexivity|]. split; [eapply same_config_trans; eassumption|].
      split; [simpl; constructor; exact P|]. split; [exact F|].
      split; [simpl; rewrite Hn; exact V|].
      intros Hsa. rewrite (config_space_assignment _ _ C0) in S.
      destruct (S Hsa) as [-> ->]. simpl. rewrite Hn. simpl. auto.
    + destruct (_space_assignment m) eqn:Hsa; simpl.
      * destruct tn.
        -- destruct (IH false (nm ++ [s])%list ps m0 Hok0)
             as (named & positional & m' & E & C & P & F & V & S).
           exists (s :: named), positional, m'. rewrite E, <- app_assoc.
           split; [reflexivity|]. split; [eapply same_config_trans; eassumption|].
           split; [simpl; constructor; exact P|]. split; [exact F|].
           split; [simpl; rewrite Hn; exact V|].
           intros H. discriminate H.
        -- destruct (IH false nm (ps ++ [s])%list m0 Hok0)
             as (named & positional & m' & E & C & P & F & V & S).
           exists named, (s :: positional), m'. rewrite E, <- app_assoc.
           split; [reflexivity|]. split; [eapply same_config_trans; eassumption|].
           split; [apply Permutation_cons_app; exact P|].
           split; [constructor; assumption|]. split; [exact V|].
           intros H. discriminate H.
      * destruct (IH tn nm (ps ++ [s])%list m0 Hok0)
          as (named & positional & m' & E & C & P & F & V & S).
        exists named, (s :: positional), m'. rewrite E, <- app_assoc.
        split; [reflexivity|]. split; [eapply same_config_trans; eassumption|].
        split; [apply Permutation_cons_app; exact P|].
        split; [constructor; assumption|]. split; [exact V|].
        intros _. rewrite (config_space_assignment _ _ C0) in S.
        destruct (S Hsa) as [-> ->]. simpl. rewrite Hn. simpl. auto.
Qed.

(** X12. In strict mode, and without it when no token has more than two
    hyphens, [separate_named_positional] returns and sorts every raw token
    into exactly one of its two lists; no named token goes to the
    positional list, and with space assignment disabled the two lists are
    the named tokens and the other tokens, each in command-line order. *)
Theorem separate_sorts_every_token (raw : list string) (m : _matcher) :
  _strict m = true \/ Forall (fun s => count_hyphens s <= 2) raw ->
  exists named positional m',
    separate_named_positional raw m = Ret (named, positional) m'
    /\ Permutation raw (named ++ positional)
    /\ Forall (fun s => is_named_token s = false) positional
    /\ (_space_assignment m = false ->
        named = filter is_named_token raw
        /\ positional = filter (fun s => negb (is_named_token s)) raw).
Proof.
  intros Hok.
  destruct (separate_loop_partition raw false [] [] m Hok)
    as (named & positional & m' & E & _ & P & F & _ & S).
  exists named, positional, m'. auto.
Qed.

Lemma separate_sorts_every_token_witness :
  exists named positional m',
    separate_named_positional ["-v"; "in.txt"; "--out=x"; "7"] (configured 0 false true)
    = Ret (named, positional) m'
    /\ named = ["-v"; "--out=x"] /\ positional = ["in.txt"; "7"].
Proof.
  destruct (separate_sorts_every_token ["-v"; "in.txt"; "--out=x"; "7"]
              (configured 0 false true) (or_introl eq_refl))
    as (named & positional & m' & E & _ & _ & S).
  exists named, positional, m'. split; [exact E|]. exact (S eq_refl).
Defined.


Lemma set_back_checked_some v args :
  args <> [] ->
  set_back_checked v args = Some (set_back v args) /\ set_back v args <> [].
Proof.
  intros Hne. unfold set_back_checked, set_back.
  destruct (rev args) as [|[name old] front] eqn:Hr.
  - exfalso. apply Hne. rewrite <- (rev_involutive args), Hr. reflexivity.
  - split; [reflexivity|]. intros H. apply app_eq_nil in H. destruct H as [_ H].
    discriminate H.
Qed.

Lemma app_not_nil {A : Type} (l k : list A) : k <> [] -> (l ++ k)%list <> [].
Proof. intros Hk H. apply app_eq_nil in H. destruct H as [_ H]. contradiction. Qed.

Lemma app_not_nil_l {A : Type} (l k : list A) : l <> [] -> (l ++ k)%list <> [].
Proof. intros Hl H. apply app_eq_nil in H. destruct H as [H _]. contradiction. Qed.

(** Once [args] holds an entry, [back()] is defined for the rest of the
    loop. *)
Lemma assign_loop_checked_nonempty named : forall args m,
  args <> [] ->
  assign_loop_checked named args m = omap Some (assign_loop named args m).
Proof.
  induction named as [|[s v] named IH]; intros args m Hne; [reflexivity|].
  cbn [assign_loop_checked assign_loop].
  destruct v.
  - destruct (set_back_checked_some s args Hne) as [-> Hne']. apply IH. exact Hne'.
  - destruct (count_hyphens s =? 2).
    + unfold bind. destruct (deferred_assert _ _ _ m) as [b m0|]; [|reflexivity].
      apply IH. apply app_not_nil. discriminate.
    + destruct (count_hyphens s =? 1).
      * destruct (isdigit _).
        -- destruct (set_back_checked_some s args Hne) as [-> Hne']. apply IH. exact Hne'.
        -- apply IH. apply app_not_nil_l. exact Hne.
      * destruct (count_hyphens s =? 0).
        -- destruct (set_back_checked_some
                       (substr_from (Z.to_nat (count_hyphens s)) s) args Hne) as [-> Hne'].
           apply IH. exact Hne'.
        -- apply IH. exact Hne.
Qed.

Lemma count_hyphens_nat_before_find s eq :
  find "=" s = Some eq ->
  count_hyphens_nat (substring 0 eq s) = count_hyphens_nat s.
Proof.
  revert eq. induction s as [|a s IH]; intros eq; simpl; [discriminate|].
  destruct (Ascii.eqb_spec a "=") as [->|Hne].
  - intros [= <-]. reflexivity.
  - destruct (find "=" s) as [n|]; [|discriminate]. intros [= <-]. simpl.
    destruct (Ascii.eqb a "-"); [|reflexivity]. rewrite (IH n eq_refl). reflexivity.
Qed.

(** What [assign_named_values] does with the name part of a named token:
    it appends at least one entry. *)
Lemma named_token_name_part s :
  is_named_token s = true ->
  (count_hyphens s =? 2) = true
  \/ ((count_hyphens s =? 2) = false /\ (count_hyphens s =? 1) = true
      /\ isdigit (char_at (substr_from 1 s) 0) = false
      /\ flags_of (substr_from 1 s) <> []).
Proof.
  unfold is_named_token. cbv zeta. intros H.
  destruct (count_hyphens s =? 2) eqn:H2; [left; reflexivity|right].
  simpl in H. apply andb_prop in H. destruct H as [H Hd]. apply andb_prop in H.
  destruct H as [H1 Hsz]. split; [reflexivity|]. split; [exact H1|].
  apply Z.eqb_eq in H1. apply Z.leb_le in Hsz. apply negb_true_iff in Hd.
  destruct s as [|a [|c s']]; unfold size in Hsz; cbn [String.length] in Hsz;
    try lia.
  rewrite substr_from_1. unfold char_at in *. simpl in *.
  split; [exact Hd | discriminate].
Qed.

Lemma assign_loop_checked_named s rest m :
  is_named_token s = true ->
  assign_loop_checked ((s, false) :: rest) [] m
  = omap Some (assign_loop ((s, false) :: rest) [] m).
Proof.
  intros Hn. cbn [assign_loop_checked assign_loop].
  destruct (named_token_name_part s Hn) as [H2 | (H2 & H1 & Hd & Hf)]; rewrite H2.
  - unfold bind. destruct (deferred_assert _ _ _ m) as [b m0|]; [|reflexivity].
    apply assign_loop_checked_nonempty. simpl. discriminate.
  - rewrite H1. apply Z.eqb_eq in H1. rewrite H1.
    change (Z.to_nat 1) with 1%nat. rewrite Hd.
    apply assign_loop_checked_nonempty. simpl. exact Hf.
Qed.

(** The name part of a named token with an equation sign is handled like
    a named token. *)
Lemma named_token_before_eq s eq :
  is_named_token s = true ->
  find "=" s = Some eq ->
  (Z.of_nat eq - count_hyphens s =? 1) || (2 <=? count_hyphens s) = true ->
  is_named_token (substr 0 eq s) = true.
Proof.
  intros Hn Hf Hpass.
  assert (Hc : count_hyphens (substr 0 eq s) = count_hyphens s).
  { unfold count_hyphens, substr. rewrite (count_hyphens_nat_before_find _ _ Hf).
    reflexivity. }
  unfold is_named_token. cbv zeta. rewrite Hc.
  destruct (named_token_name_part s Hn) as [H2 | (H2 & H1 & Hd & _)].
  - rewrite H2. reflexivity.
  - rewrite H2, H1. apply Z.eqb_eq in H1. rewrite H1 in Hpass |- *.
    assert (Hs2 : (2 <=? 1) = false) by reflexivity.
    rewrite Hs2, orb_false_r in Hpass. apply Z.eqb_eq in Hpass.
    assert (Heq : eq = 2%nat) by lia. subst eq.
    destruct s as [|a [|c s']].
    + discriminate Hf.
    + simpl in Hf. destruct (Ascii.eqb a "="); discriminate Hf.
    + rewrite substr_from_1 in Hd.
      assert (Hsub : substr 0 2 (String a (String c s')) = String a (String c "")).
      { unfold substr. simpl. destruct s'; reflexivity. }
      rewrite Hsub. unfold size, char_at in *. simpl in Hd |- *. rewrite Hd. reflexivity.
Qed.

Lemma split_then_assign_checked named : forall m split m1,
  values_follow_names false named = true ->
  split_loop named [] m = Ret split m1 ->
  forall m2, assign_loop_checked split [] m2 = omap Some (assign_loop split [] m2).
Proof.
  induction named as [|s named IH]; intros m split m1 Hv Hs m2.
  - simpl in Hs. inversion Hs. reflexivity.
  - cbn [values_follow_names] in Hv.
    destruct (is_named_token s) eqn:Hn; [|discriminate Hv].
    cbn [split_loop] in Hs.
    destruct (find "=" s) as [eq|] eqn:Hf.
    + assert (Htv : takes_value s = false).
      { unfold takes_value, has_eq. rewrite Hf. simpl. apply andb_false_r. }
      rewrite Htv in Hv.
      unfold bind in Hs.
      destruct (deferred_assert _ _ _ m) as [b m0|] eqn:Hd; [|discriminate Hs].
      assert (Hb : b = (Z.of_nat eq - count_hyphens s =? 1) || (2 <=? count_hyphens s)).
      { unfold deferred_assert, bind, gets in Hd.
        destruct (negb (_strict m)); simpl in Hd.
        - unfold _instant_assert in Hd.
          destruct ((Z.of_nat eq - count_hyphens s =? 1) || (2 <=? count_hyphens s));
            inversion Hd; reflexivity.
        - destruct ((Z.of_nat eq - count_hyphens s =? 1) || (2 <=? count_hyphens s));
            inversion Hd; reflexivity. }
      destruct b; simpl in Hs.
      * change (split_loop named
                  [(substr 0 eq s, false); (substr_from (S eq) s, true)] m0)
          with (split_loop named
                  ([(substr 0 eq s, false); (substr_from (S eq) s, true)] ++ [])%list m0)
          in Hs.
        rewrite split_loop_acc in Hs.
        destruct (split_loop named [] m0) as [sp m'|]; [|discriminate Hs].
        simpl in Hs. inversion Hs; subst.
        apply assign_loop_checked_named.
        apply named_token_before_eq; auto.
      * exact (IH _ _ _ Hv Hs m2).
    + change (split_loop named ([] ++ [(s, false)])%list m)
        with (split_loop named ([(s, false)] ++ [])%list m) in Hs.
      rewrite split_loop_acc in Hs.
      destruct (split_loop named [] m) as [sp m'|]; [|discriminate Hs].
      simpl in Hs. inversion Hs; subst.
      apply assign_loop_checked_named. exact Hn.
Qed.

(** X13. [assign_named_values] never evaluates [args.back()] on an empty
    vector: for every command line, in either mode, the loop with that
    access checked finishes without meeting it and gives the named table
    of the unchecked loop. *)
Theorem assign_named_values_back_is_defined
    (raw : list string) (m : _matcher) (np : list string * list string)
    (m1 : _matcher) (split : list (string * bool)) (m2 : _matcher) :
  separate_named_positional raw m = Ret np m1 ->
  split_equations (fst np) m1 = Ret split m2 ->
  assign_loop_checked split [] m2 = omap Some (assign_named_values split m2).
Proof.
  intros Hsep Hsplit. unfold assign_named_values.
  apply (split_then_assign_checked (fst np) m1 split m2); [|exact Hsplit].
  clear Hsplit. unfold separate_named_positional in Hsep.
  assert (Hgen : forall raw tn nm ps m r m',
             separate_loop raw tn nm ps m = Ret r m' ->
             exists named, fst r = (nm ++ named)%list
                           /\ values_follow_names tn named = true).
  { clear. induction raw as [|s raw IH]; intros tn nm ps m r m' H.
    - simpl in H. inversion H. exists []. rewrite app_nil_r. auto.
    - cbn [separate_loop] in H. unfold bind, gets in H.
      destruct (deferred_assert _ _ _ m) as [b m0|]; [|discriminate H].
      destruct (is_named_token s) eqn:Hn.
      + destruct (IH _ _ _ _ _ _ H) as (named & E & V).
        exists (s :: named). rewrite E, <- app_assoc. simpl. rewrite Hn. auto.
      + destruct (_space_assignment m0 && tn) eqn:Hc.
        * destruct (IH _ _ _ _ _ _ H) as (named & E & V).
          apply andb_prop in Hc. destruct Hc as [_ ->].
          exists (s :: named). rewrite E, <- app_assoc. simpl. rewrite Hn. auto.
        * exact (IH _ _ _ _ _ _ H). }
  destruct (Hgen _ _ _ _ _ _ _ Hsep) as (named & E & V). simpl in E. rewrite E. exact V.
Qed.

Lemma assign_named_values_back_is_defined_witness :
  assign_loop_checked [("--out", false); ("-5", false)] [] (configured 0 true true)
  = omap Some (assign_named_values [("--out", false); ("-5", false)]
                 (configured 0 true true)).
Proof.
  apply (assign_named_values_back_is_defined ["--out"; "-5"; "-"; "x"]
           (configured 0 true true) (["--out"; "-5"], ["-"; "x"])
           (configured 0 true true)).
  - reflexivity.
  - reflexivity.
Defined.


(** ** Decimal forms *)

Lemma string_of_uint_digits u : all_digits (NilEmpty.string_of_uint u) = true.
Proof. induction u; simpl; auto. Qed.

Ltac digit_code :=
  repeat match goal with
         | |- context [char_code ?c] =>
             let v := eval vm_compute in (char_code c) in
             change (char_code c) with v
         end.

Lemma digits_value_of_uint_acc u : forall acc,
  digits_value (NilEmpty.string_of_uint u) (Z.pos acc) = Z.pos (Pos.of_uint_acc u acc).
Proof.
  induction u; intros acc; cbn [NilEmpty.string_of_uint digits_value Pos.of_uint_acc];
    try reflexivity;
    match goal with
    | |- digits_value _ ?x = _ =>
        match goal with
        | |- _ = Z.pos (Pos.of_uint_acc _ ?p) =>
            replace x with (Z.pos p) by (digit_code; lia)
        end
    end; apply IHu.
Qed.

Lemma digits_value_of_uint u :
  digits_value (NilEmpty.string_of_uint u) 0 = Z.of_N (Pos.of_uint u).
Proof.
  induction u; cbn [NilEmpty.string_of_uint digits_value Pos.of_uint];
    try reflexivity; try exact IHu;
    match goal with
    | |- digits_value _ ?x = Z.of_N (N.pos (Pos.of_uint_acc _ ?p)) =>
        replace x with (Z.pos p) by (digit_code; lia)
    end; apply digits_value_of_uint_acc.
Qed.

Lemma decimal_of_positive p :
  exists c body,
    NilZero.string_of_uint (Pos.to_uint p) = String c body
    /\ isdigit c = true
    /\ all_digits (String c body) = true
    /\ digits_value (String c body) 0 = Z.pos p.
Proof.
  pose proof (DecimalPos.Unsigned.of_to p) as Hv.
  pose proof (DecimalPos.Unsigned.to_uint_nonnil p) as Hn.
  pose proof (string_of_uint_digits (Pos.to_uint p)) as Hd.
  pose proof (digits_value_of_uint (Pos.to_uint p)) as Hval.
  rewrite Hv in Hval.
  assert (Hs : NilZero.string_of_uint (Pos.to_uint p)
               = NilEmpty.string_of_uint (Pos.to_uint p)).
  { destruct (Pos.to_uint p); try reflexivity. contradiction. }
  rewrite Hs.
  destruct (NilEmpty.string_of_uint (Pos.to_uint p)) as [|c body].
  - simpl in Hval. discriminate Hval.
  - exists c, body. split; [reflexivity|]. split; [|split; assumption].
    simpl in Hd. apply andb_prop in Hd. apply Hd.
Qed.

Lemma decimal_value_to_string z : decimal_value (to_string z) = Some z.
Proof.
  unfold to_string. destruct z as [|p|p]; [reflexivity| |];
    cbn [Z.to_int NilZero.string_of_int];
    destruct (decimal_of_positive p) as (c & body & -> & Hc & Hd & Hv).
  - unfold decimal_value. rewrite (proj1 (isdigit_not_sign c Hc)), Hd, Hv. reflexivity.
  - unfold decimal_value. change (Ascii.eqb "-" "-") with true. cbv iota.
    rewrite Hd, Hv. reflexivity.
Qed.

Lemma get_with_precision_in_range T a m m1 s v :
  get_and_mark_as_queried (_id a) m = Ret (s, string_t) m1 ->
  decimal_value s = Some v ->
  lowest T <= v <= max T ->
  v <= LLONG_MAX ->
  _get_with_precision T a m = Ret (Some v) m1.
Proof.
  intros Hq Hd Hv Hmax.
  pose proof (limits_within_long_long T) as (Hlow & _ & Hlow0 & _).
  pose proof (get_long_long_decimal _ _ _ _ _ Hq Hd) as Hll.
  destruct (Z.leb_spec LLONG_MIN v); [|lia].
  destruct (Z.leb_spec v LLONG_MAX); [|lia]. simpl in Hll.
  rewrite (get_with_precision_after _ _ _ _ _ Hll).
  assert (Hsgn : is_signed T || (0 <=? v) = true).
  { destruct (is_signed T) eqn:Hs; [reflexivity|]. simpl.
    rewrite (unsigned_lowest T Hs) in Hv. apply Z.leb_le. lia. }
  unfold bind. rewrite Hsgn, deferred_assert_pass.
  rewrite within_limits_in_range by assumption. rewrite deferred_assert_pass.
  unfold ret. rewrite cast_in_range by assumption. reflexivity.
Qed.

(** X14. The decimal form [std::to_string] gives of an integer reads back
    as that integer: whenever a query finds [std::to_string(v)] and [v] is
    within the limits of the target type [T] and of [long long], the
    integral coercion returns exactly [v] and raises nothing. *)
Theorem to_string_coerces_back
    (T : integral) (a : arg) (m m1 : _matcher) (v : Z) :
  get_and_mark_as_queried (_id a) m = Ret (to_string v, string_t) m1 ->
  lowest T <= v <= max T ->
  v <= LLONG_MAX ->
  decimal_value (to_string v) = Some v
  /\ _get_with_precision T a m = Ret (Some v) m1.
Proof.
  intros Hq Hv Hmax. split; [apply decimal_value_to_string|].
  apply (get_with_precision_in_range T a m m1 (to_string v) v); auto.
  apply decimal_value_to_string.
Qed.

Lemma to_string_coerces_back_witness :
  _get_with_precision (mk_integral true W8)
    (mk_arg (mk_identifier None (Some "level") None false "--level" "--level") "" None None)
    (mk_matcher "prog" [] [("level", Some "-128")] []
       (mk_first identifier_default "" true) 1 true true false)
  = Ret (Some (-128))
      (mark_as_queried (mk_identifier None (Some "level") None false "--level" "--level")
         (mk_matcher "prog" [] [("level", Some "-128")] []
            (mk_first identifier_default "" true) 1 true true false)).
Proof.
  apply (to_string_coerces_back (mk_integral true W8)
           (mk_arg (mk_identifier None (Some "level") None false "--level" "--level")
              "" None None)
           (mk_matcher "prog" [] [("level", Some "-128")] []
              (mk_first identifier_default "" true) 1 true true false)
           _ (-128)).
  - reflexivity.
  - unfold lowest, max, bits. simpl. lia.
  - unfold LLONG_MAX. lia.
Defined.


(** ** Values that are not integers *)









(** ** Absent arguments, flags and defaults *)

Lemma get_long_long_absent a m v m1 :
  get_and_mark_as_queried (_id a) m = Ret (v, none_t) m1 ->
  _get_long_long a m = Ret (_int_value a) m1.
Proof.
  intros Hq. unfold _get_long_long. rewrite (bind_ret _ _ _ _ _ Hq).
  cbn [fst snd arg_type_eqb negb]. unfold bind. rewrite deferred_assert_pass. reflexivity.
Qed.

Lemma get_with_precision_absent T a m v m1 :
  get_and_mark_as_queried (_id a) m = Ret (v, none_t) m1 ->
  (_int_value a = None -> _get_with_precision T a m = Ret None m1)
  /\ (forall d, _int_value a = Some d -> lowest T <= d <= max T -> d <= LLONG_MAX ->
                _get_with_precision T a m = Ret (Some d) m1).
Proof.
  intros Hq. pose proof (get_long_long_absent a m v m1 Hq) as Hll. split.
  - intros Hd. rewrite Hd in Hll. unfold _get_with_precision.
    rewrite (bind_ret _ _ _ _ _ Hll). reflexivity.
  - intros d Hd Hv Hmax. rewrite Hd in Hll.
    rewrite (get_with_precision_after _ _ _ _ _ Hll).
    assert (Hsgn : is_signed T || (0 <=? d) = true).
    { destruct (is_signed T) eqn:Hs; [reflexivity|]. simpl.
      rewrite (unsigned_lowest T Hs) in Hv. apply Z.leb_le. lia. }
    unfold bind. rewrite Hsgn, deferred_assert_pass.
    rewrite within_limits_in_range by assumption. rewrite deferred_assert_pass.
    unfold ret. rewrite cast_in_range by assumption. reflexivity.
Qed.

Lemma bind_check_ret {A : Type} (dec : bool) (x : A) m :
  (check dec ;; ret x) m = omap (fun _ => x) (check dec m).
Proof. unfold bind. destruct (check dec m); reflexivity. Qed.

(** X16. When the query finds nothing for an integral argument: a default
    within the limits of the target type is the result of [_convert]; with
    no default [_convert] raises "required argument ... not provided"
    (fatal at once without strict mode, deferred in strict mode, where the
    result is 0), and [_convert_optional] gives the empty optional without
    any error. In each case the result is returned unless the call of
    [check] that ends the conversion terminates the run. *)
Theorem absent_argument_takes_its_default
    (T : integral) (a : arg) (dec : bool) (m : _matcher) (v : string) (m1 : _matcher) :
  get_and_mark_as_queried (_id a) m = Ret (v, none_t) m1 ->
  (forall d, _int_value a = Some d -> lowest T <= d <= max T -> d <= LLONG_MAX ->
             _convert T a dec m = omap (fun _ => d) (check dec m1))
  /\ (_int_value a = None ->
      _convert T a dec m
      = if _strict m
        then omap (fun _ => 0)
               (check dec
                  (set_deferred_error
                     (_first_set (_id a)
                        ("required argument " ++ _longer (_id a) ++ " not provided")
                        (_deferred_error m1)) m1))
        else Exit _failure_code
               (user_error ("required argument " ++ _longer (_id a) ++ " not provided")))
  /\ (_int_value a = None -> _string_value a = None ->
      _convert_optional T a false dec m = omap (fun _ => None) (check dec m1)).
Proof.
  intros Hq. destruct (get_with_precision_absent T a m v m1 Hq) as [Hnone Hsome].
  pose proof (frame_strict _ _ (frame_get_and_mark_as_queried _ _ _ _ Hq)) as Hs1.
  split; [|split].
  - intros d Hd Hv Hmax. unfold _convert.
    rewrite (bind_ret _ _ _ _ _ (Hsome d Hd Hv Hmax)).
    cbn [has_value]. unfold bind at 1. rewrite deferred_assert_pass.
    apply bind_check_ret.
  - intros Hd. unfold _convert. rewrite (bind_ret _ _ _ _ _ (Hnone Hd)).
    cbn [has_value]. unfold bind at 1.
    rewrite deferred_assert_fail by reflexivity. rewrite Hs1.
    destruct (_strict m); [|reflexivity]. apply bind_check_ret.
  - intros Hd Hsv. unfold _convert_optional. rewrite Hd, Hsv. cbn [has_value orb negb].
    unfold bind at 1. unfold _instant_assert, ret.
    rewrite (bind_ret _ _ _ _ _ (Hnone Hd)). apply bind_check_ret.
Qed.

Lemma absent_argument_takes_its_default_witness :
  _convert (mk_integral true W32)
    (mk_arg (mk_identifier None (Some "level") None false "--level" "--level")
       "" (Some 3) None)
    true
    (mk_matcher "prog" [] [] [] (mk_first identifier_default "" true) 2 true true false)
  = Ret 3
      (set_main_argc 1
         (mark_as_queried (mk_identifier None (Some "level") None false "--level" "--level")
            (mk_matcher "prog" [] [] [] (mk_first identifier_default "" true)
               2 true true false))).
Proof.
  apply (proj1 (absent_argument_takes_its_default (mk_integral true W32)
                  (mk_arg (mk_identifier None (Some "level") None false "--level" "--level")
                     "" (Some 3) None)
                  true
                  (mk_matcher "prog" [] [] [] (mk_first identifier_default "" true)
                     2 true true false)
                  "" _ eq_refl) 3 eq_refl).
  - unfold lowest, max, bits. simpl. lia.
  - unfold LLONG_MAX. lia.
Defined.

(** X17. A flag, given on the command line without a value, cannot stand
    for an argument that needs one: the integer and the string reading
    both raise "argument ... must have value" under the argument's
    Identifier, fatal at once without strict mode and deferred in strict
    mode, where the reading then falls back to the default. *)
Theorem flag_for_a_valued_argument (a : arg) (m : _matcher) (v : string) (m1 : _matcher) :
  get_and_mark_as_queried (_id a) m = Ret (v, bool_t) m1 ->
  _get_long_long a m
  = (if _strict m
     then Ret (_int_value a)
            (set_deferred_error
               (_first_set (_id a) ("argument " ++ _help (_id a) ++ " must have value")
                  (_deferred_error m1)) m1)
     else Exit _failure_code
            (user_error ("argument " ++ _help (_id a) ++ " must have value")))
  /\ _get_string a m
     = (if _strict m
        then Ret (_string_value a)
               (set_deferred_error
                  (_first_set (_id a) ("argument " ++ _help (_id a) ++ " must have value")
                     (_deferred_error m1)) m1)
        else Exit _failure_code
               (user_error ("argument " ++ _help (_id a) ++ " must have value"))).
Proof.
  intros Hq.
  pose proof (frame_strict _ _ (frame_get_and_mark_as_queried _ _ _ _ Hq)) as Hs1.
  split.
  - unfold _get_long_long. rewrite (bind_ret _ _ _ _ _ Hq).
    cbn [fst snd arg_type_eqb negb]. unfold bind.
    rewrite deferred_assert_fail by reflexivity. rewrite Hs1.
    destruct (_strict m); reflexivity.
  - unfold _get_string. rewrite (bind_ret _ _ _ _ _ Hq).
    cbn [fst snd arg_type_eqb negb]. unfold bind.
    rewrite deferred_assert_fail by reflexivity. rewrite Hs1.
    destruct (_strict m); reflexivity.
Qed.

Lemma flag_for_a_valued_argument_witness :
  _get_long_long
    (mk_arg (mk_identifier (Some "n") None None false "-n" "-n") "" None None)
    (mk_matcher "prog" [] [("n", None)] [] (mk_first identifier_default "" true)
       1 true false false)
  = Exit _failure_code (user_error "argument -n must have value").
Proof.
  apply (proj1 (flag_for_a_valued_argument
                  (mk_arg (mk_identifier (Some "n") None None false "-n" "-n") "" None None)
                  (mk_matcher "prog" [] [("n", None)] []
                     (mk_first identifier_default "" true) 1 true false false)
                  "" _ eq_refl)).
Defined.

(** X18. The flag conversion [arg::operator bool]: an argument with a
    default value is a programmer-side fatal error; otherwise the result is
    true exactly when the query finds the flag without a value, and a flag
    that was given a value raises "flag ... must not have value" (fatal at
    once without strict mode, deferred with result false in strict mode).
    The result is returned unless the final [check] terminates the run. *)
Theorem flag_conversion (a : arg) (float_default : bool) (m : _matcher) :
  (has_value (_int_value a) || float_default || has_value (_string_value a) = true ->
   operator_bool a float_default m
   = Exit _failure_code
       (programmer_error (_longer (_id a) ++ " flag parameter must not have default value")))
  /\ (has_value (_int_value a) || float_default || has_value (_string_value a) = false ->
      forall v kind m1,
        get_and_mark_as_queried (_id a) m = Ret (v, kind) m1 ->
        operator_bool a float_default m
        = match kind with
          | bool_t => omap (fun _ => true) (check true m1)
          | none_t => omap (fun _ => false) (check true m1)
          | string_t =>
              if _strict m
              then omap (fun _ => false)
                     (check true
                        (set_deferred_error
                           (_first_set (_id a)
                              ("flag " ++ _help (_id a) ++ " must not have value")
                              (_deferred_error m1)) m1))
              else Exit _failure_code
                     (user_error ("flag " ++ _help (_id a) ++ " must not have value"))
          end).
Proof.
  split.
  - intros Hd. unfold operator_bool.
    assert (Hp : negb (has_value (_int_value a)) && negb float_default
                 && negb (has_value (_string_value a)) = false).
    { destruct (has_value (_int_value a)), float_default, (has_value (_string_value a));
        simpl in *; congruence. }
    rewrite Hp. unfold bind, _instant_assert, exit, programmer_error.
    destruct (_longer (_id a)); reflexivity.
  - intros Hd v kind m1 Hq.
    pose proof (frame_strict _ _ (frame_get_and_mark_as_queried _ _ _ _ Hq)) as Hs1.
    unfold operator_bool.
    assert (Hp : negb (has_value (_int_value a)) && negb float_default
                 && negb (has_value (_string_value a)) = true).
    { destruct (has_value (_int_value a)), float_default, (has_value (_string_value a));
        simpl in *; congruence. }
    rewrite Hp. unfold bind at 1. unfold _instant_assert, ret.
    rewrite (bind_ret _ _ _ _ _ Hq). cbn [fst snd].
    destruct kind; cbn [arg_type_eqb negb].
    + unfold bind at 1. rewrite deferred_assert_fail by reflexivity. rewrite Hs1.
      destruct (_strict m); [|reflexivity]. apply bind_check_ret.
    + unfold bind at 1. rewrite deferred_assert_pass. apply bind_check_ret.
    + unfold bind at 1. rewrite deferred_assert_pass. apply bind_check_ret.
Qed.


(** ** Whole runs *)

Lemma parse_one_named exe tok sp name value m :
  (forall m0, separate_named_positional [tok] m0 = Ret ([tok], []) m0) ->
  (forall m0, split_equations [tok] m0 = Ret sp m0) ->
  (forall m0, assign_named_values sp m0 = Ret [(name, value)] m0) ->
  parse [exe; tok] m = Ret tt (set_tables exe [] [(name, value)] m).
Proof.
  intros Hsep Hsplit Hassign. unfold parse, classify. cbn [hd tl].
  unfold bind, modify. rewrite Hsep. cbn [fst snd]. rewrite Hsplit, Hassign.
  cbn [duplicates_outer duplicates_inner fst app]. unfold bind, ret.
  unfold reject_positional, bind, gets. cbn [_space_assignment set_tables _positional].
  destruct (_space_assignment m); [|reflexivity].
  rewrite deferred_assert_pass. reflexivity.
Qed.

Lemma parse_assignment exe name value m :
  plain_name name = true ->
  parse [exe; assignment name value] m
  = Ret tt (set_tables exe [] [(name, Some value)] m).
Proof.
  intros Hn.
  apply (parse_one_named exe (assignment name value)
           [(long_option name, false); (value, true)]).
  - intros m0. unfold separate_named_positional.
    rewrite separate_assignment by exact Hn. reflexivity.
  - intros m0. unfold split_equations. rewrite split_assignment by exact Hn. reflexivity.
  - intros m0. unfold assign_named_values. rewrite assign_assignment by exact Hn.
    reflexivity.
Qed.

Lemma init_and_run_one_named exe tok name value n sa :
  parse [exe; tok] (configured n sa true)
  = Ret tt (set_tables exe [] [(name, value)] (configured n sa true)) ->
  String.eqb name "h" = false ->
  String.eqb name "help" = false ->
  0 < n ->
  init_and_run [exe; tok] n sa
  = Ret tt (mk_matcher exe [] [(name, value)] [help_identifier]
              (mk_first identifier_default "" true) n sa true false).
Proof.
  intros Hp Hh Hhelp Hn. unfold init_and_run.
  rewrite (matcher_init_after_parse _ _ _ _ _ Hp). rewrite check_spec.
  cbn [has_help existsb fst set_tables _named]. rewrite Hh, Hhelp.
  cbv zeta. cbn. rewrite Z.sub_0_r.
  destruct (Z.ltb_spec 0 n); [reflexivity|lia].
Qed.

Lemma identifier_name_long name m :
  declarable name = true ->
  2 <= size name ->
  identifier_name name m
  = Ret (mk_identifier None (Some name) None false ("--" ++ name) ("--" ++ name)) m.
Proof.
  intros Hd Hs. unfold identifier_name, bind.
  destruct (check_name_cases name m) as [[_ ->] | [F _]]; [|congruence].
  destruct (Z.eqb_spec (size name) 1); [lia|]. reflexivity.
Qed.


Lemma plain_name_declarable name : plain_name name = true -> declarable name = true.
Proof.
  unfold plain_name, declarable. intros H. apply andb_prop in H. destruct H as [H _].
  apply andb_prop in H. destruct H as [Hs Hc]. rewrite Hc, Hs.
  apply Z.leb_le in Hs. destruct (Z.leb_spec 1 (size name)); [reflexivity|lia].
Qed.

(** X19. "--name=value" hands over its value untouched: for every long
    name without '=' other than "help" and every value whatever (empty,
    with leading hyphens, with further '=' signs), a strict run on that
    command line is constructed without error, in either mode of space
    assignment, and the string reading of the argument declared under that
    name returns exactly the value. *)
Theorem assignment_value_is_verbatim
    (exe name value : string) (n : Z) (sa : bool) (descr : string) (dflt : option string) :
  plain_name name = true ->
  name <> "help" ->
  0 < n ->
  exists m0 id m1,
    init_and_run [exe; assignment name value] n sa = Ret tt m0
    /\ identifier_name name m0 = Ret id m0
    /\ _get_string (mk_arg id descr None dflt) m0 = Ret (Some value) m1.
Proof.
  intros Hn Hhelp Hpos.
  assert (Hh : String.eqb name "h" = false).
  { apply String.eqb_neq. intros ->. discriminate Hn. }
  assert (Hhelp' : String.eqb name "help" = false) by (apply String.eqb_neq; exact Hhelp).
  pose proof (init_and_run_one_named exe (assignment name value) name (Some value) n sa
                (parse_assignment exe name value _ Hn) Hh Hhelp' Hpos) as Hrun.
  pose proof (plain_name_size _ Hn) as Hsz. apply Z.leb_le in Hsz.
  eexists. eexists. eexists. split; [exact Hrun|]. split.
  - apply identifier_name_long; [apply plain_name_declarable; exact Hn | exact Hsz].
  - unfold _get_string. cbn [_id]. unfold bind at 1.
    rewrite get_and_mark_as_queried_spec.
    cbn [_space_assignment _pos has_value _queried existsb _named _positional].
    rewrite andb_false_r.
    assert (Ho : overlaps help_identifier
                   (mk_identifier None (Some name) None false ("--" ++ name) ("--" ++ name))
                 = false).
    { unfold overlaps, help_identifier. cbn [_long_name _short_name _pos].
      rewrite String.eqb_sym, Hhelp'. reflexivity. }
    rewrite Ho. cbn [orb].
    assert (Hr : resolve [(name, Some value)] []
                   (mk_identifier None (Some name) None false ("--" ++ name) ("--" ++ name))
                 = (value, string_t)).
    { unfold resolve, lookup_named, contains. cbn [_short_name _long_name].
      rewrite String.eqb_refl. reflexivity. }
    rewrite Hr. cbn [fst snd arg_type_eqb negb].
    unfold bind. rewrite deferred_assert_pass. reflexivity.
Qed.

Lemma assignment_value_is_verbatim_witness :
  exists m0 id m1,
    init_and_run ["prog"; assignment "range" "-1=x"] 1 true = Ret tt m0
    /\ identifier_name "range" m0 = Ret id m0
    /\ _get_string (mk_arg id "" None None) m0 = Ret (Some "-1=x") m1.
Proof.
  apply (assignment_value_is_verbatim "prog" "range" "-1=x" 1 true "" None).
  - reflexivity.
  - discriminate.
  - lia.
Defined.

(** X20. The names "h" and "help" are taken: the constructor of the
    matcher queries the help flag itself, so in every run that
    [init_and_run] has constructed, the query of an Identifier with the
    short name "h" or the long name "help" is a double query, a
    programmer-side fatal error. *)
Theorem help_names_are_reserved
    (argv : list string) (n : Z) (sa : bool) (m0 : _matcher) (id : identifier) :
  init_and_run argv n sa = Ret tt m0 ->
  _pos id = None ->
  _short_name id = Some "h" \/ _long_name id = Some "help" ->
  get_and_mark_as_queried id m0
  = Exit _failure_code (programmer_error (double_query_msg id)).
Proof.
  intros Hrun Hp Hname. unfold init_and_run in Hrun.
  destruct (parse_of_run_returns argv n sa) as [m1 Hparse].
  rewrite (matcher_init_after_parse _ _ _ _ _ Hparse) in Hrun.
  pose proof (config_parse _ _ _ _ Hparse) as [_ Hs _ _ _].
  change (_strict (configured n sa true)) with true in Hs.
  pose proof (frame_check _ _ _ _ Hrun) as F.
  assert (Hin : In help_identifier (_queried m0)).
  { apply (frame_queried _ _ F). cbn [set_help_flag _queried].
    unfold mark_as_queried. rewrite Hs. cbn [set_queried _queried].
    apply in_or_app. right. left. reflexivity. }
  rewrite get_and_mark_as_queried_spec. rewrite Hp. cbn [has_value].
  rewrite andb_false_r.
  assert (Ho : existsb (fun it => overlaps it id) (_queried m0) = true).
  { apply existsb_exists. exists help_identifier. split; [exact Hin|].
    unfold overlaps, help_identifier. cbn [_long_name _short_name _pos].
    destruct Hname as [-> | ->].
    - rewrite String.eqb_refl, orb_true_r. reflexivity.
    - rewrite String.eqb_refl. reflexivity. }
  rewrite Ho. reflexivity.
Qed.

Lemma help_names_are_reserved_witness :
  get_and_mark_as_queried help_identifier (matcher_of_run ["prog"; "-v"] 2 true)
  = Exit _failure_code (programmer_error (double_query_msg help_identifier)).
Proof.
  apply (help_names_are_reserved ["prog"; "-v"] 2 true
           (matcher_of_run ["prog"; "-v"] 2 true) help_identifier).
  - reflexivity.
  - reflexivity.
  - left. reflexivity.
Defined.








(** ** The vector conversion *)









(** ** The help page *)

(** X23. The comparator [print_help] gives to [std::sort] is a strict weak
    order, as [std::sort] requires: irreflexive, transitive, and with a
    transitive "not before"; it puts every required argument before every
    optional one. *)
Theorem help_order_strict_weak_order :
  (forall a, help_lt a a = false)
  /\ (forall a b c, help_lt a b = true -> help_lt b c = true -> help_lt a c = true)
  /\ (forall a b c, help_lt a b = false -> help_lt b c = false -> help_lt a c = false)
  /\ (forall a b, optional (snd a) = false -> optional (snd b) = true ->
                  help_lt a b = true /\ help_lt b a = false).
Proof.
  split; [|split; [|split]].
  - intros a. unfold help_lt. rewrite Bool.eqb_reflx. apply identifier_lt_irrefl.
  - intros a b c. unfold help_lt.
    destruct (optional (snd a)), (optional (snd b)), (optional (snd c)); simpl;
      try discriminate; try reflexivity; apply identifier_lt_trans.
  - intros a b c. unfold help_lt.
    destruct (optional (snd a)), (optional (snd b)), (optional (snd c)); simpl;
      try discriminate; try reflexivity; apply identifier_ge_trans.
  - intros a b Ha Hb. unfold help_lt. rewrite Ha, Hb. split; reflexivity.
Qed.

Lemma size_app a b : size (a ++ b) = size a + size b.
Proof. unfold size. rewrite string_length_app. lia. Qed.

Lemma size_spaces n : size (spaces n) = Z.of_nat n.
Proof.
  unfold size. induction n as [|n IH]; [reflexivity|].
  cbn [spaces String.length]. lia.
Qed.

Lemma margin_of_from printed : forall margin0,
  margin0 <= fold_left
               (fun margin it => Z.max margin (size (_make_printable (fst it) (snd it) true)))
               printed margin0
  /\ forall it, In it printed ->
       size (_make_printable (fst it) (snd it) true)
       <= fold_left
            (fun margin it => Z.max margin (size (_make_printable (fst it) (snd it) true)))
            printed margin0.
Proof.
  induction printed as [|x printed IH]; intros margin0; cbn [fold_left].
  - split; [lia | intros it []].
  - destruct (IH (Z.max margin0 (size (_make_printable (fst x) (snd x) true)))) as [H1 H2].
    split; [lia|]. intros it [<-|Hin]; [lia | apply H2; exact Hin].
Qed.

(** X24. The options of the help page are aligned: with the margin
    [print_help] computes, the number of spaces [_add_to_help] puts after
    an argument is never below two (the unsigned subtraction does not wrap
    around), and the description of every argument starts at the same
    column, eight past the margin. *)
Theorem help_options_are_aligned
    (printed : list (identifier * log_elem)) (id : identifier) (elem : log_elem) :
  In (id, elem) printed ->
  margin_of printed < 2 ^ 64 - 2 ->
  2 <= padding (margin_of printed) (_make_printable id elem true)
  /\ padding (margin_of printed) (_make_printable id elem true)
     = 2 + margin_of printed - size (_make_printable id elem true)
  /\ size (option_column id elem (margin_of printed)) = 8 + margin_of printed.
Proof.
  intros Hin Hm.
  destruct (margin_of_from printed 0) as [_ Hle].
  specialize (Hle (id, elem) Hin). cbn [fst snd] in Hle. fold (margin_of printed) in Hle.
  assert (Hsz : 0 <= size (_make_printable id elem true)) by (unfold size; lia).
  assert (Hpad : padding (margin_of printed) (_make_printable id elem true)
                 = 2 + margin_of printed - size (_make_printable id elem true)).
  { unfold padding. apply Z.mod_small. lia. }
  split; [lia|]. split; [exact Hpad|].
  unfold option_column. rewrite !size_app, size_spaces, Hpad.
  change (size "      ") with 6. lia.
Qed.

Lemma help_options_are_aligned_witness :
  size (option_column help_identifier (mk_log_elem "Print the help" "" "" true)
          (margin_of [(help_identifier, mk_log_elem "Print the help" "" "" true);
                      (identifier_pos 0, mk_log_elem "Input" "STRING" "" false)]))
  = 8 + margin_of [(help_identifier, mk_log_elem "Print the help" "" "" true);
                   (identifier_pos 0, mk_log_elem "Input" "STRING" "" false)].
Proof.
  apply (help_options_are_aligned
           [(help_identifier, mk_log_elem "Print the help" "" "" true);
            (identifier_pos 0, mk_log_elem "Input" "STRING" "" false)]
           help_identifier (mk_log_elem "Print the help" "" "" true)).
  - left. reflexivity.
  - vm_compute. reflexivity.
Defined.

(** X25. What [log] records is shown as optional when it should be: an
    argument with a default value, one declared optional and a flag (no
    type name) are printed between square brackets, in the usage line and
    in the options alike; [log] keeps the arguments recorded before. *)
Theorem logged_default_prints_as_optional
    (params : list (identifier * log_elem)) (id : identifier) (elem : log_elem)
    (verbose : bool) :
  def elem <> "" \/ optional elem = true \/ type elem = "" ->
  exists logged body,
    log params id elem = (params ++ [(id, logged)])%list
    /\ descr logged = descr elem /\ type logged = type elem /\ def logged = def elem
    /\ _make_printable id logged verbose = "[" ++ body ++ "]".
Proof.
  intros H. unfold log. eexists. eexists. split; [reflexivity|].
  cbn [descr type def optional]. split; [reflexivity|]. split; [reflexivity|].
  split; [reflexivity|].
  unfold _make_printable. cbn [optional type].
  assert (Hb : optional elem || negb (String.eqb (def elem) "")
               || String.eqb (type elem) "" = true).
  { destruct H as [H|[H|H]].
    - apply String.eqb_neq in H. rewrite H. simpl. rewrite orb_true_r. reflexivity.
    - rewrite H. reflexivity.
    - rewrite H. simpl. apply orb_true_r. }
  rewrite Hb. cbn [append]. f_equal. rewrite <- string_app_assoc. reflexivity.
Qed.

Lemma logged_default_prints_as_optional_witness :
  exists logged body,
    log [] (identifier_pos 0) (mk_log_elem "Count" "INTEGER" "3" false)
    = [(identifier_pos 0, logged)]
    /\ descr logged = "Count" /\ type logged = "INTEGER" /\ def logged = "3"
    /\ _make_printable (identifier_pos 0) logged true = "[" ++ body ++ "]".
Proof.
  apply (logged_default_prints_as_optional [] (identifier_pos 0)
           (mk_log_elem "Count" "INTEGER" "3" false) true).
  left. discriminate.
Defined.


(** ** Without strict mode *)

Lemma idle_refl m : idle m m.
Proof. intros _. destruct m; reflexivity. Qed.

Lemma idle_trans m1 m2 m3 : idle m1 m2 -> idle m2 m3 -> idle m1 m3.
Proof.
  intros H12 H23 Hs. specialize (H12 Hs).
  assert (Hs2 : _strict m2 = false) by (rewrite H12; exact Hs).
  rewrite (H23 Hs2). rewrite H12. reflexivity.
Qed.

Lemma idle_deferred_assert id pass msg : preserves idle (deferred_assert id pass msg).
Proof.
  intros m b m' H Hs. rewrite deferred_assert_not_strict in H by exact Hs.
  destruct pass; inversion H. subst. destruct m'; reflexivity.
Qed.

Lemma idle_get_and_mark_as_queried id : preserves idle (get_and_mark_as_queried id).
Proof.
  intros m r m' H Hs. rewrite get_and_mark_as_queried_spec in H.
  destruct (_ && _); [discriminate H|]. destruct (existsb _ _); [discriminate H|].
  inversion H. unfold mark_as_queried. rewrite Hs. destruct m; reflexivity.
Qed.

Lemma idle_check dec : preserves idle (check dec).
Proof.
  intros m u m' H Hs. rewrite check_spec in H. cbv zeta in H. rewrite Hs in H.
  cbn [negb orb] in H. inversion H. reflexivity.
Qed.

Ltac idle_step :=
  lazymatch goal with
  | |- preserves idle (bind _ _) => apply (preserves_bind idle idle_trans); [|intros ?]
  | |- preserves idle (ret _) => apply (preserves_ret idle idle_refl)
  | |- preserves idle (gets _) => apply (preserves_gets idle idle_refl)
  | |- preserves idle (exit _ _) => apply preserves_exit
  | |- preserves idle (_instant_assert _ _ _) =>
      apply (preserves_instant_assert idle idle_refl)
  | |- preserves idle (deferred_assert _ _ _) => apply idle_deferred_assert
  | |- preserves idle (get_and_mark_as_queried _) => apply idle_get_and_mark_as_queried
  | |- preserves idle (check _) => apply idle_check
  | |- preserves idle (if ?b then _ else _) => destruct b
  | |- preserves idle (match ?x with _ => _ end) => destruct x
  | |- preserves idle (let '(_, _) := ?x in _) => destruct x
  end.

Lemma idle_get_with_precision T a : preserves idle (_get_with_precision T a).
Proof. unfold _get_with_precision, _get_long_long. repeat idle_step. Qed.

Lemma idle_convert T a dec : preserves idle (_convert T a dec).
Proof. unfold _convert. repeat first [apply idle_get_with_precision | idle_step]. Qed.

Lemma idle_run cs : preserves idle (run cs).
Proof.
  induction cs as [|c cs IH]; cbn [run]; [apply (preserves_ret idle idle_refl)|].
  apply (preserves_bind idle idle_trans); [|intros _; exact IH].
  destruct c; cbn [do_call];
    repeat first [apply idle_get_with_precision | apply idle_convert | idle_step].
Qed.

Lemma idle_vector_loop T indices : forall acc, preserves idle (vector_loop T indices acc).
Proof.
  induction indices as [|i indices IH]; intros acc; cbn [vector_loop];
    [apply (preserves_ret idle idle_refl)|].
  apply (preserves_bind idle idle_trans); [apply idle_convert | intros v; apply IH].
Qed.

(** X26. A matcher that is not strict keeps no record of a run: whatever
    sequence of queries, assertions, checks and conversions returns, it
    leaves the tables, the Query Ledger, the Deferred Error Slot and the
    flags exactly as they were; only the countdown moves. The same holds
    of the string, flag, optional and vector conversions. *)
Theorem non_strict_calls_change_only_the_countdown (m : _matcher) :
  _strict m = false ->
  (forall cs m', run cs m = Ret tt m' -> m' = set_main_argc (_main_argc m') m)
  /\ (forall a dec r m', _convert_string a dec m = Ret r m' ->
                         m' = set_main_argc (_main_argc m') m)
  /\ (forall a fd r m', operator_bool a fd m = Ret r m' ->
                        m' = set_main_argc (_main_argc m') m)
  /\ (forall T a fd dec r m', _convert_optional T a fd dec m = Ret r m' ->
                              m' = set_main_argc (_main_argc m') m)
  /\ (forall T r m', operator_vector T m = Ret r m' ->
                     m' = set_main_argc (_main_argc m') m).
Proof.
  intros Hs. split; [|split; [|split; [|split]]].
  - intros cs m' H. exact (idle_run cs m tt m' H Hs).
  - intros a dec r m' H.
    assert (P : preserves idle (_convert_string a dec))
      by (unfold _convert_string, _get_string; repeat idle_step).
    exact (P m r m' H Hs).
  - intros a fd r m' H.
    assert (P : preserves idle (operator_bool a fd))
      by (unfold operator_bool; repeat idle_step).
    exact (P m r m' H Hs).
  - intros T a fd dec r m' H.
    assert (P : preserves idle (_convert_optional T a fd dec))
      by (unfold _convert_optional;
          repeat first [apply idle_get_with_precision | idle_step]).
    exact (P m r m' H Hs).
  - intros T r m' H.
    assert (P : preserves idle (operator_vector T))
      by (unfold operator_vector; repeat first [apply idle_vector_loop | idle_step]).
    exact (P m r m' H Hs).
Qed.

Lemma non_strict_calls_change_only_the_countdown_witness :
  run [call_query (identifier_pos 0); call_query (identifier_pos 0); call_check true]
    (mk_matcher "prog" ["a"] [] [] (mk_first identifier_default "" true) 2 false false false)
  = Ret tt
      (mk_matcher "prog" ["a"] [] [] (mk_first identifier_default "" true)
         1 false false false)
  /\ mk_matcher "prog" ["a"] [] [] (mk_first identifier_default "" true) 1 false false false
     = set_main_argc 1
         (mk_matcher "prog" ["a"] [] [] (mk_first identifier_default "" true)
            2 false false false).
Proof.
  split; [reflexivity|].
  apply (proj1 (non_strict_calls_change_only_the_countdown
                  (mk_matcher "prog" ["a"] [] [] (mk_first identifier_default "" true)
                     2 false false false) eq_refl)
           [call_query (identifier_pos 0); call_query (identifier_pos 0); call_check true]).
  reflexivity.
Defined.

(** ** [split_equations] *)




(** ** The initializer-list constructor of [arg] *)

(** X28. The initializer-list constructor of [arg] takes exactly two
    elements, not both of them integers. A name and an index may come in
    either order and give the positional argument of
    [identifier(help, pos)]; two names may come in either order and give
    the argument of [identifier(name1, name2)]. *)
Theorem arg_init_takes_its_elements_in_either_order (m : _matcher) :
  (forall init, List.length init <> 2%nat ->
     arg_init init m
     = Exit _failure_code
         (programmer_error
            "exactly two arguments must be given as initializer list arguments"))
  /\ (forall i j,
        arg_init [convertible_int i; convertible_int j] m
        = Exit _failure_code
            (programmer_error "both initializer list arguments can't be ints"))
  /\ (forall i s,
        arg_init [convertible_int i; convertible_chars s] m
        = omap (fun id => mk_arg id "" None None) (identifier_pos_help i s m)
        /\ arg_init [convertible_chars s; convertible_int i] m
           = omap (fun id => mk_arg id "" None None) (identifier_pos_help i s m))
  /\ (forall a b,
        arg_init [convertible_chars a; convertible_chars b] m
        = omap (fun id => mk_arg id "" None None) (identifier_names a b m)
        /\ forall r m', arg_init [convertible_chars a; convertible_chars b] m = Ret r m' ->
                        arg_init [convertible_chars b; convertible_chars a] m = Ret r m').
Proof.
  assert (Hnames : forall a b,
            arg_init [convertible_chars a; convertible_chars b] m
            = omap (fun id => mk_arg id "" None None) (identifier_names a b m)).
  { intros a b. unfold arg_init. cbn [List.length fold_left flat_map app].
    change (Z.of_nat 2 =? 2) with true. change (1 <=? Z.of_nat 2) with true.
    unfold bind, _instant_assert, ret.
    destruct (identifier_names a b m); reflexivity. }
  split; [|split; [|split]].
  - intros init Hlen. unfold arg_init.
    destruct (Z.eqb_spec (Z.of_nat (List.length init)) 2) as [E|_]; [lia|].
    reflexivity.
  - intros i j. reflexivity.
  - intros i s. split; unfold arg_init; cbn [List.length fold_left flat_map app];
      change (Z.of_nat 2 =? 2) with true; change (1 <=? Z.of_nat 1) with true;
      unfold bind, _instant_assert, optional_value, ret;
      destruct (identifier_pos_help i s m); reflexivity.
  - intros a b. split; [apply Hnames|]. intros r m' H.
    rewrite Hnames in H |- *.
    destruct (identifier_names a b m) as [id m1|] eqn:E; [|discriminate H].
    apply identifier_names_inv in E.
    destruct E as (-> & Hd1 & Hd2 & s & l & Hsl & Hs & Hl & ->).
    rewrite (identifier_names_built s l b a m).
    + exact H.
    + destruct Hsl as [[-> _] | [-> _]]; assumption.
    + destruct Hsl as [[_ ->] | [_ ->]]; assumption.
    + exact Hs.
    + exact Hl.
    + destruct Hsl as [[-> ->] | [-> ->]]; auto.
Qed.
